(** * A shallow embedding of the [matrix<T>] class template (matrix.hpp)

    The class owns a heap array through a [std::unique_ptr<T[]>], keeps its
    sizes in two [size_t] members and throws argument-less exception classes.
    The embedding therefore runs every member function in a small
    state-and-exception monad over

    - a heap of arrays (one array per [new T[n]], never re-using an address,
      with a log of the [delete[]] calls),
    - the static member [output_width],

    with three kinds of outcome: normal return, a thrown exception, and
    undefined behaviour (an access outside a buffer, a read of an
    indeterminate element, a [delete[]] of an array that is gone).

    [size_t] is a [size_bits]-wide unsigned integer, written as [Z] with its
    wrap-around spelled out. Allocation never fails: [std::bad_alloc] is not
    part of the model. The elements of a fresh [new T[n]] are taken to be
    indeterminate, as they are for the arithmetic types; the operations of
    [T] are total and do not throw.

    The file has three parts: the class as it is written (constructors,
    member functions, friend operators), the vocabulary in which its
    behaviour is stated, and the facts, ending with one theorem for each of
    the properties C1 to C10. *)

From Stdlib Require Import ZArith Lia String Ascii.
From Stdlib Require Import PrimFloat SpecFloat FloatOps.
From stdpp Require Import base gmap list strings pretty.

Open Scope Z_scope.

(** ** [size_t] *)

Class SizeT := {
  size_bits : Z;
  size_bits_pos : 0 < size_bits
}.

Definition size_modulus {W : SizeT} : Z := 2 ^ size_bits.

(** Reduction of a mathematical integer to the [size_t] range. *)
Definition wrap {W : SizeT} (z : Z) : Z := z mod size_modulus.

Definition size_mul {W : SizeT} (x y : Z) : Z := wrap (x * y).
Definition size_add {W : SizeT} (x y : Z) : Z := wrap (x + y).

(** [x] is a value of type [size_t]. *)
Definition in_size {W : SizeT} (x : Z) : Prop := 0 <= x < size_modulus.

#[export] Program Instance size64 : SizeT := {| size_bits := 64 |}.
Next Obligation. reflexivity. Qed.

(** ** The element type

    [@tparam T]: "Can be any type that has addition, subtraction, negation,
    and multiplication defined". The class also assigns the literal [0] to a
    [T] and streams a [T] with [operator<<]. *)

Class Scalar (T : Type) := {
  from_int : Z -> T;
  add : T -> T -> T;
  sub : T -> T -> T;
  neg : T -> T;
  mul : T -> T -> T;
  (* the characters [out << x] produces for width 0 *)
  show : T -> string
}.

#[export] Instance scalar_inhabited {T} {ST : Scalar T} : Inhabited T :=
  populate (from_int 0).

(** ** Exceptions *)

Inductive exn : Type :=
| zero_size
| initializer_wrong_size
| incompatible_sizes_add
| incompatible_sizes_multiply
| index_out_of_range.

#[export] Instance exn_eq_dec : EqDecision exn.
Proof. solve_decision. Defined.

(** ** Program state and outcomes *)

(** Addresses of heap arrays. *)
Abbreviation loc := nat.

(** Identities of matrix objects. *)
Abbreviation obj := nat.

Section WithT.
Context {W : SizeT} {T : Type} {ST : Scalar T}.

(** The program state. An array element is an [option T]: indeterminate
    ([None], as left by [new T[n]]) or holding a value. *)
Record state : Type := mkState {
  store : gmap loc (list (option T));   (* the live arrays *)
  next : loc;                     (* the address of the next [new T[n]] *)
  freed : list loc;               (* the [delete[]] calls, latest first *)
  output_width : Z                (* [static int output_width] *)
}.

Inductive outcome (A : Type) : Type :=
| Ret (a : A) (s : state)
| Throw (e : exn) (s : state)
| Undef.

#[global] Arguments Ret {A} a s.
#[global] Arguments Throw {A} e s.
#[global] Arguments Undef {A}.

Definition M (A : Type) : Type := state -> outcome A.

Definition ret {A} (a : A) : M A := fun s => Ret a s.

Definition bind {A B} (m : M A) (k : A -> M B) : M B :=
  fun s =>
    match m s with
    | Ret a s' => k a s'
    | Throw e s' => Throw e s'
    | Undef => Undef
    end.

Definition throw {A} (e : exn) : M A := fun s => Throw e s.
Definition undefined {A} : M A := fun _ => Undef.

End WithT.

Notation "'do' x <- m ; k" := (bind m (fun x => k))
  (at level 10, x name, m at level 100, k at level 200,
   format "'[v' 'do'  x  <-  m ; '/' k ']'").
Notation "'do' ' p <- m ; k" := (bind m (fun x => let 'p := x in k))
  (at level 10, p pattern, m at level 100, k at level 200).
Notation "m ;; k" := (bind m (fun _ => k))
  (at level 100, k at level 200, right associativity).

Section Matrix.
Context {W : SizeT} {T : Type} {ST : Scalar T}.

Abbreviation M := (@M T).
Abbreviation state := (@state T).

(** ** Heap primitives *)

(** [new T[n]]: a fresh array of [n] indeterminate elements. *)
Definition new_array (n : Z) : M loc :=
  fun s =>
    Ret (next s)
        {| store := <[next s := replicate (Z.to_nat n) None]> (store s);
           next := S (next s);
           freed := freed s;
           output_width := output_width s |}.

(** [delete[] p] for a non-null [p]. *)
Definition delete_array (l : loc) : M unit :=
  fun s =>
    match store s !! l with
    | Some _ =>
        Ret tt {| store := delete l (store s);
                  next := next s;
                  freed := l :: freed s;
                  output_width := output_width s |}
    | None => Undef
    end.

(** The rvalue [p[i]]. *)
Definition load (p : option loc) (i : Z) : M T :=
  fun s =>
    match p with
    | None => Undef
    | Some l =>
        match store s !! l with
        | None => Undef
        | Some buf =>
            match buf !! Z.to_nat i with
            | Some (Some x) => Ret x s
            | _ => Undef
            end
        end
    end.

(** The assignment [p[i] = x]. *)
Definition store_at (p : option loc) (i : Z) (x : T) : M unit :=
  fun s =>
    match p with
    | None => Undef
    | Some l =>
        match store s !! l with
        | None => Undef
        | Some buf =>
            if decide (Z.to_nat i < length buf)%nat then
              Ret tt {| store := <[l := <[Z.to_nat i := Some x]> buf]> (store s);
                        next := next s;
                        freed := freed s;
                        output_width := output_width s |}
            else Undef
        end
    end.

(** [v[i]] on a [std::vector<T>]. *)
Definition vec_get (v : list T) (i : Z) : M T :=
  match v !! Z.to_nat i with
  | Some x => ret x
  | None => undefined
  end.

(** [v.size()]; a [std::vector] never holds [2 ^ size_bits] elements or
    more. *)
Definition vec_size (v : list T) : Z := Z.of_nat (length v).

(** [for (size_t i{0}; i < n; i++) body(i)], threading a value through the
    iterations. The bound is a [size_t], so the counter reaches it without
    wrapping. *)
Fixpoint for_range {A} (k : nat) (i : Z) (body : Z -> A -> M A) (a : A) : M A :=
  match k with
  | O => ret a
  | S k' => do a' <- body i a; for_range k' (i + 1) body a'
  end.

Definition for_loop {A} (n : Z) (body : Z -> A -> M A) (a : A) : M A :=
  for_range (Z.to_nat n) 0 body a.

Definition for_each (n : Z) (body : Z -> M unit) : M unit :=
  for_loop n (fun i _ => body i) tt.

(** ** The class

    In the member functions below [rows_], [cols_], [elements_] and [smart_]
    are the members of [*this]. *)

(** The data members. [elements] is the raw [T*], [smart] the owning
    [std::unique_ptr<T[]>]; [None] is [nullptr]. *)
Record matrix : Type := mkMatrix {
  rows : Z;
  cols : Z;
  elements : option loc;
  smart : option loc
}.

(** [smart.reset(p)]: take [p], then [delete[]] the array held before. The
    result is the new value of [smart]. *)
Definition unique_reset (held p : option loc) : M (option loc) :=
  match held with
  | Some old => delete_array old ;; ret p
  | None => ret p
  end.

(** [~matrix()]: the implicit destructor runs [~unique_ptr] on [smart]. *)
Definition destroy (m : matrix) : M unit :=
  match smart m with
  | Some l => delete_array l
  | None => ret tt
  end.

(** *** Constructors *)

(** [matrix(const size_t &input_rows, const size_t &input_cols)] *)
Definition matrix_rc (input_rows input_cols : Z) : M matrix :=
  let rows_ := input_rows in
  let cols_ := input_cols in
  if (rows_ =? 0) || (cols_ =? 0) then throw zero_size
  else
    do p <- new_array (size_mul rows_ cols_);
    do smart_ <- unique_reset None (Some p);
    let elements_ := smart_ in
    ret (mkMatrix rows_ cols_ elements_ smart_).

(** [matrix(const size_t &, const size_t &, const T &input_init)] *)
Definition matrix_fill (input_rows input_cols : Z) (input_init : T) : M matrix :=
  let rows_ := input_rows in
  let cols_ := input_cols in
  if (rows_ =? 0) || (cols_ =? 0) then throw zero_size
  else
    do p <- new_array (size_mul rows_ cols_);
    do smart_ <- unique_reset None (Some p);
    let elements_ := smart_ in
    for_each (size_mul rows_ cols_) (fun i => store_at elements_ i input_init) ;;
    ret (mkMatrix rows_ cols_ elements_ smart_).

(** [matrix(const std::vector<T> &input_diagonal)] *)
Definition matrix_diag (input_diagonal : list T) : M matrix :=
  let rows_ := vec_size input_diagonal in
  let cols_ := vec_size input_diagonal in
  if rows_ =? 0 then throw zero_size
  else
    do p <- new_array (size_mul rows_ cols_);
    do smart_ <- unique_reset None (Some p);
    let elements_ := smart_ in
    for_each rows_ (fun i =>
      for_each cols_ (fun j =>
        do x <- (if i =? j then vec_get input_diagonal i else ret (from_int 0));
        store_at elements_ (size_add (size_mul cols_ i) j) x)) ;;
    ret (mkMatrix rows_ cols_ elements_ smart_).

(** [matrix(const std::initializer_list<T> &input_diagonal)] delegates to the
    [vector] form with the same sequence. *)
Definition matrix_diag_il (input_diagonal : list T) : M matrix :=
  matrix_diag input_diagonal.

(** [matrix(const size_t &, const size_t &, const std::vector<T> &)] *)
Definition matrix_flat (input_rows input_cols : Z) (input_elements : list T)
  : M matrix :=
  let rows_ := input_rows in
  let cols_ := input_cols in
  if (rows_ =? 0) || (cols_ =? 0) then throw zero_size
  else if negb (vec_size input_elements =? size_mul rows_ cols_)
  then throw initializer_wrong_size
  else
    do p <- new_array (size_mul rows_ cols_);
    do smart_ <- unique_reset None (Some p);
    let elements_ := smart_ in
    for_each (size_mul rows_ cols_) (fun i =>
      do x <- vec_get input_elements i;
      store_at elements_ i x) ;;
    ret (mkMatrix rows_ cols_ elements_ smart_).

(** [matrix(const size_t &, const size_t &, const std::initializer_list<T> &)] *)
Definition matrix_flat_il (input_rows input_cols : Z) (input_elements : list T)
  : M matrix :=
  matrix_flat input_rows input_cols input_elements.

(** [matrix(const matrix<T> &m)] *)
Definition matrix_copy (m : matrix) : M matrix :=
  let rows_ := rows m in
  let cols_ := cols m in
  do p <- new_array (size_mul rows_ cols_);
  do smart_ <- unique_reset None (Some p);
  let elements_ := smart_ in
  for_each (size_mul rows_ cols_) (fun i =>
    do x <- load (elements m) i;
    store_at elements_ i x) ;;
  ret (mkMatrix rows_ cols_ elements_ smart_).

(** The state every move leaves its source in: [m.rows = 0; m.cols = 0;
    m.elements = nullptr], with [m.smart] emptied by [move(m.smart)]. *)
Definition moved_from : matrix := mkMatrix 0 0 None None.

Definition set_rows (r : Z) (m : matrix) : matrix :=
  mkMatrix r (cols m) (elements m) (smart m).
Definition set_cols (c : Z) (m : matrix) : matrix :=
  mkMatrix (rows m) c (elements m) (smart m).
Definition set_elements (p : option loc) (m : matrix) : matrix :=
  mkMatrix (rows m) (cols m) p (smart m).
Definition set_smart (p : option loc) (m : matrix) : matrix :=
  mkMatrix (rows m) (cols m) (elements m) p.

(** [matrix(matrix<T> &&m)]. Returns the new object and the source as the
    constructor leaves it. [smart = move(m.smart)] is
    [smart.reset(m.smart.release())]; [smart] is null in an object under
    construction. *)
Definition matrix_move (m : matrix) : M (matrix * matrix) :=
  let rows_ := rows m in
  let cols_ := cols m in
  let p := smart m in
  let m := set_smart None m in
  do smart_ <- unique_reset None p;
  let elements_ := smart_ in
  let m := set_rows 0 m in
  let m := set_cols 0 m in
  let m := set_elements None m in
  ret (mkMatrix rows_ cols_ elements_ smart_, m).

(** *** Member functions *)

Definition get_rows (m : matrix) : Z := rows m.
Definition get_cols (m : matrix) : Z := cols m.

(** The index expression [(cols * row) + col], in [size_t] arithmetic. *)
Definition offset (m : matrix) (row col : Z) : Z :=
  size_add (size_mul (cols m) row) col.

(** [T &operator()(row, col)]: the slot, as the pointer and the index. *)
Definition call_ref (m : matrix) (row col : Z) : option loc * Z :=
  (elements m, offset m row col).

(** [T operator()(row, col) const] *)
Definition call (m : matrix) (row col : Z) : M T :=
  load (elements m) (offset m row col).

(** An assignment [m(row, col) = x] through the reference. *)
Definition assign (m : matrix) (row col : Z) (x : T) : M unit :=
  let '(p, i) := call_ref m row col in store_at p i x.

(** [T &at(row, col)] *)
Definition at_ref (m : matrix) (row col : Z) : M (option loc * Z) :=
  if (rows m <=? row) || (cols m <=? col) then throw index_out_of_range
  else ret (elements m, offset m row col).

(** [T at(row, col) const] *)
Definition at_ (m : matrix) (row col : Z) : M T :=
  if (rows m <=? row) || (cols m <=? col) then throw index_out_of_range
  else load (elements m) (offset m row col).

(** [static void set_output_width(const int &w)] *)
Definition set_output_width (w : Z) : M unit :=
  fun s => Ret tt {| store := store s; next := next s; freed := freed s;
                     output_width := w |}.

(** *** Move assignment

    [operator=(matrix<T> &&m)] writes to [*this] and to [m], which may be the
    same object, so both are named by their identity in a table of objects. *)


Definition field {A} (o : obj) (f : matrix -> A) (os : gmap obj matrix) : M A :=
  match os !! o with
  | Some m => ret (f m)
  | None => undefined
  end.

Definition update (o : obj) (f : matrix -> matrix) (os : gmap obj matrix)
  : M (gmap obj matrix) :=
  match os !! o with
  | Some m => ret (<[o := f m]> os)
  | None => undefined
  end.

Definition move_assign (this m : obj) (os : gmap obj matrix)
  : M (gmap obj matrix) :=
  (* rows = m.rows; *)
  do r <- field m rows os;
  do os <- update this (set_rows r) os;
  (* cols = m.cols; *)
  do c <- field m cols os;
  do os <- update this (set_cols c) os;
  (* smart = move(m.smart);  that is  smart.reset(m.smart.release()) *)
  do p <- field m smart os;
  do os <- update m (set_smart None) os;
  do held <- field this smart os;
  do p <- unique_reset held p;
  do os <- update this (set_smart p) os;
  (* elements = smart.get(); *)
  do q <- field this smart os;
  do os <- update this (set_elements q) os;
  (* m.rows = 0; m.cols = 0; m.elements = nullptr; *)
  do os <- update m (set_rows 0) os;
  do os <- update m (set_cols 0) os;
  do os <- update m (set_elements None) os;
  ret os.

(** *** Arithmetic operators

    Each operator builds its result in a local [c] and ends in [return c;].
    The local is handed to the caller as it is (the copy is elided);
    [return_by_move] below is the other permitted reading. *)

(** [operator+(const matrix<T> &a, const matrix<T> &b)] *)
Definition op_add (a b : matrix) : M matrix :=
  if negb (rows a =? rows b) || negb (cols a =? cols b)
  then throw incompatible_sizes_add
  else
    do c <- matrix_rc (rows a) (cols a);
    for_each (rows a) (fun i =>
      for_each (cols a) (fun j =>
        do x <- call a i j;
        do y <- call b i j;
        assign c i j (add x y))) ;;
    ret c.

(** [operator-(const matrix<T> &m)] *)
Definition op_neg (m : matrix) : M matrix :=
  do c <- matrix_rc (rows m) (cols m);
  for_each (rows m) (fun i =>
    for_each (cols m) (fun j =>
      do x <- call m i j;
      assign c i j (neg x))) ;;
  ret c.

(** [operator-(const matrix<T> &a, const matrix<T> &b)] *)
Definition op_sub (a b : matrix) : M matrix :=
  if negb (rows a =? rows b) || negb (cols a =? cols b)
  then throw incompatible_sizes_add
  else
    do c <- matrix_rc (rows a) (cols a);
    for_each (rows a) (fun i =>
      for_each (cols a) (fun j =>
        do x <- call a i j;
        do y <- call b i j;
        assign c i j (sub x y))) ;;
    ret c.

(** [operator*(const matrix<T> &a, const matrix<T> &b)];
    [c(i, j) += x] is [c(i, j) = c(i, j) + x]. *)
Definition op_mul (a b : matrix) : M matrix :=
  if negb (cols a =? rows b) then throw incompatible_sizes_multiply
  else
    do c <- matrix_rc (rows a) (cols b);
    for_each (rows a) (fun i =>
      for_each (cols b) (fun j =>
        assign c i j (from_int 0) ;;
        for_each (cols a) (fun k =>
          do x <- call a i k;
          do y <- call b k j;
          do acc <- call c i j;
          assign c i j (add acc (mul x y))))) ;;
    ret c.

(** [operator*(const T &s, const matrix<T> &m)] *)
Definition op_scale (s : T) (m : matrix) : M matrix :=
  do c <- matrix_rc (rows m) (cols m);
  for_each (rows m) (fun i =>
    for_each (cols m) (fun j =>
      do x <- call m i j;
      assign c i j (mul s x))) ;;
  ret c.

(** [operator*(const matrix<T> &m, const T &s)] *)
Definition op_scale_r (m : matrix) (s : T) : M matrix := op_scale s m.

(** [return c;] without copy elision: the result is move-constructed from
    the local, which is then destroyed. *)
Definition return_by_move (c : matrix) : M matrix :=
  do '(r, c') <- matrix_move c;
  destroy c' ;;
  ret r.

(** *** Formatting *)

(** The part of a [std::ostream] that [operator<<] touches: the characters
    written so far and the field width. The fill character and the
    adjustment stay at their defaults (a space, to the right). *)
Record ostream : Type := mkStream {
  written : string;
  width : Z
}.

Definition newline : string := String (ascii_of_nat 10) EmptyString.

Fixpoint spaces (n : nat) : string :=
  match n with
  | O => EmptyString
  | S n' => String " "%char (spaces n')
  end.

(** Padding on the left up to [w] characters; none when the text is at
    least that long or [w] is not positive. *)
Definition right_justify (w : Z) (t : string) : string :=
  (spaces (Z.to_nat (w - Z.of_nat (String.length t))) ++ t)%string.

(** A formatted insertion [out << t]: pad to the field width, then reset
    the width to 0. *)
Definition put (t : string) (out : ostream) : ostream :=
  mkStream (written out ++ right_justify (width out) t)%string 0.

(** [out << std::setw(n)] *)
Definition setw (n : Z) (out : ostream) : ostream :=
  mkStream (written out) n.

(** A read of the static member [output_width]. *)
Definition get_output_width : M Z := fun s => Ret (output_width s) s.

(** [operator<<(std::ostream &out, const matrix<T> &m)] *)
Definition print (out : ostream) (m : matrix) : M ostream :=
  if (rows m =? 0) && (cols m =? 0) then ret (put ("()" ++ newline) out)
  else
    do out <- for_loop (rows m) (fun i out =>
      let out := put "( " out in
      do out <- for_loop (cols m) (fun j out =>
        do w <- get_output_width;
        let out := setw w out in
        do x <- call m i j;
        let out := put (show x) out in
        ret (put " " out)) out;
      ret (put (")" ++ newline) out)) out;
    ret (put newline out).

(** *** Copy assignment and the compound operators *)

(** [operator=(const matrix<T> &m)]. As in [move_assign], [*this] and [m]
    are named by their identity, since they may be the same object; the
    loop reads [elements] and [m.elements] anew in every iteration. *)
Definition copy_assign (this m : obj) (os : gmap obj matrix)
  : M (gmap obj matrix) :=
  (* rows = m.rows; *)
  do r <- field m rows os;
  do os <- update this (set_rows r) os;
  (* cols = m.cols; *)
  do c <- field m cols os;
  do os <- update this (set_cols c) os;
  (* smart.reset(new T[rows * cols]); *)
  do rows_ <- field this rows os;
  do cols_ <- field this cols os;
  do p <- new_array (size_mul rows_ cols_);
  do held <- field this smart os;
  do p <- unique_reset held (Some p);
  do os <- update this (set_smart p) os;
  (* elements = smart.get(); *)
  do q <- field this smart os;
  do os <- update this (set_elements q) os;
  (* for (size_t i{0}; i < rows * cols; i++) elements[i] = m.elements[i]; *)
  do rows_ <- field this rows os;
  do cols_ <- field this cols os;
  for_each (size_mul rows_ cols_) (fun i =>
    do src <- field m elements os;
    do x <- load src i;
    do dst <- field this elements os;
    store_at dst i x) ;;
  (* return *this; *)
  ret os.

(** The statement [a = t;] for the value [t] of an operator call, followed
    by [return a;] from a function returning [matrix<T>] by value. The
    temporary holding [t] is an object of its own, at the unused identity
    [tmp]: it is the source of a move assignment and is destroyed at the end
    of the statement. [a] is a reference parameter, so the returned matrix
    is copy-constructed from it. The result is the table of objects and the
    returned matrix. *)
Definition assign_and_return (tmp a : obj) (t : matrix) (os : gmap obj matrix)
  : M (gmap obj matrix * matrix) :=
  let os := <[tmp := t]> os in
  do os <- move_assign a tmp os;
  do t' <- field tmp (fun m => m) os;
  destroy t' ;;
  let os := delete tmp os in
  do a' <- field a (fun m => m) os;
  do r <- matrix_copy a';
  ret (os, r).

(** [operator+=(matrix<T> &a, const matrix<T> &b)]: [a = a + b; return a;] *)
Definition op_add_assign (tmp a b : obj) (os : gmap obj matrix)
  : M (gmap obj matrix * matrix) :=
  do a_ <- field a (fun m => m) os;
  do b_ <- field b (fun m => m) os;
  do t <- op_add a_ b_;
  assign_and_return tmp a t os.

(** [operator-=(matrix<T> &a, const matrix<T> &b)]: [a = a - b; return a;] *)
Definition op_sub_assign (tmp a b : obj) (os : gmap obj matrix)
  : M (gmap obj matrix * matrix) :=
  do a_ <- field a (fun m => m) os;
  do b_ <- field b (fun m => m) os;
  do t <- op_sub a_ b_;
  assign_and_return tmp a t os.

End Matrix.

(** ** The specification vocabulary *)

Section Spec.
Context {W : SizeT} {T : Type} {ST : Scalar T}.

Abbreviation M := (@M T).
Abbreviation state := (@state T).

(** The state after [new T[n]] followed by writes that leave [buf] in the
    new array. *)
Definition alloc_with (s : state) (buf : list (option T)) : state :=
  mkState (<[next s := buf]> (store s)) (S (next s)) (freed s) (output_width s).

(** The state after [delete[]] of the array at [l]. *)
Definition dealloc (s : state) (l : loc) : state :=
  mkState (delete l (store s)) (next s) (l :: freed s) (output_width s).

(** The state with the array at [l] replaced by [buf]. *)
Definition set_buf (s : state) (l : loc) (buf : list (option T)) : state :=
  mkState (<[l := buf]> (store s)) (next s) (freed s) (output_width s).

(** [m] owns the array [buf] in [s] through [smart], and [elements] points
    to it. *)
Definition owns (s : state) (m : matrix) (l : loc) (buf : list (option T)) : Prop :=
  smart m = Some l /\ elements m = Some l /\
  store s !! l = Some buf /\ (l < next s)%nat.

(** A size pair whose product is a [size_t]. *)
Definition shape_ok (r c : Z) : Prop :=
  0 < r /\ 0 < c /\ r * c < size_modulus.

(** The invariant of a live matrix: [rows > 0], [cols > 0] and a buffer of
    exactly [rows * cols] elements. *)
Definition live (s : state) (m : matrix) (buf : list (option T)) : Prop :=
  shape_ok (rows m) (cols m) /\
  Z.of_nat (length buf) = rows m * cols m /\
  exists l, owns s m l buf.

(** A live matrix all of whose elements have been written: [xs] lists them
    in row-major order. *)
Definition holds (s : state) (m : matrix) (xs : list T) : Prop :=
  live s m (Some <$> xs).

(** The element at row [i] and column [j] of a matrix with [c] columns
    stored as [xs]: flattened offset [i * c + j]. *)
Definition entry (c : Z) (xs : list T) (i j : Z) : T :=
  xs !!! Z.to_nat (i * c + j).

(** The list [f 0; f 1; ...; f (n - 1)]. *)
Definition tabulate (n : Z) (f : Z -> T) : list T := f <$> seqZ 0 n.

(** The entry of the diagonal matrix of [v] at flattened offset [z]. *)
Definition diag_entry (v : list T) (z : Z) : T :=
  let n := Z.of_nat (length v) in
  if z / n =? z mod n then v !!! Z.to_nat (z / n) else from_int 0.

(** The sum over [k < n] of [x k * y k], accumulated from the left starting
    from the integer 0 converted to [T]. *)
Fixpoint sum_over (n : nat) (x y : Z -> T) : T :=
  match n with
  | O => from_int 0
  | S n' => add (sum_over n' x y) (mul (x (Z.of_nat n')) (y (Z.of_nat n')))
  end.

(** [filled s0 l n f k s]: [s] is [s0] except for the array at [l], which
    has [n] elements, the first [k] of them written with [f 0 .. f (k-1)]. *)
Definition filled (s0 : state) (l : loc) (n : Z) (f : Z -> T) (k : Z) (s : state)
  : Prop :=
  exists buf, s = set_buf s0 l buf /\ Z.of_nat (length buf) = n /\
    forall z, 0 <= z < k -> buf !! Z.to_nat z = Some (Some (f z)).

(** [accumulating s0 l n f k acc s]: as [filled s0 l n f k s], and slot [k]
    holds the running sum [acc]. *)
Definition accumulating (s0 : state) (l : loc) (n : Z) (f : Z -> T) (k : Z)
  (acc : T) (s : state) : Prop :=
  exists buf, s = set_buf s0 l buf /\ Z.of_nat (length buf) = n /\
    (forall z, 0 <= z < k -> buf !! Z.to_nat z = Some (Some (f z))) /\
    buf !! Z.to_nat k = Some (Some acc).

(** The entry of the product at flattened offset [z]. *)
Definition product_entry (a b : matrix) (xs ys : list T) (z : Z) : T :=
  sum_over (Z.to_nat (cols a))
    (fun k => entry (cols a) xs (z / cols b) k)
    (fun k => entry (cols b) ys k (z mod cols b)).

(** What a constructor has to establish in the state [s] it returns in:
    [rows > 0], [cols > 0] and an owned buffer whose length is
    [n rows cols]. The spec's reading is [n := Z.mul], the exact product;
    the constructors compute [n := size_mul]. *)
Definition established (n : Z -> Z -> Z) (s : state) (m : matrix) : Prop :=
  0 < rows m /\ 0 < cols m /\
  exists l buf, owns s m l buf /\ Z.of_nat (length buf) = n (rows m) (cols m).

(** A constructor run from [s] is atomic: it returns an established matrix,
    or it throws [zero_size] or [initializer_wrong_size] and leaves the
    state, hence the heap, as it found it. *)
Definition atomic_ctor (n : Z -> Z -> Z) (s : state) (o : @outcome T matrix) : Prop :=
  match o with
  | Ret m s' => established n s' m
  | Throw e s' => (e = zero_size \/ e = initializer_wrong_size) /\ s' = s
  | Undef => False
  end.

(** The texts [ts] one after the other. *)
Definition join (ts : list string) : string := foldr String.append EmptyString ts.

(** An element in the text of a matrix: right-justified to the output
    width [w], then a space. *)
Definition element_text (w : Z) (x : T) : string :=
  (right_justify w (show x) ++ " ")%string.

(** A row in the text of a matrix: its elements in parentheses, then a
    newline. *)
Definition row_text (w : Z) (row : list T) : string :=
  ("( " ++ join (element_text w <$> row) ++ ")" ++ newline)%string.

(** Row [i] of a matrix with [c] columns stored row-major as [xs]. *)
Definition row_of (c : Z) (xs : list T) (i : Z) : list T :=
  take (Z.to_nat c) (drop (Z.to_nat (i * c)) xs).

(** The text of an [r] by [c] matrix, in the words of the spec: the rows in
    order, each ended by its newline, and one more newline, a blank line,
    after the last. *)
Definition matrix_text (w : Z) (r c : Z) (xs : list T) : string :=
  (join ((fun i => row_text w (row_of c xs i)) <$> seqZ 0 r) ++ newline)%string.

(** The marker for a matrix without rows and columns. *)
Definition empty_text : string := ("()" ++ newline)%string.

(** A computation that never leaves by an exception. *)
Definition no_throw {A} (m : M A) : Prop :=
  forall s e s', m s <> Throw e s'.

End Spec.

(** ** Laws of the element type *)

(** The laws of a semiring with commutative addition, for the operations of
    the element type; the literal [0] converted to [T] is its zero. *)
Record semiring_laws {T : Type} {ST : Scalar T} : Prop := {
  add_assoc_law : forall x y z : T, add x (add y z) = add (add x y) z;
  add_comm_law : forall x y : T, add x y = add y x;
  add_zero_law : forall x : T, add (from_int 0) x = x;
  mul_assoc_law : forall x y z : T, mul x (mul y z) = mul (mul x y) z;
  mul_add_l_law : forall x y z : T, mul x (add y z) = add (mul x y) (mul x z);
  mul_add_r_law : forall x y z : T, mul (add x y) z = add (mul x z) (mul y z);
  mul_zero_l_law : forall x : T, mul (from_int 0) x = from_int 0;
  mul_zero_r_law : forall x : T, mul x (from_int 0) = from_int 0
}.
#[global] Arguments semiring_laws T {ST}.

(** The sum of [h 0 .. h (n - 1)], accumulated from the left starting from
    the integer 0 converted to [T]. *)
Fixpoint total {T : Type} {ST : Scalar T} (n : nat) (h : Z -> T) : T :=
  match n with
  | O => from_int 0
  | S n' => add (total n' h) (h (Z.of_nat n'))
  end.

(** ** The program at start-up and a concrete element type *)

(** [template <typename T> int matrix<T>::output_width{5};]: the
    definition of the static member, with its initializer. Every
    instantiation [matrix<T>] has one such variable, shared by all its
    objects. *)
Definition output_width_default : Z := 5.

(** No array allocated, none deleted, the output width at its default. *)
Definition initial_state {T : Type} : @state T :=
  mkState ∅ 0%nat [] output_width_default.

(** Exact integers as the element type; [show] is the decimal numeral. *)
#[export] Instance Z_scalar : Scalar Z := {|
  from_int := fun z => z;
  add := Z.add;
  sub := Z.sub;
  neg := Z.opp;
  mul := Z.mul;
  show := pretty
|}.

(** ** The element type [double]

    [main] instantiates the class at [double] only. A [double] is an IEEE 754
    binary64 number and its operations round to nearest, ties to even: the
    kernel's primitive floats. All NaNs are one value there, so the sign
    that [out << x] writes before ["nan"] for some of them is left out. *)

(** [T(n)] for an [int] [n]: the nearest [double], exact below [2 ^ 53]. *)
Definition double_of_int (n : Z) : float :=
  SF2Prim (binary_normalize prec emax n 0 false).

(** *** [out << x] for a [double]

    With the stream's flags at their defaults a [double] is written as
    [printf]'s [%g] conversion writes it, with precision 6: the value is
    rounded to 6 significant decimal digits; it is written in fixed notation
    when its decimal exponent [x] satisfies [-4 <= x < 6] and in scientific
    notation otherwise, trailing zeros of the fraction removed. *)

Definition precision : Z := 6.

Fixpoint zeros (n : nat) : string :=
  match n with
  | O => EmptyString
  | S n' => String "0"%char (zeros n')
  end.

(** The decimal numeral of [n >= 0] on at least [k] digits. *)
Definition digits (k : nat) (n : Z) : string :=
  let t := pretty n in (zeros (k - String.length t) ++ t)%string.

Fixpoint strip_zeros (t : string) : string :=
  match t with
  | EmptyString => EmptyString
  | String c t' =>
      match strip_zeros t' with
      | EmptyString => if Ascii.eqb c "0" then EmptyString else String c EmptyString
      | r => String c r
      end
  end.

(** An integer part and the digits after the point: the point is written
    only when a non-zero digit follows. *)
Definition with_fraction (whole : Z) (fraction : string) : string :=
  match strip_zeros fraction with
  | EmptyString => pretty whole
  | f => (pretty whole ++ "." ++ f)%string
  end.

(** The decimal exponent of the positive number [num / den]: the [x] with
    [10 ^ x <= num / den < 10 ^ (x + 1)]. The search goes up from 0 when
    [1 <= num / den], keeping [p = 10 ^ x], and down from 0 otherwise,
    keeping [p = 10 ^ (- x)]. A finite [double] lies between [10 ^ -324]
    and [10 ^ 309]. *)
Fixpoint exponent_up (fuel : nat) (num den p x : Z) : Z :=
  match fuel with
  | O => x
  | S fuel' =>
      if den * (10 * p) <=? num then exponent_up fuel' num den (10 * p) (x + 1)
      else x
  end.

Fixpoint exponent_down (fuel : nat) (num den p x : Z) : Z :=
  match fuel with
  | O => x
  | S fuel' =>
      if den <=? num * p then x
      else exponent_down fuel' num den (10 * p) (x - 1)
  end.

Definition decimal_exponent (num den : Z) : Z :=
  if den <=? num then exponent_up 400 num den 1 0
  else exponent_down 400 num den 1 0.

(** [num / den] rounded to the nearest integer, ties to even. *)
Definition round_nearest_even (num den : Z) : Z :=
  let q := num / den in
  let r := num mod den in
  if (den <? 2 * r) || ((den =? 2 * r) && Z.odd q) then q + 1 else q.

(** [%g] for the positive number [num / den]. *)
Definition general_text (num den : Z) : string :=
  let x := decimal_exponent num den in
  let scale := precision - 1 - x in
  let q := if 0 <=? scale then round_nearest_even (num * 10 ^ scale) den
           else round_nearest_even num (den * 10 ^ (- scale)) in
  (* rounding up to the next power of ten *)
  let '(q, x) := if q =? 10 ^ precision then (10 ^ (precision - 1), x + 1) else (q, x) in
  if (-4 <=? x) && (x <? precision) then
    let k := precision - 1 - x in
    with_fraction (q / 10 ^ k) (digits (Z.to_nat k) (q mod 10 ^ k))
  else
    let k := precision - 1 in
    let sign := if x <? 0 then "-" else "+" in
    (with_fraction (q / 10 ^ k) (digits (Z.to_nat k) (q mod 10 ^ k))
     ++ "e" ++ sign ++ digits 2 (Z.abs x))%string.

Definition show_double (x : float) : string :=
  match Prim2SF x with
  | S754_zero s => if s then "-0" else "0"
  | S754_infinity s => if s then "-inf" else "inf"
  | S754_nan => "nan"
  | S754_finite s m e =>
      let sign := if s then "-" else "" in
      let text := if 0 <=? e then general_text (Z.pos m * 2 ^ e) 1
                  else general_text (Z.pos m) (2 ^ (- e)) in
      (sign ++ text)%string
  end.

#[export] Instance double_scalar : Scalar float := {|
  from_int := double_of_int;
  add := PrimFloat.add;
  sub := PrimFloat.sub;
  neg := PrimFloat.opp;
  mul := PrimFloat.mul;
  show := show_double
|}.

(** The two operands of the concrete scenario, built by the flattened
    constructor from [{1,2,3,4}] and [{5,6,7,8}], then combined by [op]. *)
Definition scenario {W : SizeT} (op : matrix -> matrix -> @M Z matrix)
  : @M Z matrix :=
  do a <- matrix_flat_il 2 2 [1; 2; 3; 4];
  do b <- matrix_flat_il 2 2 [5; 6; 7; 8];
  op a b.

(** A 2 by 2 matrix object whose buffer is at address [l]. *)
Definition two_by_two (l : loc) : matrix := mkMatrix 2 2 (Some l) (Some l).

(** The state with the two operands in the heap: [{1,2,3,4}] at address 0
    and [{5,6,7,8}] at address 1. *)
Definition scenario_state : @state Z :=
  alloc_with (alloc_with initial_state (Some <$> [1; 2; 3; 4]))
             (Some <$> [5; 6; 7; 8]).

(** The expression [(a + b) + (-b)]. The two operands of the outer [+] are
    evaluated in either order ([left_first] or not); the temporaries are
    destroyed at the end of the full expression, latest first. *)
Definition add_then_negate {W : SizeT} {T : Type} {ST : Scalar T}
  (left_first : bool) (a b : matrix) : @M T matrix :=
  if left_first then
    do t1 <- op_add a b;
    do t2 <- op_neg b;
    do r <- op_add t1 t2;
    destroy t2 ;; destroy t1 ;; ret r
  else
    do t2 <- op_neg b;
    do t1 <- op_add a b;
    do r <- op_add t1 t2;
    destroy t1 ;; destroy t2 ;; ret r.

(** Printing [Matrix(2,3,{1,2,3,4,50,6})] to a fresh stream, after setting
    the output width to [w] when one is given. *)
Definition print_2x3 {W : SizeT} (w : option Z) : @M Z ostream :=
  do a <- matrix_flat_il 2 3 [1; 2; 3; 4; 50; 6];
  match w with
  | Some n => set_output_width n
  | None => ret tt
  end ;;
  print (mkStream "" 0) a.

(** Adding a 2 by 2 and a 3 by 3 matrix. *)
Definition add_2x2_3x3 {W : SizeT} : @M Z matrix :=
  do a <- matrix_fill 2 2 0;
  do b <- matrix_fill 3 3 0;
  op_add a b.

(** Multiplying a 2 by 3 by a 2 by 2 matrix. *)
Definition mul_2x3_2x2 {W : SizeT} : @M Z matrix :=
  do a <- matrix_fill 2 3 0;
  do b <- matrix_fill 2 2 0;
  op_mul a b.

(** The expressions [(a * b) * c] and [a * (b * c)], the temporary destroyed
    at the end. *)
Definition mul_left_first {W : SizeT} {T : Type} {ST : Scalar T}
  (a b c : matrix) : @M T matrix :=
  do ab <- op_mul a b;
  do r <- op_mul ab c;
  destroy ab ;; ret r.

Definition mul_right_first {W : SizeT} {T : Type} {ST : Scalar T}
  (a b c : matrix) : @M T matrix :=
  do bc <- op_mul b c;
  do r <- op_mul a bc;
  destroy bc ;; ret r.

(** [0.1] and [0.2] as a C++ compiler reads them: the nearest [double]s. *)
Definition tenth : float := 0x1.999999999999ap-4.
Definition fifth : float := 0x1.999999999999ap-3.

(** [matrix<double> a(1, 1, {0.1}), b(1, 1, {0.2});], then
    [r = (a + b) + (-b)], and the pair [(r.at(0, 0), a.at(0, 0))]. *)
Definition inverse_on_doubles {W : SizeT} (left_first : bool)
  : @M float (float * float) :=
  do a <- matrix_flat_il 1 1 [tenth];
  do b <- matrix_flat_il 1 1 [fifth];
  do r <- add_then_negate left_first a b;
  do x <- at_ r 0 0;
  do y <- at_ a 0 0;
  ret (x, y).

(** [2 ^ 32] ones. *)
Definition ones : list Z := replicate (Z.to_nat (2 ^ 32)) 1.

(** [matrix<T> a(4294967296, 1, 1), b(1, 4294967296, 1);]: a column and a
    row of [2 ^ 32] ones. *)
Definition column_and_row {W : SizeT} : @M Z (matrix * matrix) :=
  do a <- matrix_fill (2 ^ 32) 1 1;
  do b <- matrix_fill 1 (2 ^ 32) 1;
  ret (a, b).

(** The two operands as the objects 0 and 1 of a program. *)
Definition scenario_objects : gmap obj matrix :=
  <[1%nat := two_by_two 1]> (<[0%nat := two_by_two 0]> ∅).

(** ** Basic facts *)

Section Facts.
Context {W : SizeT} {T : Type} {ST : Scalar T}.

Abbreviation M := (@M T).
Abbreviation state := (@state T).

Lemma size_modulus_pos : 0 < size_modulus.
Proof. unfold size_modulus. pose proof size_bits_pos. apply Z.pow_pos_nonneg; lia. Qed.

Lemma wrap_small z : 0 <= z < size_modulus -> wrap z = z.
Proof. intros Hz. unfold wrap. apply Z.mod_small. exact Hz. Qed.

Lemma wrap_range z : 0 <= wrap z < size_modulus.
Proof. unfold wrap. apply Z.mod_pos_bound, size_modulus_pos. Qed.

Lemma size_mul_small x y :
  0 <= x * y < size_modulus -> size_mul x y = x * y.
Proof. apply wrap_small. Qed.

Lemma offset_small (m : matrix) i j :
  0 <= i -> 0 <= j -> 0 <= cols m -> i * cols m + j < size_modulus ->
  offset m i j = i * cols m + j.
Proof.
  intros Hi Hj Hc Hsum. unfold offset, size_add, size_mul.
  assert (0 <= cols m * i) by (apply Z.mul_nonneg_nonneg; lia).
  rewrite (wrap_small (cols m * i)) by lia.
  rewrite wrap_small by lia. lia.
Qed.

(** An in-range position of a shape is an in-range, unwrapped offset. *)
Lemma index_in_shape r c i j :
  shape_ok r c -> 0 <= i < r -> 0 <= j < c ->
  0 <= i * c + j < r * c /\ r * c < size_modulus.
Proof.
  intros (Hr & Hc & Hrc) Hi Hj. split; [|lia].
  assert (0 <= i * c) by (apply Z.mul_nonneg_nonneg; lia).
  assert (i * c <= (r - 1) * c) by (apply Z.mul_le_mono_nonneg_r; lia).
  lia.
Qed.

Lemma bind_ret {A B} (m : M A) (k : A -> M B) s a s' :
  m s = Ret a s' -> bind m k s = k a s'.
Proof. intros Hm. unfold bind. rewrite Hm. reflexivity. Qed.

Lemma bind_throw {A B} (m : M A) (k : A -> M B) s e s' :
  m s = Throw e s' -> bind m k s = Throw e s'.
Proof. intros Hm. unfold bind. rewrite Hm. reflexivity. Qed.

Lemma bind_undef {A B} (m : M A) (k : A -> M B) s :
  m s = Undef -> bind m k s = Undef.
Proof. intros Hm. unfold bind. rewrite Hm. reflexivity. Qed.

(** *** Loops *)

Lemma for_range_inv {A} (P : Z -> A -> state -> Prop) body k i (a : A) s :
  P i a s ->
  (forall j a s, i <= j < i + Z.of_nat k -> P j a s ->
     exists a' s', body j a s = Ret a' s' /\ P (j + 1) a' s') ->
  exists a' s', for_range k i body a s = Ret a' s' /\ P (i + Z.of_nat k) a' s'.
Proof.
  revert i a s. induction k as [|k IH]; intros i a s Hinit Hstep.
  - exists a, s. split; [reflexivity|]. replace (i + Z.of_nat 0) with i by lia.
    exact Hinit.
  - destruct (Hstep i a s) as (a1 & s1 & Hbody & HP1); [lia | exact Hinit |].
    destruct (IH (i + 1) a1 s1 HP1) as (a2 & s2 & Hrest & HP2).
    { intros j a' s' Hj. apply Hstep. lia. }
    exists a2, s2. split.
    + cbn [for_range]. rewrite (bind_ret _ _ _ _ _ Hbody). exact Hrest.
    + replace (i + Z.of_nat (S k)) with (i + 1 + Z.of_nat k) by lia. exact HP2.
Qed.

Lemma for_loop_inv {A} (P : Z -> A -> state -> Prop) body n (a : A) s :
  0 <= n ->
  P 0 a s ->
  (forall j a s, 0 <= j < n -> P j a s ->
     exists a' s', body j a s = Ret a' s' /\ P (j + 1) a' s') ->
  exists a' s', for_loop n body a s = Ret a' s' /\ P n a' s'.
Proof.
  intros Hn Hinit Hstep. unfold for_loop.
  destruct (for_range_inv P body (Z.to_nat n) 0 a s Hinit) as (a' & s' & Hrun & HP).
  { intros j a0 s0 Hj. apply Hstep. lia. }
  exists a', s'. split; [exact Hrun|].
  replace (0 + Z.of_nat (Z.to_nat n)) with n in HP by lia. exact HP.
Qed.

Lemma for_each_inv (P : Z -> state -> Prop) (body : Z -> M unit) n s :
  0 <= n ->
  P 0 s ->
  (forall j s, 0 <= j < n -> P j s -> exists s', body j s = Ret tt s' /\ P (j + 1) s') ->
  exists s', for_each n body s = Ret tt s' /\ P n s'.
Proof.
  intros Hn Hinit Hstep. unfold for_each.
  destruct (for_loop_inv (fun j _ s => P j s) (fun i _ => body i) n tt s Hn Hinit)
    as ([] & s' & Hrun & HP).
  { intros j [] s0 Hj HP. destruct (Hstep j s0 Hj HP) as (s1 & Hb & HP1).
    exists tt, s1. split; assumption. }
  exists s'. split; assumption.
Qed.

(** A loop whose first iteration is undefined. *)
Lemma for_loop_undef_first {A} (body : Z -> A -> M A) n a s :
  0 < n -> body 0 a s = Undef -> for_loop n body a s = Undef.
Proof.
  intros Hn Hbody. unfold for_loop.
  replace (Z.to_nat n) with (S (Z.to_nat (n - 1))) by lia.
  cbn [for_range]. apply bind_undef. exact Hbody.
Qed.

Lemma for_each_undef_first (body : Z -> M unit) n s :
  0 < n -> body 0 s = Undef -> for_each n body s = Undef.
Proof.
  intros Hn Hbody. unfold for_each, for_loop.
  replace (Z.to_nat n) with (S (Z.to_nat (n - 1))) by lia.
  cbn [for_range]. apply bind_undef. exact Hbody.
Qed.

(** *** Heap accesses *)

Lemma load_some (s : state) l (buf : list (option T)) i x :
  store s !! l = Some buf -> buf !! Z.to_nat i = Some (Some x) ->
  load (Some l) i s = Ret x s.
Proof. intros Hl Hx. unfold load. rewrite Hl, Hx. reflexivity. Qed.

Lemma store_at_some (s : state) l (buf : list (option T)) i (x : T) :
  store s !! l = Some buf -> (Z.to_nat i < length buf)%nat ->
  store_at (Some l) i x s = Ret tt (set_buf s l (<[Z.to_nat i := Some x]> buf)).
Proof.
  intros Hl Hi. unfold store_at. rewrite Hl.
  destruct (decide _) as [_|Hn]; [reflexivity | contradiction].
Qed.

Lemma set_buf_twice (s : state) l b1 b2 :
  set_buf (set_buf s l b1) l b2 = set_buf s l b2.
Proof. unfold set_buf. cbn. f_equal. apply insert_insert_eq. Qed.

Lemma store_set_buf_eq (s : state) l b : store (set_buf s l b) !! l = Some b.
Proof. cbn. apply lookup_insert_eq. Qed.

Lemma store_set_buf_ne (s : state) l l' b :
  l <> l' -> store (set_buf s l b) !! l' = store s !! l'.
Proof. intros Hne. cbn. apply lookup_insert_ne. exact Hne. Qed.

Lemma set_buf_alloc (s : state) b1 b2 :
  set_buf (alloc_with s b1) (next s) b2 = alloc_with s b2.
Proof. unfold set_buf, alloc_with. cbn. f_equal. apply insert_insert_eq. Qed.

Lemma new_array_run n (s : state) :
  new_array n s = Ret (next s) (alloc_with s (replicate (Z.to_nat n) None)).
Proof. reflexivity. Qed.

Lemma delete_array_run (s : state) l buf :
  store s !! l = Some buf -> delete_array l s = Ret tt (dealloc s l).
Proof. intros Hl. unfold delete_array. rewrite Hl. reflexivity. Qed.

(** *** Filling a buffer in index order *)

Lemma filled_start (s0 : state) l n f buf :
  store s0 !! l = Some buf -> Z.of_nat (length buf) = n ->
  filled s0 l n f 0 s0.
Proof.
  intros Hl Hlen. exists buf. split; [|split; [exact Hlen | intros z Hz; lia]].
  destruct s0 as [st nx fr ow]. unfold set_buf. cbn in *. f_equal.
  symmetry. apply insert_id. exact Hl.
Qed.

Lemma filled_other (s0 : state) l n f k s l' :
  filled s0 l n f k s -> l' <> l -> store s !! l' = store s0 !! l'.
Proof.
  intros (buf & -> & _) Hne. apply store_set_buf_ne. congruence.
Qed.

Lemma filled_write (s0 : state) l n f k s v :
  filled s0 l n f k s -> 0 <= k < n -> v = f k ->
  exists s', store_at (Some l) k v s = Ret tt s' /\ filled s0 l n f (k + 1) s'.
Proof.
  intros (buf & -> & Hlen & Hpre) Hk ->.
  exists (set_buf s0 l (<[Z.to_nat k := Some (f k)]> buf)). split.
  - rewrite (store_at_some _ l buf) by (try apply store_set_buf_eq; lia).
    rewrite set_buf_twice. reflexivity.
  - exists (<[Z.to_nat k := Some (f k)]> buf). split; [reflexivity|]. split.
    + rewrite length_insert. exact Hlen.
    + intros z Hz. destruct (decide (z = k)) as [->|Hne].
      * apply list_lookup_insert_eq. lia.
      * rewrite list_lookup_insert_ne by lia. apply Hpre. lia.
Qed.

Lemma filled_full (s0 : state) l n f s (zs : list T) :
  filled s0 l n f n s -> Z.of_nat (length zs) = n ->
  (forall z, 0 <= z < n -> zs !! Z.to_nat z = Some (f z)) ->
  s = set_buf s0 l (Some <$> zs).
Proof.
  intros (buf & -> & Hlen & Hall) Hzs Hf. f_equal.
  apply list_eq. intros i. rewrite list_lookup_fmap.
  destruct (decide (Z.of_nat i < n)) as [Hi|Hi].
  - specialize (Hall (Z.of_nat i)). specialize (Hf (Z.of_nat i)).
    rewrite Nat2Z.id in Hall, Hf. rewrite Hall, Hf by lia. reflexivity.
  - rewrite !lookup_ge_None_2 by lia. reflexivity.
Qed.

(** Two nested loops that write the cells of an [r] by [c] buffer in
    row-major order. *)
Lemma fill_row_major (s0 : state) l r c (f : Z -> T) (body : Z -> Z -> M unit) s :
  0 <= r -> 0 <= c ->
  (forall i j s, 0 <= i < r -> 0 <= j < c ->
     filled s0 l (r * c) f (i * c + j) s ->
     exists s', body i j s = Ret tt s' /\ filled s0 l (r * c) f (i * c + j + 1) s') ->
  filled s0 l (r * c) f 0 s ->
  exists s', for_each r (fun i => for_each c (fun j => body i j)) s = Ret tt s' /\
             filled s0 l (r * c) f (r * c) s'.
Proof.
  intros Hr Hc Hstep Hinit.
  apply (for_each_inv (fun i s => filled s0 l (r * c) f (i * c) s)); [exact Hr | exact Hinit |].
  intros i s1 Hi Hrow.
  destruct (for_each_inv (fun j s => filled s0 l (r * c) f (i * c + j) s)
              (fun j => body i j) c s1 Hc) as (s2 & Hrun & Hend).
  - replace (i * c + 0) with (i * c) by lia. exact Hrow.
  - intros j s' Hj Hslot. destruct (Hstep i j s' Hi Hj Hslot) as (s'' & Hb & Hnext).
    exists s''. split; [exact Hb|]. replace (i * c + (j + 1)) with (i * c + j + 1) by lia.
    exact Hnext.
  - exists s2. split; [exact Hrun|]. replace ((i + 1) * c) with (i * c + c) by lia.
    exact Hend.
Qed.

Lemma length_tabulate n (f : Z -> T) : 0 <= n -> Z.of_nat (length (tabulate n f)) = n.
Proof. intros Hn. unfold tabulate. rewrite length_fmap, length_seqZ. lia. Qed.

Lemma lookup_tabulate n (f : Z -> T) z :
  0 <= z < n -> tabulate n f !! Z.to_nat z = Some (f z).
Proof.
  intros Hz. unfold tabulate. rewrite list_lookup_fmap.
  rewrite (lookup_seqZ_lt 0 n (Z.to_nat z)) by lia. cbn. f_equal. f_equal. lia.
Qed.

Lemma lookup_total_tabulate n (f : Z -> T) z :
  0 <= z < n -> tabulate n f !!! Z.to_nat z = f z.
Proof. intros Hz. apply list_lookup_total_correct, lookup_tabulate, Hz. Qed.

Lemma filled_tabulate (s0 : state) l n f s :
  0 <= n -> filled s0 l n f n s -> s = set_buf s0 l (Some <$> tabulate n f).
Proof.
  intros Hn Hfull. apply (filled_full s0 l n f); [exact Hfull | |].
  - apply length_tabulate, Hn.
  - intros z Hz. apply lookup_tabulate, Hz.
Qed.

(** Position [(i, j)] from its flattened offset. *)
Lemma unflatten c i j :
  0 <= j < c -> (i * c + j) / c = i /\ (i * c + j) mod c = j.
Proof.
  intros Hj. split.
  - rewrite Z.add_comm, Z.div_add by lia. rewrite Z.div_small by lia. lia.
  - rewrite Z.add_comm, Z.mod_add by lia. apply Z.mod_small. exact Hj.
Qed.

(** *** Constructors *)

Lemma matrix_rc_zero r c (s : state) :
  r = 0 \/ c = 0 -> matrix_rc r c s = Throw zero_size s.
Proof.
  intros Hz. unfold matrix_rc.
  destruct Hz as [-> | ->]; cbn; [reflexivity|].
  rewrite orb_true_r. reflexivity.
Qed.

Lemma matrix_rc_run r c (s : state) :
  r <> 0 -> c <> 0 ->
  matrix_rc r c s =
    Ret (mkMatrix r c (Some (next s)) (Some (next s)))
        (alloc_with s (replicate (Z.to_nat (size_mul r c)) None)).
Proof.
  intros Hr Hc. unfold matrix_rc.
  rewrite (proj2 (Z.eqb_neq r 0) Hr), (proj2 (Z.eqb_neq c 0) Hc). reflexivity.
Qed.

(** The buffer of a matrix under construction, once every element has been
    written in index order. *)
Lemma fill_linear (s : state) n (f : Z -> T) (body : Z -> M unit) :
  0 <= n ->
  let s0 := alloc_with s (replicate (Z.to_nat n) None) in
  (forall k s1, 0 <= k < n -> filled s0 (next s) n f k s1 ->
     exists s', body k s1 = Ret tt s' /\ filled s0 (next s) n f (k + 1) s') ->
  for_each n body s0 = Ret tt (alloc_with s (Some <$> tabulate n f)).
Proof.
  intros Hn s0 Hstep.
  destruct (for_each_inv (fun k s1 => filled s0 (next s) n f k s1) body n s0 Hn)
    as (s' & Hrun & Hend).
  - apply (filled_start s0 (next s) n f (replicate (Z.to_nat n) None)).
    + apply lookup_insert_eq.
    + rewrite length_replicate. lia.
  - exact Hstep.
  - rewrite Hrun. f_equal. rewrite (filled_tabulate _ _ _ _ _ Hn Hend).
    apply set_buf_alloc.
Qed.

Lemma matrix_fill_run r c v (s : state) :
  r <> 0 -> c <> 0 ->
  matrix_fill r c v s =
    Ret (mkMatrix r c (Some (next s)) (Some (next s)))
        (alloc_with s (replicate (Z.to_nat (size_mul r c)) (Some v))).
Proof.
  intros Hr Hc. unfold matrix_fill.
  rewrite (proj2 (Z.eqb_neq r 0) Hr), (proj2 (Z.eqb_neq c 0) Hc). cbn [orb].
  rewrite (bind_ret _ _ _ _ _ (new_array_run _ s)). cbn [unique_reset].
  unfold bind at 1, ret at 1.
  pose proof (wrap_range (r * c)) as Hn. fold (size_mul r c) in Hn.
  rewrite (bind_ret _ _ _ tt (alloc_with s (Some <$> tabulate (size_mul r c) (fun _ => v)))).
  - unfold ret. f_equal. f_equal. apply list_eq. intros i.
    rewrite list_lookup_fmap.
    destruct (decide (Z.of_nat i < size_mul r c)) as [Hi|Hi].
    + rewrite lookup_replicate_2 by lia.
      pose proof (lookup_tabulate (size_mul r c) (fun _ => v) (Z.of_nat i)) as Ht.
      rewrite Nat2Z.id in Ht. rewrite Ht by lia. reflexivity.
    + rewrite !lookup_ge_None_2; [reflexivity| |].
      * rewrite length_replicate. lia.
      * pose proof (length_tabulate (size_mul r c) (fun _ => v)). lia.
  - apply fill_linear; [lia|]. intros k s1 Hk Hfill.
    apply (filled_write _ _ _ _ _ _ v Hfill Hk). reflexivity.
Qed.

Lemma tabulate_id (xs : list T) n :
  Z.of_nat (length xs) = n -> tabulate n (fun z => xs !!! Z.to_nat z) = xs.
Proof.
  intros Hlen. apply list_eq. intros i.
  destruct (decide (Z.of_nat i < n)) as [Hi|Hi].
  - pose proof (lookup_tabulate n (fun z => xs !!! Z.to_nat z) (Z.of_nat i)) as Ht.
    cbn beta in Ht. rewrite !Nat2Z.id in Ht. rewrite Ht by lia.
    symmetry. apply list_lookup_lookup_total_lt. lia.
  - rewrite !lookup_ge_None_2; [reflexivity | lia |].
    pose proof (length_tabulate n (fun z => xs !!! Z.to_nat z)). lia.
Qed.

Lemma vec_get_run (v : list T) k (s : state) :
  0 <= k < vec_size v -> vec_get v k s = Ret (v !!! Z.to_nat k) s.
Proof.
  intros Hk. unfold vec_get, vec_size in *.
  rewrite (list_lookup_lookup_total_lt v (Z.to_nat k)) by lia. reflexivity.
Qed.

Lemma matrix_flat_zero r c v (s : state) :
  r = 0 \/ c = 0 -> matrix_flat r c v s = Throw zero_size s.
Proof.
  intros Hz. unfold matrix_flat.
  destruct Hz as [-> | ->]; cbn; [reflexivity|].
  rewrite orb_true_r. reflexivity.
Qed.

Lemma matrix_flat_wrong r c v (s : state) :
  r <> 0 -> c <> 0 -> vec_size v <> size_mul r c ->
  matrix_flat r c v s = Throw initializer_wrong_size s.
Proof.
  intros Hr Hc Hv. unfold matrix_flat.
  rewrite (proj2 (Z.eqb_neq r 0) Hr), (proj2 (Z.eqb_neq c 0) Hc). cbn [orb].
  rewrite (proj2 (Z.eqb_neq _ _) Hv). reflexivity.
Qed.

Lemma matrix_flat_run r c v (s : state) :
  r <> 0 -> c <> 0 -> vec_size v = size_mul r c ->
  matrix_flat r c v s =
    Ret (mkMatrix r c (Some (next s)) (Some (next s))) (alloc_with s (Some <$> v)).
Proof.
  intros Hr Hc Hv. unfold matrix_flat.
  rewrite (proj2 (Z.eqb_neq r 0) Hr), (proj2 (Z.eqb_neq c 0) Hc). cbn [orb].
  rewrite (proj2 (Z.eqb_eq _ _) Hv). cbn [negb].
  rewrite (bind_ret _ _ _ _ _ (new_array_run _ s)). cbn [unique_reset].
  unfold bind at 1, ret at 1.
  pose proof (wrap_range (r * c)) as Hn. fold (size_mul r c) in Hn.
  rewrite (bind_ret _ _ _ tt
    (alloc_with s (Some <$> tabulate (size_mul r c) (fun z => v !!! Z.to_nat z)))).
  - unfold ret. rewrite tabulate_id by exact Hv. reflexivity.
  - apply fill_linear; [lia|]. intros k s1 Hk Hfill.
    rewrite (bind_ret _ _ _ _ _ (vec_get_run v k s1 ltac:(lia))).
    apply (filled_write _ _ _ _ _ _ _ Hfill Hk). reflexivity.
Qed.

(** *** Live matrices in a growing heap *)

Lemma owns_alloc (s : state) m l buf buf' :
  owns s m l buf -> owns (alloc_with s buf') m l buf.
Proof.
  intros (Hs & He & Hl & Hlt). repeat split; try assumption.
  - cbn. rewrite lookup_insert_ne by lia. exact Hl.
  - cbn. lia.
Qed.

Lemma live_alloc (s : state) m buf buf' :
  live s m buf -> live (alloc_with s buf') m buf.
Proof.
  intros (Hshape & Hlen & l & Hown). repeat split; try apply Hshape; try assumption.
  exists l. apply owns_alloc, Hown.
Qed.

Lemma holds_alloc (s : state) m xs buf' :
  holds s m xs -> holds (alloc_with s buf') m xs.
Proof. apply live_alloc. Qed.

(** A freshly built matrix is live. *)
Lemma live_fresh (s : state) r c buf :
  shape_ok r c -> Z.of_nat (length buf) = r * c ->
  live (alloc_with s buf) (mkMatrix r c (Some (next s)) (Some (next s))) buf.
Proof.
  intros Hshape Hlen. split; [exact Hshape|]. split; [exact Hlen|].
  exists (next s). repeat split; cbn; [apply lookup_insert_eq | lia].
Qed.

(** *** Element access on a live matrix *)

Lemma call_live (s : state) m l (buf : list (option T)) i j x :
  elements m = Some l -> store s !! l = Some buf ->
  shape_ok (rows m) (cols m) ->
  0 <= i < rows m -> 0 <= j < cols m ->
  buf !! Z.to_nat (i * cols m + j) = Some (Some x) ->
  call m i j s = Ret x s.
Proof.
  intros He Hl Hshape Hi Hj Hx. unfold call. rewrite He.
  destruct (index_in_shape _ _ i j Hshape Hi Hj) as [Hidx Hmod].
  rewrite offset_small by (destruct Hshape; lia).
  apply (load_some s l buf); assumption.
Qed.

Lemma call_holds (s s1 : state) m xs i j :
  holds s m xs -> (forall l, (l < next s)%nat -> store s1 !! l = store s !! l) ->
  0 <= i < rows m -> 0 <= j < cols m ->
  call m i j s1 = Ret (entry (cols m) xs i j) s1.
Proof.
  intros (Hshape & Hlen & l & Hs & He & Hl & Hlt) Hsame Hi Hj.
  destruct (index_in_shape _ _ i j Hshape Hi Hj) as [Hidx Hmod].
  apply (call_live s1 m l (Some <$> xs)); try assumption.
  - rewrite Hsame by exact Hlt. exact Hl.
  - rewrite list_lookup_fmap. unfold entry.
    rewrite length_fmap in Hlen.
    rewrite (list_lookup_lookup_total_lt xs) by lia. reflexivity.
Qed.

Lemma assign_filled (s0 s1 : state) l r c (f : Z -> T) i j v :
  shape_ok r c -> 0 <= i < r -> 0 <= j < c ->
  filled s0 l (r * c) f (i * c + j) s1 -> v = f (i * c + j) ->
  exists s', assign (mkMatrix r c (Some l) (Some l)) i j v s1 = Ret tt s' /\
             filled s0 l (r * c) f (i * c + j + 1) s'.
Proof.
  intros Hshape Hi Hj Hfill Hv. unfold assign, call_ref. cbn [elements].
  destruct (index_in_shape _ _ i j Hshape Hi Hj) as [Hidx Hmod].
  rewrite offset_small by (cbn [cols]; destruct Hshape; lia). cbn [cols].
  apply (filled_write s0 l (r * c) f (i * c + j) s1 v Hfill Hidx Hv).
Qed.

(** The common shape of the operators: construct [c], write every element
    in row-major order, return [c]. *)
Lemma build_row_major (s : state) r c (f : Z -> T) (body : matrix -> Z -> Z -> M unit) :
  shape_ok r c ->
  let s0 := alloc_with s (replicate (Z.to_nat (r * c)) None) in
  let cm := mkMatrix r c (Some (next s)) (Some (next s)) in
  (forall i j s1, 0 <= i < r -> 0 <= j < c ->
     filled s0 (next s) (r * c) f (i * c + j) s1 ->
     exists s', body cm i j s1 = Ret tt s' /\
                filled s0 (next s) (r * c) f (i * c + j + 1) s') ->
  (do cm <- matrix_rc r c;
   for_each r (fun i => for_each c (fun j => body cm i j)) ;;
   ret cm) s
  = Ret cm (alloc_with s (Some <$> tabulate (r * c) f)).
Proof.
  intros Hshape s0 cm Hstep. pose proof Hshape as (Hr & Hc & Hrc).
  assert (0 <= r * c) as Hn by (apply Z.mul_nonneg_nonneg; lia).
  rewrite (bind_ret _ _ _ _ _ (matrix_rc_run r c s ltac:(lia) ltac:(lia))).
  rewrite size_mul_small by lia. fold s0. fold cm.
  destruct (fill_row_major s0 (next s) r c f (body cm) s0) as (s' & Hrun & Hend);
    [lia | lia | exact Hstep | |].
  - apply (filled_start s0 (next s) (r * c) f (replicate (Z.to_nat (r * c)) None)).
    + apply lookup_insert_eq.
    + rewrite length_replicate. lia.
  - rewrite (bind_ret _ _ _ _ _ Hrun). unfold ret. f_equal.
    rewrite (filled_tabulate _ _ _ _ _ Hn Hend). apply set_buf_alloc.
Qed.

(** While [c] is being filled, the operands are as they were on entry. *)
Lemma filled_frame (s : state) buf0 n f k s1 :
  filled (alloc_with s buf0) (next s) n f k s1 ->
  forall l', (l' < next s)%nat -> store s1 !! l' = store s !! l'.
Proof.
  intros Hfill l' Hlt.
  rewrite (filled_other _ _ _ _ _ _ l' Hfill) by lia.
  cbn. apply lookup_insert_ne. lia.
Qed.

(** *** Elementwise operators *)

Lemma eqb_shape (a b : matrix) :
  rows a = rows b -> cols a = cols b ->
  negb (rows a =? rows b) || negb (cols a =? cols b) = false.
Proof. intros -> ->. rewrite !Z.eqb_refl. reflexivity. Qed.

Lemma neqb_shape (a b : matrix) :
  rows a <> rows b \/ cols a <> cols b ->
  negb (rows a =? rows b) || negb (cols a =? cols b) = true.
Proof.
  intros [Hne | Hne]; apply Z.eqb_neq in Hne; rewrite Hne; cbn; [reflexivity|].
  apply orb_true_r.
Qed.

Lemma op_add_run (s : state) a b xs ys :
  holds s a xs -> holds s b ys -> rows a = rows b -> cols a = cols b ->
  op_add a b s =
    Ret (mkMatrix (rows a) (cols a) (Some (next s)) (Some (next s)))
        (alloc_with s (Some <$> tabulate (rows a * cols a)
           (fun z => add (xs !!! Z.to_nat z) (ys !!! Z.to_nat z)))).
Proof.
  intros Ha Hb Hr Hc. unfold op_add. rewrite eqb_shape by assumption.
  apply (build_row_major s (rows a) (cols a) _
           (fun c i j => do x <- call a i j; do y <- call b i j; assign c i j (add x y))).
  { apply Ha. }
  intros i j s1 Hi Hj Hfill.
  rewrite (bind_ret _ _ _ _ _
             (call_holds s s1 a xs i j Ha (filled_frame _ _ _ _ _ _ Hfill) Hi Hj)).
  rewrite (bind_ret _ _ _ _ _
             (call_holds s s1 b ys i j Hb (filled_frame _ _ _ _ _ _ Hfill)
                ltac:(lia) ltac:(lia))).
  apply assign_filled; try assumption; [apply Ha|].
  unfold entry. rewrite Hc. reflexivity.
Qed.

Lemma op_sub_run (s : state) a b xs ys :
  holds s a xs -> holds s b ys -> rows a = rows b -> cols a = cols b ->
  op_sub a b s =
    Ret (mkMatrix (rows a) (cols a) (Some (next s)) (Some (next s)))
        (alloc_with s (Some <$> tabulate (rows a * cols a)
           (fun z => sub (xs !!! Z.to_nat z) (ys !!! Z.to_nat z)))).
Proof.
  intros Ha Hb Hr Hc. unfold op_sub. rewrite eqb_shape by assumption.
  apply (build_row_major s (rows a) (cols a) _
           (fun c i j => do x <- call a i j; do y <- call b i j; assign c i j (sub x y))).
  { apply Ha. }
  intros i j s1 Hi Hj Hfill.
  rewrite (bind_ret _ _ _ _ _
             (call_holds s s1 a xs i j Ha (filled_frame _ _ _ _ _ _ Hfill) Hi Hj)).
  rewrite (bind_ret _ _ _ _ _
             (call_holds s s1 b ys i j Hb (filled_frame _ _ _ _ _ _ Hfill)
                ltac:(lia) ltac:(lia))).
  apply assign_filled; try assumption; [apply Ha|].
  unfold entry. rewrite Hc. reflexivity.
Qed.

Lemma op_neg_run (s : state) m xs :
  holds s m xs ->
  op_neg m s =
    Ret (mkMatrix (rows m) (cols m) (Some (next s)) (Some (next s)))
        (alloc_with s (Some <$> tabulate (rows m * cols m)
           (fun z => neg (xs !!! Z.to_nat z)))).
Proof.
  intros Hm. unfold op_neg.
  apply (build_row_major s (rows m) (cols m) _
           (fun c i j => do x <- call m i j; assign c i j (neg x))).
  { apply Hm. }
  intros i j s1 Hi Hj Hfill.
  rewrite (bind_ret _ _ _ _ _
             (call_holds s s1 m xs i j Hm (filled_frame _ _ _ _ _ _ Hfill) Hi Hj)).
  apply assign_filled; try assumption; [apply Hm|]. reflexivity.
Qed.

Lemma op_scale_run (s : state) k m xs :
  holds s m xs ->
  op_scale k m s =
    Ret (mkMatrix (rows m) (cols m) (Some (next s)) (Some (next s)))
        (alloc_with s (Some <$> tabulate (rows m * cols m)
           (fun z => mul k (xs !!! Z.to_nat z)))).
Proof.
  intros Hm. unfold op_scale.
  apply (build_row_major s (rows m) (cols m) _
           (fun c i j => do x <- call m i j; assign c i j (mul k x))).
  { apply Hm. }
  intros i j s1 Hi Hj Hfill.
  rewrite (bind_ret _ _ _ _ _
             (call_holds s s1 m xs i j Hm (filled_frame _ _ _ _ _ _ Hfill) Hi Hj)).
  apply assign_filled; try assumption; [apply Hm|]. reflexivity.
Qed.

(** *** Multiplication *)

Lemma accumulating_start (s0 : state) l n f k s v :
  filled s0 l n f k s -> 0 <= k < n ->
  exists s', store_at (Some l) k v s = Ret tt s' /\ accumulating s0 l n f k v s'.
Proof.
  intros (buf & -> & Hlen & Hpre) Hk.
  exists (set_buf s0 l (<[Z.to_nat k := Some v]> buf)). split.
  - rewrite (store_at_some _ l buf) by (try apply store_set_buf_eq; lia).
    rewrite set_buf_twice. reflexivity.
  - exists (<[Z.to_nat k := Some v]> buf). split; [reflexivity|]. split; [|split].
    + rewrite length_insert. exact Hlen.
    + intros z Hz. rewrite list_lookup_insert_ne by lia. apply Hpre, Hz.
    + apply list_lookup_insert_eq. lia.
Qed.

Lemma accumulating_load (s0 : state) l n f k acc s :
  accumulating s0 l n f k acc s -> load (Some l) k s = Ret acc s.
Proof.
  intros (buf & -> & Hlen & Hpre & Hk).
  apply (load_some _ l buf); [apply store_set_buf_eq | exact Hk].
Qed.

Lemma accumulating_step (s0 : state) l n f k acc s v :
  accumulating s0 l n f k acc s -> 0 <= k < n ->
  exists s', store_at (Some l) k v s = Ret tt s' /\ accumulating s0 l n f k v s'.
Proof.
  intros (buf & -> & Hlen & Hpre & Hk) Hrange.
  apply (accumulating_start s0 l n f k _ v); [|exact Hrange].
  exists buf. repeat split; assumption.
Qed.

Lemma accumulating_done (s0 : state) l n f k s :
  accumulating s0 l n f k (f k) s -> 0 <= k -> filled s0 l n f (k + 1) s.
Proof.
  intros (buf & -> & Hlen & Hpre & Hk) Hk0.
  exists buf. split; [reflexivity|]. split; [exact Hlen|].
  intros z Hz. destruct (decide (z = k)) as [->|Hne]; [exact Hk|].
  apply Hpre. lia.
Qed.

Lemma accumulating_frame (s : state) buf0 n f k acc s1 :
  accumulating (alloc_with s buf0) (next s) n f k acc s1 ->
  forall l', (l' < next s)%nat -> store s1 !! l' = store s !! l'.
Proof.
  intros (buf & -> & _) l' Hlt.
  rewrite store_set_buf_ne by lia. cbn. apply lookup_insert_ne. lia.
Qed.

Lemma sum_over_succ k (x y : Z -> T) :
  0 <= k ->
  sum_over (Z.to_nat (k + 1)) x y = add (sum_over (Z.to_nat k) x y) (mul (x k) (y k)).
Proof.
  intros Hk. replace (Z.to_nat (k + 1)) with (S (Z.to_nat k)) by lia.
  cbn [sum_over]. rewrite Z2Nat.id by exact Hk. reflexivity.
Qed.

Lemma op_mul_run (s : state) a b xs ys :
  holds s a xs -> holds s b ys -> cols a = rows b -> shape_ok (rows a) (cols b) ->
  op_mul a b s =
    Ret (mkMatrix (rows a) (cols b) (Some (next s)) (Some (next s)))
        (alloc_with s (Some <$> tabulate (rows a * cols b) (product_entry a b xs ys))).
Proof.
  intros Ha Hb Hab Hshape. unfold op_mul. rewrite Hab, Z.eqb_refl. cbn [negb].
  rewrite <- Hab.
  apply (build_row_major s (rows a) (cols b) _
           (fun c i j =>
              assign c i j (from_int 0) ;;
              for_each (cols a) (fun k =>
                do x <- call a i k;
                do y <- call b k j;
                do acc <- call c i j;
                assign c i j (add acc (mul x y))))); [exact Hshape|].
  intros i j s1 Hi Hj Hfill.
  destruct (index_in_shape _ _ i j Hshape Hi Hj) as [Hidx Hmod].
  destruct (unflatten (cols b) i j Hj) as [Hdiv Hrem].
  assert (offset (mkMatrix (rows a) (cols b) (Some (next s)) (Some (next s))) i j
          = i * cols b + j) as Hoff.
  { rewrite offset_small by (cbn [cols]; destruct Hshape; lia). reflexivity. }
  set (x := fun k => entry (cols a) xs i k).
  set (y := fun k => entry (cols b) ys k j).
  destruct (accumulating_start _ _ _ _ _ _ (from_int 0) Hfill Hidx) as (s2 & Hzero & Hacc).
  unfold assign at 1, call_ref. cbn [elements]. rewrite Hoff.
  rewrite (bind_ret _ _ _ _ _ Hzero).
  destruct (for_each_inv
              (fun k st => accumulating (alloc_with s (replicate (Z.to_nat (rows a * cols b)) None))
                             (next s) (rows a * cols b) (product_entry a b xs ys)
                             (i * cols b + j) (sum_over (Z.to_nat k) x y) st)
              (fun k =>
                do x <- call a i k;
                do y <- call b k j;
                do acc <- call (mkMatrix (rows a) (cols b) (Some (next s)) (Some (next s))) i j;
                assign (mkMatrix (rows a) (cols b) (Some (next s)) (Some (next s))) i j
                  (add acc (mul x y)))
              (cols a) s2) as (s3 & Hloop & Hend).
  - destruct Ha as ((_ & Hc & _) & _). lia.
  - exact Hacc.
  - intros k st Hk Hinv.
    rewrite (bind_ret _ _ _ _ _
               (call_holds s st a xs i k Ha (accumulating_frame _ _ _ _ _ _ _ Hinv) Hi Hk)).
    rewrite (bind_ret _ _ _ _ _
               (call_holds s st b ys k j Hb (accumulating_frame _ _ _ _ _ _ _ Hinv)
                  ltac:(lia) Hj)).
    unfold call at 1. cbn [elements]. rewrite Hoff.
    rewrite (bind_ret _ _ _ _ _ (accumulating_load _ _ _ _ _ _ _ Hinv)).
    unfold assign, call_ref. cbn [elements]. rewrite Hoff.
    rewrite sum_over_succ by lia.
    apply (accumulating_step _ _ _ _ _ _ _ _ Hinv Hidx).
  - exists s3. split; [exact Hloop|].
    apply accumulating_done; [|lia].
    replace (product_entry a b xs ys (i * cols b + j))
      with (sum_over (Z.to_nat (cols a)) x y); [exact Hend|].
    unfold product_entry. rewrite Hdiv, Hrem. reflexivity.
Qed.

(** *** The remaining constructors *)

Lemma flat_index_small c i j :
  0 <= i -> 0 <= j -> 0 <= c -> i * c + j < size_modulus ->
  size_add (size_mul c i) j = i * c + j.
Proof.
  intros Hi Hj Hc Hsum. unfold size_add, size_mul.
  assert (0 <= c * i) by (apply Z.mul_nonneg_nonneg; lia).
  rewrite (wrap_small (c * i)) by lia.
  rewrite wrap_small by lia. lia.
Qed.

Lemma fill_fresh (s : state) r c (f : Z -> T) (body : Z -> Z -> M unit) :
  0 <= r -> 0 <= c ->
  let s0 := alloc_with s (replicate (Z.to_nat (r * c)) None) in
  (forall i j s1, 0 <= i < r -> 0 <= j < c ->
     filled s0 (next s) (r * c) f (i * c + j) s1 ->
     exists s', body i j s1 = Ret tt s' /\
                filled s0 (next s) (r * c) f (i * c + j + 1) s') ->
  for_each r (fun i => for_each c (fun j => body i j)) s0
  = Ret tt (alloc_with s (Some <$> tabulate (r * c) f)).
Proof.
  intros Hr Hc s0 Hstep.
  assert (0 <= r * c) as Hn by (apply Z.mul_nonneg_nonneg; lia).
  destruct (fill_row_major s0 (next s) r c f body s0) as (s' & Hrun & Hend);
    [lia | lia | exact Hstep | |].
  - apply (filled_start s0 (next s) (r * c) f (replicate (Z.to_nat (r * c)) None)).
    + apply lookup_insert_eq.
    + rewrite length_replicate. lia.
  - rewrite Hrun. f_equal.
    rewrite (filled_tabulate _ _ _ _ _ Hn Hend). apply set_buf_alloc.
Qed.

Lemma matrix_diag_zero (s : state) : matrix_diag [] s = Throw zero_size s.
Proof. reflexivity. Qed.

Lemma matrix_diag_run (v : list T) (s : state) :
  let n := vec_size v in
  n <> 0 -> n * n < size_modulus ->
  matrix_diag v s =
    Ret (mkMatrix n n (Some (next s)) (Some (next s)))
        (alloc_with s (Some <$> tabulate (n * n) (diag_entry v))).
Proof.
  intros n Hn Hfit. unfold matrix_diag. fold n.
  assert (0 < n) as Hpos by (unfold n, vec_size in *; lia).
  rewrite (proj2 (Z.eqb_neq n 0) Hn).
  rewrite (bind_ret _ _ _ _ _ (new_array_run _ s)). cbn [unique_reset].
  unfold bind at 1, ret at 1.
  rewrite size_mul_small by nia.
  rewrite (bind_ret _ _ _ tt (alloc_with s (Some <$> tabulate (n * n) (diag_entry v)))).
  { reflexivity. }
  apply (fill_fresh s n n (diag_entry v)
           (fun i j =>
              do x <- (if i =? j then vec_get v i else ret (from_int 0));
              store_at (Some (next s)) (size_add (size_mul n i) j) x)); [lia | lia |].
  intros i j s1 Hi Hj Hfill.
  destruct (index_in_shape n n i j ltac:(repeat split; lia) Hi Hj) as [Hidx _].
  destruct (unflatten n i j Hj) as [Hdiv Hrem].
  rewrite flat_index_small by lia.
  assert (diag_entry v (i * n + j) = if i =? j then v !!! Z.to_nat i else from_int 0) as Hval.
  { unfold diag_entry. fold (vec_size v). fold n. rewrite Hdiv, Hrem. reflexivity. }
  destruct (i =? j) eqn:Hij.
  - rewrite (bind_ret _ _ _ _ _ (vec_get_run v i s1 ltac:(fold n; lia))).
    apply (filled_write _ _ _ _ _ _ _ Hfill Hidx). symmetry. exact Hval.
  - unfold bind at 1, ret at 1.
    apply (filled_write _ _ _ _ _ _ _ Hfill Hidx). symmetry. exact Hval.
Qed.

Lemma matrix_copy_run (s : state) m xs :
  holds s m xs ->
  matrix_copy m s =
    Ret (mkMatrix (rows m) (cols m) (Some (next s)) (Some (next s)))
        (alloc_with s (Some <$> xs)).
Proof.
  intros Hm. pose proof Hm as (Hshape & Hlen & l & Hs & He & Hl & Hlt).
  pose proof Hshape as (Hr & Hc & Hrc). rewrite length_fmap in Hlen.
  assert (0 <= rows m * cols m) as Hn by (apply Z.mul_nonneg_nonneg; lia).
  unfold matrix_copy.
  rewrite (bind_ret _ _ _ _ _ (new_array_run _ s)). cbn [unique_reset].
  unfold bind at 1, ret at 1.
  rewrite size_mul_small by lia.
  rewrite (bind_ret _ _ _ tt
    (alloc_with s (Some <$> tabulate (rows m * cols m) (fun z => xs !!! Z.to_nat z)))).
  { unfold ret. rewrite tabulate_id by exact Hlen. reflexivity. }
  apply fill_linear; [exact Hn|]. intros k s1 Hk Hfill.
  rewrite He.
  rewrite (bind_ret _ _ _ (xs !!! Z.to_nat k) s1).
  - apply (filled_write _ _ _ _ _ _ _ Hfill Hk). reflexivity.
  - apply (load_some s1 l (Some <$> xs)).
    + rewrite (filled_frame _ _ _ _ _ _ Hfill l Hlt). exact Hl.
    + rewrite list_lookup_fmap.
      rewrite (list_lookup_lookup_total_lt xs) by lia. reflexivity.
Qed.

Lemma matrix_move_run (m : matrix) (s : state) :
  matrix_move m s = Ret (mkMatrix (rows m) (cols m) (smart m) (smart m), moved_from) s.
Proof. reflexivity. Qed.

(** *** Checked access *)

Lemma at_out_of_range (m : matrix) row col (s : state) :
  rows m <= row \/ cols m <= col -> at_ m row col s = Throw index_out_of_range s.
Proof.
  intros Hout. unfold at_.
  destruct Hout as [Hr | Hc].
  - rewrite (proj2 (Z.leb_le _ _) Hr). reflexivity.
  - rewrite (proj2 (Z.leb_le _ _) Hc), orb_true_r. reflexivity.
Qed.

Lemma at_in_range (m : matrix) row col (s : state) :
  row < rows m -> col < cols m ->
  at_ m row col s = load (elements m) (offset m row col) s.
Proof.
  intros Hr Hc. unfold at_.
  rewrite (proj2 (Z.leb_gt _ _) Hr), (proj2 (Z.leb_gt _ _) Hc). reflexivity.
Qed.

Lemma at_ref_out_of_range (m : matrix) row col (s : state) :
  rows m <= row \/ cols m <= col -> at_ref m row col s = Throw index_out_of_range s.
Proof.
  intros Hout. unfold at_ref.
  destruct Hout as [Hr | Hc].
  - rewrite (proj2 (Z.leb_le _ _) Hr). reflexivity.
  - rewrite (proj2 (Z.leb_le _ _) Hc), orb_true_r. reflexivity.
Qed.

Lemma at_ref_in_range (m : matrix) row col (s : state) :
  row < rows m -> col < cols m ->
  at_ref m row col s = Ret (elements m, offset m row col) s.
Proof.
  intros Hr Hc. unfold at_ref.
  rewrite (proj2 (Z.leb_gt _ _) Hr), (proj2 (Z.leb_gt _ _) Hc). reflexivity.
Qed.

Lemma load_not_throw p i (s : state) e s' : load p i s <> Throw e s'.
Proof.
  unfold load. destruct p as [l|]; [|discriminate].
  destruct (store s !! l) as [buf|]; [|discriminate].
  destruct (buf !! Z.to_nat i) as [[x|]|]; discriminate.
Qed.

Lemma at_holds (s : state) m xs row col :
  holds s m xs -> 0 <= row < rows m -> 0 <= col < cols m ->
  at_ m row col s = Ret (entry (cols m) xs row col) s.
Proof.
  intros Hm Hr Hc. rewrite at_in_range by lia.
  apply (call_holds s s m xs row col Hm); auto.
Qed.

(** *** Computations that cannot throw *)

Lemma no_throw_ret {A} (a : A) : no_throw (ret a : M A).
Proof. intros s e s'. discriminate. Qed.

Lemma no_throw_bind {A B} (m : M A) (k : A -> M B) :
  no_throw m -> (forall a, no_throw (k a)) -> no_throw (bind m k).
Proof.
  intros Hm Hk s e s'. unfold bind.
  destruct (m s) as [a s1 | e1 s1 |] eqn:Hrun.
  - apply Hk.
  - exfalso. exact (Hm s e1 s1 Hrun).
  - discriminate.
Qed.

Lemma no_throw_load p i : no_throw (load p i : M T).
Proof. intros s e s'. apply load_not_throw. Qed.

Lemma no_throw_store_at p i (x : T) : no_throw (store_at p i x).
Proof.
  intros s e s'. unfold store_at. destruct p as [l|]; [|discriminate].
  destruct (store s !! l) as [buf|]; [|discriminate].
  destruct (decide _); discriminate.
Qed.

Lemma no_throw_for_range {A} k i (body : Z -> A -> M A) a :
  (forall j b, no_throw (body j b)) -> no_throw (for_range k i body a).
Proof.
  intros Hbody. revert i a. induction k as [|k IH]; intros i a.
  - apply no_throw_ret.
  - cbn [for_range]. apply no_throw_bind; [apply Hbody | intros a'; apply IH].
Qed.

Lemma no_throw_for_each n (body : Z -> M unit) :
  (forall j, no_throw (body j)) -> no_throw (for_each n body).
Proof. intros Hbody. apply no_throw_for_range. intros j []. apply Hbody. Qed.

Lemma no_throw_call (m : matrix) i j : no_throw (call m i j : M T).
Proof. apply no_throw_load. Qed.

Lemma no_throw_assign (m : matrix) i j (x : T) : no_throw (assign m i j x).
Proof. unfold assign, call_ref. apply no_throw_store_at. Qed.

(** With a compatible inner dimension, the only exception [a * b] can raise
    is the [zero_size] of its result's constructor. *)
Lemma op_mul_compatible (a b : matrix) (s : state) e s' :
  cols a = rows b -> op_mul a b s = Throw e s' -> e = zero_size.
Proof.
  intros Hab. unfold op_mul. rewrite Hab, Z.eqb_refl. cbn [negb].
  destruct (decide (rows a = 0 \/ cols b = 0)) as [Hz | Hnz].
  - rewrite (bind_throw _ _ _ _ _ (matrix_rc_zero _ _ s Hz)).
    intros [= <- _]. reflexivity.
  - rewrite (bind_ret _ _ _ _ _ (matrix_rc_run (rows a) (cols b) s ltac:(tauto) ltac:(tauto))).
    intros Hthrow. exfalso. revert Hthrow.
    apply no_throw_bind.
    + apply no_throw_for_each. intros i. apply no_throw_for_each. intros j.
      apply no_throw_bind; [apply no_throw_assign|]. intros _.
      apply no_throw_for_each. intros k.
      repeat (apply no_throw_bind; [apply no_throw_call|]; intros ?).
      apply no_throw_assign.
    + intros _. apply no_throw_ret.
Qed.

End Facts.

(** ** Multiplication and addition (C1) *)

Section Product.
Context {W : SizeT} {T : Type} {ST : Scalar T}.

Lemma product_entry_at (a b : matrix) (xs ys : list T) i j :
  0 <= j < cols b ->
  product_entry a b xs ys (i * cols b + j) =
    sum_over (Z.to_nat (cols a))
      (fun k => entry (cols a) xs i k) (fun k => entry (cols b) ys k j).
Proof.
  intros Hj. unfold product_entry.
  destruct (unflatten (cols b) i j Hj) as [-> ->]. reflexivity.
Qed.

Lemma holds_result (s : @state T) r c (zs : list T) :
  shape_ok r c -> Z.of_nat (length zs) = r * c ->
  holds (alloc_with s (Some <$> zs)) (mkMatrix r c (Some (next s)) (Some (next s))) zs.
Proof.
  intros Hshape Hlen. apply live_fresh; [exact Hshape|].
  rewrite length_fmap. exact Hlen.
Qed.

Lemma shape_nonneg r c : shape_ok r c -> 0 <= r * c.
Proof. intros (Hr & Hc & _). apply Z.mul_nonneg_nonneg; lia. Qed.

End Product.

(** Closes [holds s m xs] for concrete [s], [m], [xs] whose buffer is at
    address [l]. *)
Ltac holds_at l :=
  split; [repeat split; vm_compute; congruence|];
  split; [vm_compute; reflexivity|];
  exists l; repeat split; vm_compute; lia.

(** C1. For live matrices [a], [b] with [cols a = rows b] and a result shape
    [rows a] by [cols b] that fits [size_t], [a * b] is a new live matrix of
    that shape (its buffer freshly allocated, the operands untouched) whose
    entry [(i, j)] is the sum over [k] of [a(i,k) * b(k,j)], accumulated from
    the integer 0 converted to [T]. With 64-bit [size_t] and integer
    elements, [Matrix(2,2,{1,2,3,4}) * Matrix(2,2,{5,6,7,8})] holds
    [{19,22,43,50}] and their sum holds [{6,8,10,12}], both 2 by 2. *)
Theorem C1_product_entries :
  (forall (W : SizeT) (T : Type) (ST : Scalar T) (s : @state T) a b xs ys,
      holds s a xs -> holds s b ys -> cols a = rows b ->
      shape_ok (rows a) (cols b) ->
      exists c zs,
        op_mul a b s = Ret c (alloc_with s (Some <$> zs)) /\
        rows c = rows a /\ cols c = cols b /\
        smart c = Some (next s) /\
        holds (alloc_with s (Some <$> zs)) c zs /\
        holds (alloc_with s (Some <$> zs)) a xs /\
        holds (alloc_with s (Some <$> zs)) b ys /\
        forall i j, 0 <= i < rows a -> 0 <= j < cols b ->
          entry (cols c) zs i j =
            sum_over (Z.to_nat (cols a))
              (fun k => entry (cols a) xs i k) (fun k => entry (cols b) ys k j))
  /\ (exists c s, scenario (W := size64) op_mul initial_state = Ret c s /\
        rows c = 2 /\ cols c = 2 /\ holds s c [19; 22; 43; 50])
  /\ (exists c s, scenario (W := size64) op_add initial_state = Ret c s /\
        rows c = 2 /\ cols c = 2 /\ holds s c [6; 8; 10; 12]).
Proof.
  split; [|split].
  - intros W T ST s a b xs ys Ha Hb Hab Hshape.
    pose proof (shape_nonneg _ _ Hshape) as Hn.
    exists (mkMatrix (rows a) (cols b) (Some (next s)) (Some (next s))),
           (tabulate (rows a * cols b) (product_entry a b xs ys)).
    split; [apply op_mul_run; assumption|].
    do 3 (split; [reflexivity|]).
    split; [apply holds_result; [exact Hshape | apply length_tabulate, Hn]|].
    split; [apply holds_alloc, Ha|].
    split; [apply holds_alloc, Hb|].
    intros i j Hi Hj. cbn [cols]. unfold entry at 1.
    destruct (index_in_shape _ _ i j Hshape Hi Hj) as [Hidx _].
    rewrite lookup_total_tabulate by exact Hidx.
    apply product_entry_at, Hj.
  - eexists _, _. split; [vm_compute; reflexivity|].
    repeat split; try (vm_compute; congruence).
    exists 2%nat. repeat split. cbn. lia.
  - eexists _, _. split; [vm_compute; reflexivity|].
    repeat split; try (vm_compute; congruence).
    exists 2%nat. repeat split. cbn. lia.
Qed.

Lemma C1_product_entries_witness :
  holds (W := size64) scenario_state (two_by_two 0) [1; 2; 3; 4] /\
  holds (W := size64) scenario_state (two_by_two 1) [5; 6; 7; 8] /\
  exists c zs,
    op_mul (W := size64) (two_by_two 0) (two_by_two 1) scenario_state
      = Ret c (alloc_with scenario_state (Some <$> zs)) /\
    rows c = 2 /\ cols c = 2 /\
    smart c = Some 2%nat /\
    holds (W := size64) (alloc_with scenario_state (Some <$> zs)) c zs /\
    holds (W := size64) (alloc_with scenario_state (Some <$> zs)) (two_by_two 0) [1; 2; 3; 4] /\
    holds (W := size64) (alloc_with scenario_state (Some <$> zs)) (two_by_two 1) [5; 6; 7; 8] /\
    forall i j, 0 <= i < 2 -> 0 <= j < 2 ->
      entry (cols c) zs i j =
        sum_over 2 (fun k => entry 2 [1; 2; 3; 4] i k) (fun k => entry 2 [5; 6; 7; 8] k j).
Proof.
  assert (holds (W := size64) scenario_state (two_by_two 0) [1; 2; 3; 4]) as Ha
    by holds_at 0%nat.
  assert (holds (W := size64) scenario_state (two_by_two 1) [5; 6; 7; 8]) as Hb
    by holds_at 1%nat.
  split; [exact Ha|]. split; [exact Hb|].
  apply (proj1 C1_product_entries size64 Z Z_scalar scenario_state
           (two_by_two 0) (two_by_two 1) [1; 2; 3; 4] [5; 6; 7; 8] Ha Hb).
  - reflexivity.
  - repeat split; vm_compute; congruence.
Defined.

Section WrappedProduct.
Context {W : SizeT} {T : Type} {ST : Scalar T}.

(** When the number of entries of the product wraps around to 0, the
    result is built on [new T[0]] and its first entry is written outside
    that array. *)
Lemma op_mul_wrapped_empty (s : @state T) a b xs ys :
  holds s a xs -> holds s b ys -> cols a = rows b ->
  size_mul (rows a) (cols b) = 0 ->
  op_mul a b s = Undef.
Proof.
  intros ((Hra & _ & _) & _) ((_ & Hcb & _) & _) Hab Hwrap.
  unfold op_mul. rewrite (proj2 (Z.eqb_eq _ _) Hab). cbn [negb].
  rewrite (bind_ret _ _ _ _ _ (matrix_rc_run (rows a) (cols b) s ltac:(lia) ltac:(lia))).
  rewrite Hwrap. apply bind_undef.
  apply for_each_undef_first; [exact Hra|].
  apply for_each_undef_first; [exact Hcb|].
  apply bind_undef. unfold assign, call_ref, store_at. cbn [elements].
  change (store (alloc_with s (replicate (Z.to_nat 0) None)) !! next s)
    with (<[next s := @nil (option T)]> (store s) !! next s).
  rewrite lookup_insert_eq. reflexivity.
Qed.

(** A column of [n] elements [x] times a row of [n] elements [x], both
    built by the filling constructor, when [n * n] wraps around to 0. *)
Lemma column_times_row_wrapped (n : Z) (x : T) (s : @state T) :
  0 < n < size_modulus -> size_mul n n = 0 ->
  exists a b s',
    (do a <- matrix_fill n 1 x; do b <- matrix_fill 1 n x; ret (a, b)) s
      = Ret (a, b) s' /\
    (rows a = n /\ cols a = 1 /\ rows b = 1 /\ cols b = n) /\
    holds s' a (replicate (Z.to_nat n) x) /\
    holds s' b (replicate (Z.to_nat n) x) /\
    cols a = rows b /\
    op_mul a b s' = Undef.
Proof.
  intros Hn Hwrap.
  assert (shape_ok n 1) as Hshape1 by (repeat split; lia).
  assert (shape_ok 1 n) as Hshape2 by (repeat split; lia).
  assert (Z.of_nat (length (replicate (Z.to_nat n) x)) = n) as Hlen
    by (rewrite length_replicate; lia).
  set (xs := replicate (Z.to_nat n) x) in *.
  set (s1 := alloc_with s (Some <$> xs)).
  set (a := mkMatrix n 1 (Some (next s)) (Some (next s))).
  set (b := mkMatrix 1 n (Some (next s1)) (Some (next s1))).
  assert (holds s1 a xs) as Ha by (apply holds_result; [exact Hshape1 | lia]).
  assert (holds (alloc_with s1 (Some <$> xs)) b xs) as Hb
    by (apply holds_result; [exact Hshape2 | lia]).
  exists a, b, (alloc_with s1 (Some <$> xs)).
  split.
  { rewrite (bind_ret _ _ _ a s1).
    2:{ rewrite matrix_fill_run by lia. rewrite size_mul_small by lia.
        rewrite Z.mul_1_r, <- fmap_replicate. reflexivity. }
    rewrite (bind_ret _ _ _ b (alloc_with s1 (Some <$> xs))); [reflexivity|].
    rewrite matrix_fill_run by lia. rewrite size_mul_small by lia.
    rewrite Z.mul_1_l, <- fmap_replicate. reflexivity. }
  split; [repeat split|].
  split; [apply holds_alloc, Ha|]. split; [exact Hb|]. split; [reflexivity|].
  apply (op_mul_wrapped_empty _ a b xs xs (holds_alloc _ _ _ _ Ha) Hb eq_refl).
  exact Hwrap.
Qed.

End WrappedProduct.

(** The statement of C1, read for every pair of matrices with
    [a.cols = b.rows], fails on 64-bit [size_t] for a column of [2 ^ 32]
    elements times a row of [2 ^ 32] elements: both operands are built by
    the filling constructor and hold their elements, and the product, whose
    [2 ^ 64] entries are counted as 0, is undefined behaviour instead of
    a matrix. *)
Lemma C1_counterexample :
  exists a b s,
    column_and_row (W := size64) initial_state = Ret (a, b) s /\
    (rows a = 2 ^ 32 /\ cols a = 1 /\ rows b = 1 /\ cols b = 2 ^ 32) /\
    holds (W := size64) s a ones /\ holds (W := size64) s b ones /\
    cols a = rows b /\
    op_mul (W := size64) a b s = Undef.
Proof.
  unfold column_and_row, ones.
  apply (column_times_row_wrapped (W := size64) (2 ^ 32) 1 initial_state).
  - vm_compute. split; reflexivity.
  - vm_compute. reflexivity.
Qed.

(** ** Checked access (C4) *)

(** C4. On a live matrix (so [rows > 0], [cols > 0] and a buffer of
    [rows * cols] elements), [at(row, col)] throws [index_out_of_range]
    exactly when [row >= rows] or [col >= cols]; otherwise it succeeds: the
    reference form yields the slot at flattened offset [row * cols + col],
    which lies inside the buffer, and the value form returns the element
    stored there. [at(rows, 0)] and [at(0, cols)] throw, and
    [at(rows - 1, cols - 1)] succeeds with the last slot. *)
Theorem C4_checked_access :
  forall (W : SizeT) (T : Type) (ST : Scalar T) (s : @state T) m buf,
    live s m buf ->
    (forall row col, in_size row -> in_size col ->
       (at_ m row col s = Throw index_out_of_range s <-> rows m <= row \/ cols m <= col) /\
       (at_ref m row col s = Throw index_out_of_range s <-> rows m <= row \/ cols m <= col) /\
       (row < rows m -> col < cols m ->
          exists l, elements m = Some l /\ store s !! l = Some buf /\
            (Z.to_nat (row * cols m + col) < length buf)%nat /\
            at_ref m row col s = Ret (Some l, row * cols m + col) s /\
            forall x, buf !! Z.to_nat (row * cols m + col) = Some (Some x) ->
                      at_ m row col s = Ret x s)) /\
    at_ m (rows m) 0 s = Throw index_out_of_range s /\
    at_ m 0 (cols m) s = Throw index_out_of_range s /\
    at_ref m (rows m) 0 s = Throw index_out_of_range s /\
    at_ref m 0 (cols m) s = Throw index_out_of_range s /\
    exists l, at_ref m (rows m - 1) (cols m - 1) s
              = Ret (Some l, rows m * cols m - 1) s /\
              store s !! l = Some buf /\
              (Z.to_nat (rows m * cols m - 1) < length buf)%nat.
Proof.
  intros W T ST s m buf (Hshape & Hlen & l & Hs & He & Hl & Hlt).
  assert (forall row col, 0 <= row < rows m -> 0 <= col < cols m ->
            offset m row col = row * cols m + col /\
            (Z.to_nat (row * cols m + col) < length buf)%nat) as Hoff.
  { intros row col Hr Hc.
    destruct (index_in_shape _ _ row col Hshape Hr Hc) as [Hidx Hmod].
    split; [apply offset_small; destruct Hshape; lia | lia]. }
  split; [|split; [|split; [|split; [|split]]]].
  - intros row col [Hr0 _] [Hc0 _]. split; [|split].
    + split; [|apply at_out_of_range].
      intros Hthrow.
      destruct (decide (rows m <= row \/ cols m <= col)) as [Hout | Hin]; [exact Hout|].
      exfalso. rewrite at_in_range in Hthrow by lia.
      exact (load_not_throw _ _ _ _ _ Hthrow).
    + split; [|apply at_ref_out_of_range].
      intros Hthrow.
      destruct (decide (rows m <= row \/ cols m <= col)) as [Hout | Hin]; [exact Hout|].
      exfalso. rewrite at_ref_in_range in Hthrow by lia. discriminate.
    + intros Hr Hc. destruct (Hoff row col ltac:(lia) ltac:(lia)) as [Ho Hin].
      exists l. repeat split; try assumption.
      * rewrite at_ref_in_range by lia. rewrite He, Ho. reflexivity.
      * intros x Hx. rewrite at_in_range by lia. rewrite He, Ho.
        apply (load_some s l buf); assumption.
  - apply at_out_of_range. left. lia.
  - apply at_out_of_range. right. lia.
  - apply at_ref_out_of_range. left. lia.
  - apply at_ref_out_of_range. right. lia.
  - destruct Hshape as (Hr & Hc & Hrc).
    destruct (Hoff (rows m - 1) (cols m - 1) ltac:(lia) ltac:(lia)) as [Ho Hin].
    exists l. rewrite at_ref_in_range by lia. rewrite He, Ho.
    replace ((rows m - 1) * cols m + (cols m - 1)) with (rows m * cols m - 1) in * by lia.
    repeat split; assumption.
Qed.

Lemma C4_checked_access_witness :
  live (W := size64) scenario_state (two_by_two 0) (Some <$> [1; 2; 3; 4]) /\
  at_ (W := size64) (two_by_two 0) 2 0 scenario_state
    = Throw index_out_of_range scenario_state /\
  at_ (W := size64) (two_by_two 0) 0 2 scenario_state
    = Throw index_out_of_range scenario_state.
Proof.
  assert (live (W := size64) scenario_state (two_by_two 0) (Some <$> [1; 2; 3; 4])) as Hlive
    by holds_at 0%nat.
  split; [exact Hlive|].
  pose proof (C4_checked_access size64 Z Z_scalar scenario_state (two_by_two 0) _ Hlive)
    as (_ & Hrows & Hcols & _).
  split; [exact Hrows | exact Hcols].
Defined.

(** ** Shape errors (C5) *)

(** C5. Whenever the shapes differ, [a + b] and [a - b] throw
    [incompatible_sizes_add]; [a * b] throws [incompatible_sizes_multiply],
    a different exception, exactly when [cols a <> rows b]. With 64-bit
    [size_t], adding a 2 by 2 and a 3 by 3 matrix throws the first, and
    multiplying a 2 by 3 by a 2 by 2 matrix throws the second. *)
Theorem C5_shape_errors :
  (forall (W : SizeT) (T : Type) (ST : Scalar T) (s : @state T) a b,
      (rows a <> rows b \/ cols a <> cols b ->
         op_add a b s = Throw incompatible_sizes_add s /\
         op_sub a b s = Throw incompatible_sizes_add s) /\
      (op_mul a b s = Throw incompatible_sizes_multiply s <-> cols a <> rows b) /\
      (forall s', op_mul a b s = Throw incompatible_sizes_multiply s' -> cols a <> rows b))
  /\ incompatible_sizes_add <> incompatible_sizes_multiply
  /\ (exists s, add_2x2_3x3 (W := size64) initial_state = Throw incompatible_sizes_add s)
  /\ (exists s, mul_2x3_2x2 (W := size64) initial_state = Throw incompatible_sizes_multiply s).
Proof.
  split; [|split; [|split]].
  - intros W T ST s a b. split; [|split].
    + intros Hne. unfold op_add, op_sub. rewrite neqb_shape by exact Hne.
      split; reflexivity.
    + split.
      * intros Hthrow Hab.
        pose proof (op_mul_compatible a b s _ _ Hab Hthrow). discriminate.
      * intros Hne. unfold op_mul. rewrite (proj2 (Z.eqb_neq _ _) Hne). reflexivity.
    + intros s' Hthrow Hab.
      pose proof (op_mul_compatible a b s _ _ Hab Hthrow). discriminate.
  - discriminate.
  - eexists. vm_compute. reflexivity.
  - eexists. vm_compute. reflexivity.
Qed.

(** ** Arithmetic on moved-from matrices (C9) *)

(** C9. On matrices in the moved-from state ([rows = 0] and [cols = 0]) the
    operators get as far as constructing their result and throw [zero_size]
    there: negation and scaling, which have no check of their own, and
    addition, subtraction and multiplication, whose shape checks two such
    matrices pass. The state is untouched. This is in particular so for the
    source of any move. *)
Theorem C9_empty_operands :
  forall (W : SizeT) (T : Type) (ST : Scalar T) (s : @state T) a b,
    rows a = 0 -> cols a = 0 -> rows b = 0 -> cols b = 0 ->
    op_neg a s = Throw zero_size s /\
    op_add a b s = Throw zero_size s /\
    op_sub a b s = Throw zero_size s /\
    op_mul a b s = Throw zero_size s /\
    (forall k, op_scale k a s = Throw zero_size s) /\
    (forall m d m' s', matrix_move m s = Ret (d, m') s' ->
       op_neg m' s' = Throw zero_size s' /\
       op_add m' m' s' = Throw zero_size s' /\
       op_sub m' m' s' = Throw zero_size s').
Proof.
  intros W T ST s a b Hra Hca Hrb Hcb.
  assert (forall (t : @state T) x y, rows x = 0 -> cols x = 0 -> rows y = 0 -> cols y = 0 ->
            op_neg x t = Throw zero_size t /\
            op_add x y t = Throw zero_size t /\
            op_sub x y t = Throw zero_size t) as Hempty.
  { intros t x y Hrx Hcx Hry Hcy. unfold op_neg, op_add, op_sub.
    rewrite eqb_shape by congruence.
    rewrite !(bind_throw _ _ _ _ _ (matrix_rc_zero _ _ t (or_introl Hrx))).
    repeat split. }
  split; [apply (Hempty s a b); assumption|].
  split; [apply (Hempty s a b); assumption|].
  split; [apply (Hempty s a b); assumption|].
  split.
  { unfold op_mul. rewrite Hca, Hrb. cbn [Z.eqb negb].
    apply bind_throw, matrix_rc_zero. left. exact Hra. }
  split.
  { intros k. unfold op_scale. apply bind_throw, matrix_rc_zero. left. exact Hra. }
  intros m d m' s' Hmove. rewrite matrix_move_run in Hmove.
  injection Hmove as _ <- <-.
  apply (Hempty s); reflexivity.
Qed.

Lemma C9_empty_operands_witness :
  op_neg (W := size64) moved_from (@initial_state Z) = Throw zero_size initial_state /\
  op_add (W := size64) moved_from moved_from (@initial_state Z)
    = Throw zero_size initial_state /\
  op_sub (W := size64) moved_from moved_from (@initial_state Z)
    = Throw zero_size initial_state.
Proof.
  pose proof (C9_empty_operands size64 Z Z_scalar initial_state moved_from moved_from
                eq_refl eq_refl eq_refl eq_refl) as (Hneg & Hadd & Hsub & _).
  repeat split; assumption.
Defined.

(** ** Buffer sizes in [size_t] arithmetic (C10) *)

Section Sizes.
Context {W : SizeT} {T : Type} {ST : Scalar T}.

Lemma size_mul_mod r c : size_mul r c = (r * c) mod 2 ^ size_bits.
Proof. reflexivity. Qed.

Lemma half_width_product k :
  size_bits = 2 * k -> size_mul (2 ^ k) (2 ^ k) = 0.
Proof.
  intros Hk. pose proof size_bits_pos as Hpos.
  unfold size_mul, wrap, size_modulus.
  rewrite <- Z.pow_add_r by lia. replace (k + k) with size_bits by lia.
  apply Z.mod_same. apply Z.pow_nonzero; lia.
Qed.

Lemma half_width_in_size k : size_bits = 2 * k -> in_size (2 ^ k) /\ 0 < 2 ^ k.
Proof.
  intros Hk. pose proof size_bits_pos as Hpos. unfold in_size, size_modulus.
  assert (0 < 2 ^ k) by (apply Z.pow_pos_nonneg; lia).
  split; [|assumption]. split; [lia|].
  apply Z.pow_lt_mono_r; lia.
Qed.

Lemma matrix_rc_throws r c (s : @state T) e s' :
  matrix_rc r c s = Throw e s' -> (r = 0 \/ c = 0) /\ e = zero_size /\ s' = s.
Proof.
  intros Hthrow.
  destruct (decide (r = 0 \/ c = 0)) as [Hz | Hnz].
  - rewrite matrix_rc_zero in Hthrow by exact Hz. injection Hthrow as <- <-. auto.
  - rewrite matrix_rc_run in Hthrow by tauto. discriminate.
Qed.

End Sizes.

(** C10. For [rows > 0] and [cols > 0] the plain and the filling
    constructor succeed with a buffer of [(rows * cols) mod 2 ^ w] elements,
    [w] being the width of [size_t]. The zero-size test looks at [rows] and
    [cols] one by one: [zero_size] is thrown exactly when one of them is 0,
    whatever their product. So for an even [w] and [rows = cols = 2 ^ (w/2)]
    the product wraps to 0: no exception, and a buffer of no elements for a
    [2 ^ w]-element shape; with [w = 64] this is [rows = cols = 2 ^ 32]. *)
Theorem C10_size_product_wraps :
  (forall (W : SizeT) (T : Type) (ST : Scalar T) (s : @state T) r c v,
      in_size r -> in_size c -> 0 < r -> 0 < c ->
      (exists buf,
          matrix_rc r c s
            = Ret (mkMatrix r c (Some (next s)) (Some (next s))) (alloc_with s buf) /\
          Z.of_nat (length buf) = (r * c) mod 2 ^ size_bits) /\
      (exists buf,
          matrix_fill r c v s
            = Ret (mkMatrix r c (Some (next s)) (Some (next s))) (alloc_with s buf) /\
          Z.of_nat (length buf) = (r * c) mod 2 ^ size_bits /\
          forall x, x ∈ buf -> x = Some v))
  /\ (forall (W : SizeT) (T : Type) (ST : Scalar T) (s : @state T) r c v,
        (matrix_rc r c s = Throw zero_size s <-> r = 0 \/ c = 0) /\
        (matrix_fill r c v s = Throw zero_size s <-> r = 0 \/ c = 0))
  /\ (forall (W : SizeT) (T : Type) (ST : Scalar T) (s : @state T) k v,
        size_bits = 2 * k ->
        in_size (2 ^ k) /\ 0 < 2 ^ k /\ 2 ^ k * 2 ^ k = 2 ^ size_bits /\
        matrix_rc (2 ^ k) (2 ^ k) s
          = Ret (mkMatrix (2 ^ k) (2 ^ k) (Some (next s)) (Some (next s)))
                (alloc_with s []) /\
        matrix_fill (2 ^ k) (2 ^ k) v s
          = Ret (mkMatrix (2 ^ k) (2 ^ k) (Some (next s)) (Some (next s)))
                (alloc_with s []))
  /\ matrix_rc (W := size64) (2 ^ 32) (2 ^ 32) (@initial_state Z)
      = Ret (mkMatrix (2 ^ 32) (2 ^ 32) (Some 0%nat) (Some 0%nat))
            (alloc_with initial_state []).
Proof.
  split; [|split; [|split]].
  - intros W T ST s r c v _ _ Hr Hc. split.
    + eexists. split; [apply matrix_rc_run; lia|].
      rewrite length_replicate, size_mul_mod.
      pose proof (wrap_range (r * c)) as Hw. unfold wrap, size_modulus in Hw. lia.
    + eexists. split; [apply matrix_fill_run; lia|]. split.
      * rewrite length_replicate, size_mul_mod.
        pose proof (wrap_range (r * c)) as Hw. unfold wrap, size_modulus in Hw. lia.
      * intros x Hx. apply elem_of_replicate in Hx. apply Hx.
  - intros W T ST s r c v. split.
    + split; [|apply matrix_rc_zero].
      intros Hthrow. apply (matrix_rc_throws r c s _ _ Hthrow).
    + split.
      * intros Hthrow.
        destruct (decide (r = 0 \/ c = 0)) as [Hz | Hnz]; [exact Hz|].
        rewrite matrix_fill_run in Hthrow by tauto. discriminate.
      * intros Hz. unfold matrix_fill.
        destruct Hz as [-> | ->]; cbn; [reflexivity|].
        rewrite orb_true_r. reflexivity.
  - intros W T ST s k v Hk.
    destruct (half_width_in_size k Hk) as [Hin Hpos].
    pose proof size_bits_pos as Hbits.
    split; [exact Hin|]. split; [exact Hpos|]. split.
    { rewrite <- Z.pow_add_r by lia. f_equal. lia. }
    split.
    + rewrite matrix_rc_run by lia. rewrite half_width_product by exact Hk. reflexivity.
    + rewrite matrix_fill_run by lia. rewrite half_width_product by exact Hk. reflexivity.
  - vm_compute. reflexivity.
Qed.

Lemma C10_size_product_wraps_witness :
  in_size (W := size64) 3 /\ in_size (W := size64) 4 /\
  exists buf,
    matrix_rc (W := size64) 3 4 (@initial_state Z)
      = Ret (mkMatrix 3 4 (Some 0%nat) (Some 0%nat)) (alloc_with initial_state buf) /\
    Z.of_nat (length buf) = (3 * 4) mod 2 ^ 64.
Proof.
  assert (in_size (W := size64) 3) as H3 by (vm_compute; split; congruence).
  assert (in_size (W := size64) 4) as H4 by (vm_compute; split; congruence).
  split; [exact H3|]. split; [exact H4|].
  apply (proj1 C10_size_product_wraps size64 Z Z_scalar initial_state 3 4 0 H3 H4);
    reflexivity.
Defined.

(** ** Construction (C2) *)

(** The statement of C2, with the buffer length read as the exact product
    [rows * cols], fails for the plain constructor on 64-bit [size_t] at
    [rows = cols = 2 ^ 32]: the constructor returns, and its buffer has no
    elements. *)
Lemma C2_counterexample :
  ~ atomic_ctor Z.mul initial_state
      (matrix_rc (W := size64) (T := Z) (2 ^ 32) (2 ^ 32) initial_state).
Proof.
  rewrite matrix_rc_run by discriminate.
  intros (_ & _ & l & buf & (Hs & _ & Hl & _) & Hlen).
  cbn in Hs. injection Hs as <-.
  vm_compute in Hl. injection Hl as <-.
  vm_compute in Hlen. discriminate.
Qed.

Section Construction.
Context {W : SizeT} {T : Type} {ST : Scalar T}.

Lemma established_fresh (n : Z -> Z -> Z) (s : @state T) r c buf :
  0 < r -> 0 < c -> Z.of_nat (length buf) = n r c ->
  established n (alloc_with s buf) (mkMatrix r c (Some (next s)) (Some (next s))).
Proof.
  intros Hr Hc Hlen. split; [exact Hr|]. split; [exact Hc|].
  exists (next s), buf. split; [|exact Hlen].
  repeat split; cbn; [apply lookup_insert_eq | lia].
Qed.

Lemma size_mul_length r c : Z.of_nat (Z.to_nat (size_mul r c)) = size_mul r c.
Proof. pose proof (wrap_range (r * c)). unfold size_mul. lia. Qed.

Lemma atomic_rc n (s : @state T) r c :
  in_size r -> in_size c -> (0 < r -> 0 < c -> size_mul r c = n r c) ->
  atomic_ctor n s (matrix_rc r c s).
Proof.
  intros [Hr _] [Hc _] Hn.
  destruct (decide (r = 0 \/ c = 0)) as [Hz | Hnz].
  - rewrite matrix_rc_zero by exact Hz. cbn. auto.
  - rewrite matrix_rc_run by tauto.
    apply established_fresh; [lia | lia |].
    rewrite length_replicate, size_mul_length. apply Hn; lia.
Qed.

Lemma atomic_fill n (s : @state T) r c v :
  in_size r -> in_size c -> (0 < r -> 0 < c -> size_mul r c = n r c) ->
  atomic_ctor n s (matrix_fill r c v s).
Proof.
  intros [Hr _] [Hc _] Hn.
  destruct (decide (r = 0 \/ c = 0)) as [Hz | Hnz].
  - unfold matrix_fill. destruct Hz as [-> | ->]; cbn; [auto|].
    rewrite orb_true_r. cbn. auto.
  - rewrite matrix_fill_run by tauto.
    apply established_fresh; [lia | lia |].
    rewrite length_replicate, size_mul_length. apply Hn; lia.
Qed.

Lemma atomic_flat n (s : @state T) r c v :
  in_size r -> in_size c -> (0 < r -> 0 < c -> size_mul r c = n r c) ->
  atomic_ctor n s (matrix_flat r c v s).
Proof.
  intros [Hr _] [Hc _] Hn.
  destruct (decide (r = 0 \/ c = 0)) as [Hz | Hnz].
  - rewrite matrix_flat_zero by exact Hz. cbn. auto.
  - destruct (decide (vec_size v = size_mul r c)) as [Hv | Hv].
    + rewrite matrix_flat_run by tauto.
      apply established_fresh; [lia | lia |].
      rewrite length_fmap. unfold vec_size in Hv. rewrite Hv. apply Hn; lia.
    + rewrite matrix_flat_wrong by tauto. cbn. auto.
Qed.

Lemma atomic_diag (s : @state T) v :
  vec_size v * vec_size v < size_modulus ->
  atomic_ctor Z.mul s (matrix_diag v s).
Proof.
  intros Hfit. destruct v as [|x v].
  - rewrite matrix_diag_zero. cbn. auto.
  - assert (0 < vec_size (x :: v)) as Hpos by (unfold vec_size; cbn; lia).
    rewrite matrix_diag_run by (try exact Hfit; lia).
    apply established_fresh; [lia | lia |].
    rewrite length_fmap. apply length_tabulate. apply Z.mul_nonneg_nonneg; lia.
Qed.

Lemma atomic_copy (s : @state T) m xs :
  holds s m xs -> atomic_ctor Z.mul s (matrix_copy m s).
Proof.
  intros Hm. rewrite (matrix_copy_run s m xs Hm).
  destruct Hm as ((Hr & Hc & _) & Hlen & _).
  apply established_fresh; assumption.
Qed.

End Construction.

(** C2, amended. Run from any state with [size_t] arguments, the plain, the
    filling and the two flattened constructors either throw
    ([zero_size], or [initializer_wrong_size] for the flattened forms) with
    the state exactly as before, so nothing allocated, or return a matrix
    with [rows > 0], [cols > 0] and an owned, freshly allocated buffer of
    [(rows * cols) mod 2 ^ w] elements; that is exactly [rows * cols]
    whenever [rows * cols < 2 ^ w]. The diagonal constructors do the same
    for a sequence of length [n] with [n * n < 2 ^ w], the copy constructor
    for a live, written source, and the move constructor for a live source.
    An exception carries no matrix. *)
Theorem C2_constructors_atomic :
  forall (W : SizeT) (T : Type) (ST : Scalar T) (s : @state T) r c v xs,
    in_size r -> in_size c ->
    (atomic_ctor size_mul s (matrix_rc r c s) /\
     atomic_ctor size_mul s (matrix_fill r c v s) /\
     atomic_ctor size_mul s (matrix_flat r c xs s) /\
     atomic_ctor size_mul s (matrix_flat_il r c xs s)) /\
    (r * c < size_modulus ->
     atomic_ctor Z.mul s (matrix_rc r c s) /\
     atomic_ctor Z.mul s (matrix_fill r c v s) /\
     atomic_ctor Z.mul s (matrix_flat r c xs s) /\
     atomic_ctor Z.mul s (matrix_flat_il r c xs s)) /\
    (vec_size xs * vec_size xs < size_modulus ->
     atomic_ctor Z.mul s (matrix_diag xs s) /\
     atomic_ctor Z.mul s (matrix_diag_il xs s)) /\
    (forall m ys, holds s m ys -> atomic_ctor Z.mul s (matrix_copy m s)) /\
    (forall m buf, live s m buf ->
       exists d m', matrix_move m s = Ret (d, m') s /\ established Z.mul s d) /\
    (r = 0 \/ c = 0 ->
     matrix_rc r c s = Throw zero_size s /\
     matrix_fill r c v s = Throw zero_size s /\
     matrix_flat r c xs s = Throw zero_size s) /\
    (r <> 0 -> c <> 0 -> vec_size xs <> size_mul r c ->
     matrix_flat r c xs s = Throw initializer_wrong_size s) /\
    matrix_diag [] s = Throw zero_size s.
Proof.
  intros W T ST s r c v xs Hr Hc.
  split; [|split; [|split; [|split; [|split; [|split; [|split]]]]]].
  - repeat split;
      [apply atomic_rc | apply atomic_fill | apply atomic_flat | apply atomic_flat];
      auto.
  - intros Hfit.
    assert (0 < r -> 0 < c -> size_mul r c = r * c) as Hexact.
    { intros Hr0 Hc0. apply size_mul_small. split; [|exact Hfit].
      apply Z.mul_nonneg_nonneg; lia. }
    repeat split;
      [apply atomic_rc | apply atomic_fill | apply atomic_flat | apply atomic_flat];
      auto.
  - intros Hfit. split; apply atomic_diag; exact Hfit.
  - intros m ys. apply atomic_copy.
  - intros m buf ((Hr0 & Hc0 & _) & Hlen & l & Hs & He & Hl & Hlt).
    eexists _, _. split; [apply matrix_move_run|].
    split; [exact Hr0|]. split; [exact Hc0|].
    exists l, buf. split; [|exact Hlen]. repeat split; assumption.
  - intros Hz. split; [apply matrix_rc_zero, Hz|]. split; [|apply matrix_flat_zero, Hz].
    unfold matrix_fill. destruct Hz as [-> | ->]; cbn; [reflexivity|].
    rewrite orb_true_r. reflexivity.
  - intros Hr0 Hc0 Hv. apply matrix_flat_wrong; assumption.
  - apply matrix_diag_zero.
Qed.

Lemma C2_constructors_atomic_witness :
  in_size (W := size64) 2 /\ in_size (W := size64) 3 /\
  atomic_ctor Z.mul initial_state
    (matrix_flat (W := size64) (T := Z) 2 3 [1; 2; 3; 4; 5; 6] initial_state) /\
  matrix_flat (W := size64) (T := Z) 2 3 [1; 2; 3; 4; 5] initial_state
    = Throw initializer_wrong_size initial_state.
Proof.
  assert (in_size (W := size64) 2) as H2 by (vm_compute; split; congruence).
  assert (in_size (W := size64) 3) as H3 by (vm_compute; split; congruence).
  split; [exact H2|]. split; [exact H3|]. split.
  - pose proof (C2_constructors_atomic size64 Z Z_scalar initial_state 2 3 0
                  [1; 2; 3; 4; 5; 6] H2 H3) as (_ & Hexact & _).
    apply Hexact. reflexivity.
  - pose proof (C2_constructors_atomic size64 Z Z_scalar initial_state 2 3 0
                  [1; 2; 3; 4; 5] H2 H3) as (_ & _ & _ & _ & _ & _ & Hwrong & _).
    apply Hwrong; vm_compute; congruence.
Defined.

(** ** Moves (C3) *)

Section Moves.
Context {W : SizeT} {T : Type} {ST : Scalar T}.

Lemma unique_reset_null p (s : @state T) : unique_reset None p s = Ret p s.
Proof. reflexivity. Qed.

Lemma unique_reset_held l buf p (s : @state T) :
  store s !! l = Some buf -> unique_reset (Some l) p s = Ret p (dealloc s l).
Proof.
  intros Hl. unfold unique_reset.
  rewrite (bind_ret _ _ _ _ _ (delete_array_run s l buf Hl)). reflexivity.
Qed.

Lemma move_assign_distinct (os : gmap obj matrix) this src tgt m (s s' : @state T) :
  this <> src -> os !! this = Some tgt -> os !! src = Some m ->
  unique_reset (smart tgt) (smart m) s = Ret (smart m) s' ->
  move_assign this src os s =
    Ret (<[src := moved_from]>
           (<[this := mkMatrix (rows m) (cols m) (smart m) (smart m)]> os)) s'.
Proof.
  intros Hne Ht Hs Hreset. unfold move_assign, field, update, bind, ret.
  repeat first [ rewrite lookup_insert_eq | rewrite lookup_insert_ne by congruence
               | rewrite Hs | rewrite Ht | rewrite Hreset | progress cbn -[unique_reset] ].
  f_equal. apply map_eq. intros o.
  destruct (decide (o = src)) as [Hos|Hos], (decide (o = this)) as [Hot|Hot];
    subst; simplify_map_eq; done.
Qed.

(** Assigning an object to itself by move: the sizes are zeroed and the raw
    pointer cleared, while [smart] keeps the buffer. *)
Remark move_assign_self (os : gmap obj matrix) this m (s : @state T) :
  os !! this = Some m ->
  move_assign this this os s = Ret (<[this := mkMatrix 0 0 None (smart m)]> os) s.
Proof.
  intros Ht. unfold move_assign, field, update, bind, ret.
  repeat first [ rewrite lookup_insert_eq | rewrite Ht | progress cbn ].
  f_equal. apply map_eq. intros o.
  destruct (decide (o = this)) as [->|]; simplify_map_eq; done.
Qed.

Lemma destroy_both (s : @state T) l buf r c :
  store s !! l = Some buf ->
  let d := mkMatrix r c (Some l) (Some l) in
  (destroy moved_from ;; destroy d) s = Ret tt (dealloc s l) /\
  (destroy d ;; destroy moved_from) s = Ret tt (dealloc s l).
Proof.
  intros Hl d. split.
  - unfold destroy at 1. cbn [smart moved_from].
    unfold bind, ret. unfold destroy. cbn [smart d]. apply (delete_array_run s l buf Hl).
  - unfold destroy. cbn [smart d moved_from].
    rewrite (bind_ret _ _ _ _ _ (delete_array_run s l buf Hl)). reflexivity.
Qed.

(** [return c;] by move construction hands over the very object an elided
    copy would. *)
Lemma return_by_move_elided (c : matrix) (s : @state T) :
  elements c = smart c -> return_by_move c s = Ret c s.
Proof.
  intros He. unfold return_by_move. rewrite (bind_ret _ _ _ _ _ (matrix_move_run c s)).
  cbn. unfold bind, ret. cbn. destruct c as [r k e p]. cbn in *. subst. reflexivity.
Qed.

End Moves.

(** C3. Move construction never fails, allocates nothing and leaves the
    state as it is: the new matrix has the source's [rows] and [cols] and
    the source's [smart] pointer, and the source ends as [moved_from]:
    [rows = 0], [cols = 0], [elements] and [smart] null. When the source
    owned the buffer at [l], the new matrix owns that same buffer with the
    same elements, and destroying source and destination, in either order,
    runs [delete[]] on [l] once and on nothing else. Move assignment from
    [m] into another object does the same after deleting the buffer the
    target held before. *)
Theorem C3_move_transfers_ownership :
  forall (T : Type) (ST : Scalar T) (s : @state T) m l buf,
    owns s m l buf ->
    (matrix_move m s
       = Ret (mkMatrix (rows m) (cols m) (smart m) (smart m), moved_from) s /\
     rows moved_from = 0 /\ cols moved_from = 0 /\
     elements moved_from = None /\ smart moved_from = None) /\
    (exists d s',
        matrix_move m s = Ret (d, moved_from) s' /\ s' = s /\
        rows d = rows m /\ cols d = cols m /\ owns s' d l buf /\
        (destroy moved_from ;; destroy d) s' = Ret tt (dealloc s' l) /\
        (destroy d ;; destroy moved_from) s' = Ret tt (dealloc s' l) /\
        freed (dealloc s' l) = l :: freed s /\
        store (dealloc s' l) = delete l (store s)) /\
    (forall (os : gmap obj matrix) this src tgt,
        this <> src -> os !! this = Some tgt -> os !! src = Some m ->
        (smart tgt = None \/
         exists lt buft, smart tgt = Some lt /\ store s !! lt = Some buft /\ lt <> l) ->
        exists d s',
          move_assign this src os s
            = Ret (<[src := moved_from]> (<[this := d]> os)) s' /\
          s' = match smart tgt with Some lt => dealloc s lt | None => s end /\
          next s' = next s /\
          rows d = rows m /\ cols d = cols m /\ owns s' d l buf /\
          (destroy moved_from ;; destroy d) s' = Ret tt (dealloc s' l) /\
          (destroy d ;; destroy moved_from) s' = Ret tt (dealloc s' l) /\
          freed (dealloc s' l) = l :: freed s').
Proof.
  intros T ST s m l buf (Hs & He & Hl & Hlt).
  split; [|split].
  - repeat split.
  - exists (mkMatrix (rows m) (cols m) (Some l) (Some l)), s.
    split; [rewrite matrix_move_run, Hs; reflexivity|].
    split; [reflexivity|]. split; [reflexivity|]. split; [reflexivity|].
    split; [repeat split; assumption|].
    destruct (destroy_both s l buf (rows m) (cols m) Hl) as [Hsd Hds].
    repeat split; assumption.
  - intros os this src tgt Hne Ht Hsrc Htgt.
    exists (mkMatrix (rows m) (cols m) (Some l) (Some l)).
    destruct Htgt as [Hnone | (lt & buft & Hsome & Hbuf & Hdiff)].
    + exists s. rewrite Hnone.
      split.
      { rewrite (move_assign_distinct os this src tgt m s s Hne Ht Hsrc).
        - rewrite Hs. reflexivity.
        - rewrite Hnone. apply unique_reset_null. }
      split; [reflexivity|]. split; [reflexivity|].
      split; [reflexivity|]. split; [reflexivity|].
      split; [repeat split; assumption|].
      destruct (destroy_both s l buf (rows m) (cols m) Hl) as [Hsd Hds].
      repeat split; assumption.
    + exists (dealloc s lt). rewrite Hsome.
      assert (store (dealloc s lt) !! l = Some buf) as Hl'.
      { cbn. rewrite lookup_delete_ne by exact Hdiff. exact Hl. }
      split.
      { rewrite (move_assign_distinct os this src tgt m s (dealloc s lt) Hne Ht Hsrc).
        - rewrite Hs. reflexivity.
        - rewrite Hsome. apply (unique_reset_held lt buft). exact Hbuf. }
      split; [reflexivity|]. split; [reflexivity|].
      split; [reflexivity|]. split; [reflexivity|].
      split; [repeat split; assumption|].
      destruct (destroy_both (dealloc s lt) l buf (rows m) (cols m) Hl') as [Hsd Hds].
      repeat split; assumption.
Qed.

Lemma C3_move_transfers_ownership_witness :
  owns scenario_state (two_by_two 0) 0%nat (Some <$> [1; 2; 3; 4]) /\
  matrix_move (two_by_two 0) scenario_state
    = Ret (two_by_two 0, moved_from) scenario_state.
Proof.
  assert (owns scenario_state (two_by_two 0) 0%nat (Some <$> [1; 2; 3; 4])) as Hown
    by (repeat split; vm_compute; lia).
  split; [exact Hown|].
  pose proof (C3_move_transfers_ownership Z Z_scalar scenario_state
                (two_by_two 0) 0%nat _ Hown) as ((Hmove & _) & _).
  exact Hmove.
Defined.

(** ** The diagonal constructor (C6) *)

Section Diagonal.
Context {W : SizeT} {T : Type} {ST : Scalar T}.

Lemma diag_entry_at (v : list T) i j :
  0 <= j < vec_size v ->
  diag_entry v (i * vec_size v + j) = if i =? j then v !!! Z.to_nat i else from_int 0.
Proof.
  intros Hj. unfold diag_entry. fold (vec_size v).
  destruct (unflatten (vec_size v) i j Hj) as [-> ->]. reflexivity.
Qed.

End Diagonal.

(** C6. For a non-empty sequence [v] of length [n] whose square [n * n] is
    a [size_t], the diagonal constructor (from a [vector] or from an
    [initializer_list]) returns an [n] by [n] matrix with [at(i, i) = v[i]]
    for every [i] and [at(i, j)] equal to the literal [0] converted to [T]
    for every [i <> j]; for the empty sequence it throws [zero_size]. *)
Theorem C6_diagonal :
  (forall (W : SizeT) (T : Type) (ST : Scalar T) (s : @state T) (v : list T),
      v <> [] -> vec_size v * vec_size v < size_modulus ->
      exists m s',
        matrix_diag v s = Ret m s' /\ matrix_diag_il v s = Ret m s' /\
        rows m = vec_size v /\ cols m = vec_size v /\
        (forall i, 0 <= i < vec_size v ->
           at_ m i i s' = Ret (v !!! Z.to_nat i) s') /\
        (forall i j, 0 <= i < vec_size v -> 0 <= j < vec_size v -> i <> j ->
           at_ m i j s' = Ret (from_int 0) s'))
  /\ (forall (W : SizeT) (T : Type) (ST : Scalar T) (s : @state T),
        matrix_diag [] s = Throw zero_size s /\
        matrix_diag_il [] s = Throw zero_size s).
Proof.
  split.
  - intros W T ST s v Hne Hfit. set (n := vec_size v) in *.
    assert (0 < n) as Hpos.
    { unfold n, vec_size. destruct v; [congruence | cbn; lia]. }
    assert (shape_ok n n) as Hshape by (repeat split; assumption).
    pose proof (matrix_diag_run v s ltac:(fold n; lia) Hfit) as Hrun. fold n in Hrun.
    eexists _, _. split; [exact Hrun|]. split; [exact Hrun|].
    split; [reflexivity|]. split; [reflexivity|].
    assert (holds (alloc_with s (Some <$> tabulate (n * n) (diag_entry v)))
              (mkMatrix n n (Some (next s)) (Some (next s)))
              (tabulate (n * n) (diag_entry v))) as Hm.
    { apply holds_result; [exact Hshape|]. apply length_tabulate. lia. }
    assert (forall i j, 0 <= i < n -> 0 <= j < n ->
              at_ (mkMatrix n n (Some (next s)) (Some (next s))) i j
                (alloc_with s (Some <$> tabulate (n * n) (diag_entry v)))
              = Ret (if i =? j then v !!! Z.to_nat i else from_int 0)
                    (alloc_with s (Some <$> tabulate (n * n) (diag_entry v)))) as Hat.
    { intros i j Hi Hj. rewrite (at_holds _ _ _ i j Hm) by assumption.
      f_equal. cbn [cols]. unfold entry.
      destruct (index_in_shape _ _ i j Hshape Hi Hj) as [Hidx _].
      rewrite lookup_total_tabulate by exact Hidx.
      apply diag_entry_at. exact Hj. }
    split.
    + intros i Hi. rewrite Hat by assumption. rewrite Z.eqb_refl. reflexivity.
    + intros i j Hi Hj Hij. rewrite Hat by assumption.
      rewrite (proj2 (Z.eqb_neq i j) Hij). reflexivity.
  - intros W T ST s. split; reflexivity.
Qed.

Lemma C6_diagonal_witness :
  exists m s',
    matrix_diag (W := size64) [1; 2; 3] (@initial_state Z) = Ret m s' /\
    rows m = 3 /\ cols m = 3 /\
    at_ (W := size64) m 1 1 s' = Ret 2 s' /\
    at_ (W := size64) m 1 2 s' = Ret 0 s'.
Proof.
  destruct (proj1 C6_diagonal size64 Z Z_scalar initial_state [1; 2; 3])
    as (m & s' & Hrun & _ & Hr & Hc & Hdiag & Hoff).
  - discriminate.
  - reflexivity.
  - exists m, s'. split; [exact Hrun|]. split; [exact Hr|]. split; [exact Hc|].
    split.
    + apply (Hdiag 1). vm_compute. split; congruence.
    + apply (Hoff 1 2); [vm_compute; split; congruence .. | discriminate].
Defined.

Section WrappedDiagonal.
Context {W : SizeT} {T : Type} {ST : Scalar T}.

(** When [n * n] wraps around to 0 for a sequence of [n > 0] elements, the
    matrix is built on [new T[0]] and its first entry is written outside
    that array. *)
Lemma matrix_diag_wrapped_empty (v : list T) (s : @state T) :
  vec_size v <> 0 -> size_mul (vec_size v) (vec_size v) = 0 ->
  matrix_diag v s = Undef.
Proof.
  intros Hn Hwrap. unfold matrix_diag.
  rewrite (proj2 (Z.eqb_neq _ _) Hn).
  rewrite (bind_ret _ _ _ _ _ (new_array_run _ s)). cbn [unique_reset].
  unfold bind at 1, ret at 1. rewrite Hwrap.
  assert (0 < vec_size v) as Hpos by (unfold vec_size in *; lia).
  apply bind_undef.
  apply for_each_undef_first; [exact Hpos|].
  apply for_each_undef_first; [exact Hpos|].
  rewrite Z.eqb_refl.
  rewrite (bind_ret _ _ _ _ _ (vec_get_run v 0 _ ltac:(lia))).
  unfold store_at.
  change (store (alloc_with s (replicate (Z.to_nat 0) None)) !! next s)
    with (<[next s := @nil (option T)]> (store s) !! next s).
  rewrite lookup_insert_eq. reflexivity.
Qed.

End WrappedDiagonal.

(** The statement of C6, read for every non-empty sequence, fails on 64-bit
    [size_t] for a sequence of [2 ^ 32] elements: the [2 ^ 64] entries of
    the matrix are counted as 0, and the constructor is undefined behaviour
    instead of returning a matrix. *)
Lemma C6_counterexample :
  vec_size ones = 2 ^ 32 /\
  matrix_diag (W := size64) ones initial_state = Undef.
Proof.
  assert (0 <= 2 ^ 32) as Hpos by (vm_compute; congruence).
  assert (vec_size ones = 2 ^ 32) as Hlen
    by (unfold vec_size, ones; rewrite length_replicate; apply Z2Nat.id, Hpos).
  split; [exact Hlen|].
  apply matrix_diag_wrapped_empty; rewrite Hlen; [discriminate | vm_compute; reflexivity].
Qed.

(** ** Addition and negation (C7) *)

Section Inverse.
Context {W : SizeT} {T : Type} {ST : Scalar T}.

Lemma tabulate_ext n (f g : Z -> T) :
  (forall z, 0 <= z < n -> f z = g z) -> tabulate n f = tabulate n g.
Proof.
  intros Hfg. apply list_eq. intros i.
  destruct (decide (Z.of_nat i < n)) as [Hi|Hi].
  - pose proof (lookup_tabulate n f (Z.of_nat i) ltac:(lia)) as Hf.
    pose proof (lookup_tabulate n g (Z.of_nat i) ltac:(lia)) as Hg.
    rewrite Nat2Z.id in Hf, Hg. rewrite Hf, Hg. f_equal. apply Hfg. lia.
  - destruct (decide (0 <= n)) as [Hn|Hn].
    + pose proof (length_tabulate n f Hn). pose proof (length_tabulate n g Hn).
      rewrite !lookup_ge_None_2 by lia. reflexivity.
    + unfold tabulate, seqZ. replace (Z.to_nat n) with O by lia. reflexivity.
Qed.

Lemma live_dealloc (s : @state T) m buf l' :
  live s m buf -> smart m <> Some l' -> live (dealloc s l') m buf.
Proof.
  intros (Hshape & Hlen & l & Hs & He & Hl & Hlt) Hne.
  split; [exact Hshape|]. split; [exact Hlen|].
  exists l. repeat split; try assumption.
  cbn. rewrite lookup_delete_ne by congruence. exact Hl.
Qed.

Lemma destroy_owner (s : @state T) m l buf :
  smart m = Some l -> store s !! l = Some buf -> destroy m s = Ret tt (dealloc s l).
Proof. intros Hs Hl. unfold destroy. rewrite Hs. apply (delete_array_run s l buf Hl). Qed.

(** The elements of [(a + b) + (-b)], given those of the two temporaries. *)
Lemma inverse_elements (xs ys : list T) n :
  tabulate n (fun z =>
      add (tabulate n (fun z => add (xs !!! Z.to_nat z) (ys !!! Z.to_nat z)) !!! Z.to_nat z)
          (tabulate n (fun z => neg (ys !!! Z.to_nat z)) !!! Z.to_nat z))
  = tabulate n (fun z =>
      add (add (xs !!! Z.to_nat z) (ys !!! Z.to_nat z)) (neg (ys !!! Z.to_nat z))).
Proof.
  apply tabulate_ext. intros z Hz.
  rewrite !lookup_total_tabulate by exact Hz. reflexivity.
Qed.

(** They are those of [a] when [(x + y) + (-y) = x] in [T]. *)
Lemma cancel_elements (xs ys : list T) n :
  (forall x y : T, add (add x y) (neg y) = x) ->
  Z.of_nat (length xs) = n ->
  tabulate n (fun z =>
      add (add (xs !!! Z.to_nat z) (ys !!! Z.to_nat z)) (neg (ys !!! Z.to_nat z)))
  = xs.
Proof.
  intros Hlaw Hlen. etransitivity; [|apply (tabulate_id xs n Hlen)].
  apply tabulate_ext. intros z Hz. apply Hlaw.
Qed.

Lemma add_then_negate_run (s : @state T) order a b xs ys :
  holds s a xs -> holds s b ys -> rows a = rows b -> cols a = cols b ->
  let l := S (S (next s)) in
  let r := mkMatrix (rows a) (cols a) (Some l) (Some l) in
  let zs := tabulate (rows a * cols a) (fun z =>
              add (add (xs !!! Z.to_nat z) (ys !!! Z.to_nat z))
                  (neg (ys !!! Z.to_nat z))) in
  exists s',
    add_then_negate order a b s = Ret r s' /\
    holds s' r zs /\ holds s' a xs /\ holds s' b ys /\
    freed s' = next s :: S (next s) :: freed s.
Proof.
  intros Ha Hb Hr Hc l r zs.
  pose proof Ha as (Hshape & Hlen & _). rewrite length_fmap in Hlen.
  pose proof (shape_nonneg _ _ Hshape) as Hn.
  set (n := rows a * cols a) in *.
  set (sums := tabulate n (fun z => add (xs !!! Z.to_nat z) (ys !!! Z.to_nat z))).
  set (negs := tabulate n (fun z => neg (ys !!! Z.to_nat z))).
  assert (Z.of_nat (length zs) = n) as Hzs by apply length_tabulate, Hn.
  destruct order.
  - (* a + b first *)
    set (s1 := alloc_with s (Some <$> sums)).
    set (t1 := mkMatrix (rows a) (cols a) (Some (next s)) (Some (next s))).
    assert (holds s1 t1 sums) as Ht1
      by (apply holds_result; [exact Hshape | apply length_tabulate, Hn]).
    set (s2 := alloc_with s1 (Some <$> negs)).
    set (t2 := mkMatrix (rows a) (cols a) (Some (next s1)) (Some (next s1))).
    assert (holds s2 t2 negs) as Ht2
      by (apply holds_result; [exact Hshape | apply length_tabulate, Hn]).
    set (s3 := alloc_with s2 (Some <$> zs)).
    assert (holds s3 r zs) as Hres by (apply holds_result; assumption).
    exists (dealloc (dealloc s3 (next s1)) (next s)).
    split.
    + unfold add_then_negate.
      rewrite (bind_ret _ _ _ _ _ (op_add_run s a b xs ys Ha Hb Hr Hc)).
      fold n sums s1 t1.
      pose proof (op_neg_run s1 b ys (holds_alloc _ _ _ _ Hb)) as Hneg.
      rewrite <- Hr, <- Hc in Hneg. fold n negs s2 t2 in Hneg.
      rewrite (bind_ret _ _ _ _ _ Hneg).
      pose proof (op_add_run s2 t1 t2 sums negs (holds_alloc _ _ _ _ Ht1) Ht2
                    eq_refl eq_refl) as Hadd.
      cbn [rows cols t1] in Hadd. fold n in Hadd.
      replace (tabulate n (fun z => add (sums !!! Z.to_nat z) (negs !!! Z.to_nat z)))
        with zs in Hadd by (symmetry; apply (inverse_elements xs ys n)).
      rewrite (bind_ret _ _ _ _ _ Hadd).
      rewrite (bind_ret _ _ _ tt (dealloc s3 (next s1))).
      2:{ apply (destroy_owner _ t2 (next s1) (Some <$> negs)); [reflexivity|].
          cbn. rewrite lookup_insert_ne by lia. apply lookup_insert_eq. }
      rewrite (bind_ret _ _ _ tt (dealloc (dealloc s3 (next s1)) (next s))).
      2:{ apply (destroy_owner _ t1 (next s) (Some <$> sums)); [reflexivity|].
          cbn. rewrite lookup_delete_ne by lia.
          rewrite !lookup_insert_ne by lia. apply lookup_insert_eq. }
      reflexivity.
    + assert (forall m zs, holds s m zs ->
                holds (dealloc (dealloc s3 (next s1)) (next s)) m zs) as Hkeep.
      { intros m ms Hm. pose proof Hm as (_ & _ & k & Hk & _ & _ & Hklt).
        apply live_dealloc; [apply live_dealloc|].
        - do 3 apply holds_alloc. exact Hm.
        - rewrite Hk. cbn. intros [= ->]. lia.
        - rewrite Hk. intros [= ->]. lia. }
      split; [|split; [apply Hkeep, Ha | split; [apply Hkeep, Hb | reflexivity]]].
      apply live_dealloc; [apply live_dealloc|]; try exact Hres.
      * cbn. intros [= Heq]. lia.
      * cbn. intros [= Heq]. lia.
  - (* -b first *)
    set (s1 := alloc_with s (Some <$> negs)).
    set (t2 := mkMatrix (rows a) (cols a) (Some (next s)) (Some (next s))).
    assert (holds s1 t2 negs) as Ht2
      by (apply holds_result; [exact Hshape | apply length_tabulate, Hn]).
    set (s2 := alloc_with s1 (Some <$> sums)).
    set (t1 := mkMatrix (rows a) (cols a) (Some (next s1)) (Some (next s1))).
    assert (holds s2 t1 sums) as Ht1
      by (apply holds_result; [exact Hshape | apply length_tabulate, Hn]).
    set (s3 := alloc_with s2 (Some <$> zs)).
    assert (holds s3 r zs) as Hres by (apply holds_result; assumption).
    exists (dealloc (dealloc s3 (next s1)) (next s)).
    split.
    + unfold add_then_negate.
      pose proof (op_neg_run s b ys Hb) as Hneg.
      rewrite <- Hr, <- Hc in Hneg. fold n negs s1 t2 in Hneg.
      rewrite (bind_ret _ _ _ _ _ Hneg).
      pose proof (op_add_run s1 a b xs ys (holds_alloc _ _ _ _ Ha)
                    (holds_alloc _ _ _ _ Hb) Hr Hc) as Hsum.
      fold n sums s2 t1 in Hsum.
      rewrite (bind_ret _ _ _ _ _ Hsum).
      pose proof (op_add_run s2 t1 t2 sums negs Ht1 (holds_alloc _ _ _ _ Ht2)
                    eq_refl eq_refl) as Hadd.
      cbn [rows cols t1] in Hadd. fold n in Hadd.
      replace (tabulate n (fun z => add (sums !!! Z.to_nat z) (negs !!! Z.to_nat z)))
        with zs in Hadd by (symmetry; apply (inverse_elements xs ys n)).
      rewrite (bind_ret _ _ _ _ _ Hadd).
      rewrite (bind_ret _ _ _ tt (dealloc s3 (next s1))).
      2:{ apply (destroy_owner _ t1 (next s1) (Some <$> sums)); [reflexivity|].
          cbn. rewrite lookup_insert_ne by lia. apply lookup_insert_eq. }
      rewrite (bind_ret _ _ _ tt (dealloc (dealloc s3 (next s1)) (next s))).
      2:{ apply (destroy_owner _ t2 (next s) (Some <$> negs)); [reflexivity|].
          cbn. rewrite lookup_delete_ne by lia.
          rewrite !lookup_insert_ne by lia. apply lookup_insert_eq. }
      reflexivity.
    + assert (forall m zs, holds s m zs ->
                holds (dealloc (dealloc s3 (next s1)) (next s)) m zs) as Hkeep.
      { intros m ms Hm. pose proof Hm as (_ & _ & k & Hk & _ & _ & Hklt).
        apply live_dealloc; [apply live_dealloc|].
        - do 3 apply holds_alloc. exact Hm.
        - rewrite Hk. cbn. intros [= ->]. lia.
        - rewrite Hk. intros [= ->]. lia. }
      split; [|split; [apply Hkeep, Ha | split; [apply Hkeep, Hb | reflexivity]]].
      apply live_dealloc; [apply live_dealloc|]; try exact Hres.
      * cbn. intros [= Heq]. lia.
      * cbn. intros [= Heq]. lia.
Qed.

End Inverse.

(** C7. For live, written matrices [a] and [b] of equal shape,
    [(a + b) + (-b)], with its operands evaluated in either order and its
    temporaries destroyed, is a matrix of the shape of [a] whose entry
    [(i, j)] is [(a(i,j) + b(i,j)) + (-b(i,j))], computed in [T]; [a] and [b]
    keep their elements. The result agrees with [a] at a position exactly
    when [(x + y) + (-y) = x] holds for the two elements there. When that
    equation holds for all [x] and [y] of [T], the result holds exactly the
    elements of [a], and [at(i, j)] agrees on the two at every position. *)
Theorem C7_add_then_negate :
  forall (W : SizeT) (T : Type) (ST : Scalar T) (s : @state T) order a b xs ys,
    holds s a xs -> holds s b ys -> rows a = rows b -> cols a = cols b ->
    exists r s' zs,
      add_then_negate order a b s = Ret r s' /\
      rows r = rows a /\ cols r = cols a /\
      holds s' r zs /\ holds s' a xs /\ holds s' b ys /\
      (forall i j, 0 <= i < rows a -> 0 <= j < cols a ->
         at_ r i j s'
           = Ret (add (add (entry (cols a) xs i j) (entry (cols b) ys i j))
                      (neg (entry (cols b) ys i j))) s' /\
         at_ a i j s' = Ret (entry (cols a) xs i j) s' /\
         (at_ r i j s' = at_ a i j s' <->
          add (add (entry (cols a) xs i j) (entry (cols b) ys i j))
              (neg (entry (cols b) ys i j)) = entry (cols a) xs i j)) /\
      ((forall x y : T, add (add x y) (neg y) = x) ->
       zs = xs /\
       forall i j, 0 <= i < rows a -> 0 <= j < cols a ->
         at_ r i j s' = at_ a i j s').
Proof.
  intros W T ST s order a b xs ys Ha Hb Hr Hc.
  destruct (add_then_negate_run s order a b xs ys Ha Hb Hr Hc)
    as (s' & Hrun & Hres & Ha' & Hb' & _).
  pose proof Ha as (Hshape & Hlen & _). rewrite length_fmap in Hlen.
  eexists _, s', _. split; [exact Hrun|].
  split; [reflexivity|]. split; [reflexivity|].
  split; [exact Hres|]. split; [exact Ha'|]. split; [exact Hb'|].
  assert (forall i j, 0 <= i < rows a -> 0 <= j < cols a ->
            at_ (mkMatrix (rows a) (cols a) (Some (S (S (next s)))) (Some (S (S (next s)))))
                i j s'
            = Ret (add (add (entry (cols a) xs i j) (entry (cols b) ys i j))
                       (neg (entry (cols b) ys i j))) s') as Hentry.
  { intros i j Hi Hj.
    rewrite (at_holds s' _ _ i j Hres) by assumption. f_equal.
    unfold entry. cbn [cols]. rewrite <- Hc.
    destruct (index_in_shape _ _ i j Hshape Hi Hj) as [Hidx _].
    rewrite lookup_total_tabulate by exact Hidx. reflexivity. }
  split.
  - intros i j Hi Hj. rewrite (Hentry i j Hi Hj).
    rewrite (at_holds s' a xs i j Ha') by assumption.
    split; [reflexivity|]. split; [reflexivity|]. split.
    + intros [= Heq]. exact Heq.
    + intros ->. reflexivity.
  - intros Hlaw. split; [apply (cancel_elements xs ys _ Hlaw Hlen)|].
    intros i j Hi Hj. rewrite (Hentry i j Hi Hj).
    rewrite (at_holds s' a xs i j Ha') by assumption. rewrite Hlaw. reflexivity.
Qed.

Lemma C7_add_then_negate_witness :
  exists r s',
    add_then_negate (W := size64) true (two_by_two 0) (two_by_two 1) scenario_state
      = Ret r s' /\
    holds (W := size64) s' r [1; 2; 3; 4] /\
    at_ (W := size64) r 1 0 s' = at_ (W := size64) (two_by_two 0) 1 0 s'.
Proof.
  assert (holds (W := size64) scenario_state (two_by_two 0) [1; 2; 3; 4]) as Ha
    by holds_at 0%nat.
  assert (holds (W := size64) scenario_state (two_by_two 1) [5; 6; 7; 8]) as Hb
    by holds_at 1%nat.
  destruct (C7_add_then_negate size64 Z Z_scalar
              scenario_state true (two_by_two 0) (two_by_two 1) _ _ Ha Hb
              eq_refl eq_refl)
    as (r & s' & zs & Hrun & _ & _ & Hres & _ & _ & _ & Hexact).
  destruct (Hexact ltac:(intros x y; cbn; lia)) as [-> Hat].
  exists r, s'. split; [exact Hrun|]. split; [exact Hres|].
  apply (Hat 1 0); vm_compute; split; congruence.
Defined.

(** What [out << x] writes for some [double]s. With 6 significant digits
    the two values that the counterexample below tells apart are both
    written ["0.1"]. *)
Example show_double_texts :
  show_double <$> [tenth; 0x1.999999999999cp-4; 7; -42; 0.5; 2.5; 0.125;
                   PrimFloat.div 1 3; 100000; 1000000; 1234567;
                   PrimFloat.div 1 100000; PrimFloat.div 1 0]%float
  = ["0.1"; "0.1"; "7"; "-42"; "0.5"; "2.5"; "0.125";
     "0.333333"; "100000"; "1e+06"; "1.23457e+06";
     "1e-05"; "inf"]%string.
Proof. vm_compute. reflexivity. Qed.

(** The statement of C7 fails for [matrix<double>], the instantiation of
    [main]: for the 1 by 1 matrices [a = {0.1}] and [b = {0.2}],
    [(a + b) + (-b)] holds [0.10000000000000003], the [double] two units in
    the last place above [0.1], in either order of evaluation. *)
Lemma C7_counterexample :
  (exists s',
     inverse_on_doubles (W := size64) true initial_state
       = Ret (0x1.999999999999cp-4%float, tenth) s') /\
  (exists s',
     inverse_on_doubles (W := size64) false initial_state
       = Ret (0x1.999999999999cp-4%float, tenth) s') /\
  PrimFloat.eqb 0x1.999999999999cp-4 tenth = false /\
  0x1.999999999999cp-4%float <> tenth.
Proof.
  split; [eexists; vm_compute; reflexivity|].
  split; [eexists; vm_compute; reflexivity|].
  assert (PrimFloat.eqb 0x1.999999999999cp-4 tenth = false) as Hne
    by (vm_compute; reflexivity).
  split; [exact Hne|].
  intros Heq. rewrite Heq in Hne. vm_compute in Hne. discriminate.
Qed.

(** ** Formatting (C8) *)

Section Formatting.
Context {W : SizeT} {T : Type} {ST : Scalar T}.

Lemma append_assoc (a b c : string) : ((a ++ b) ++ c = a ++ b ++ c)%string.
Proof.
  induction a as [|ch a IH]; [reflexivity|].
  change (String ch ((a ++ b) ++ c) = String ch (a ++ b ++ c))%string.
  f_equal. exact IH.
Qed.

Lemma append_empty_r (a : string) : (a ++ "" = a)%string.
Proof.
  induction a as [|ch a IH]; [reflexivity|].
  change (String ch (a ++ "") = String ch a)%string.
  f_equal. exact IH.
Qed.

Lemma join_snoc (ts : list string) (t : string) :
  join (ts ++ [t]) = (join ts ++ t)%string.
Proof.
  induction ts as [|u ts IH].
  - apply append_empty_r.
  - change (join ((u :: ts) ++ [t])) with (u ++ join (ts ++ [t]))%string.
    change (join (u :: ts)) with (u ++ join ts)%string.
    rewrite IH. symmetry. apply append_assoc.
Qed.

Lemma seqZ_snoc n : 0 <= n -> seqZ 0 (n + 1) = seqZ 0 n ++ [n].
Proof.
  intros Hn. rewrite seqZ_app by lia. f_equal.
Qed.

Lemma right_justify_narrow w (t : string) :
  w <= Z.of_nat (String.length t) -> right_justify w t = t.
Proof.
  intros Hw. unfold right_justify.
  replace (Z.to_nat (w - Z.of_nat (String.length t))) with O by lia. reflexivity.
Qed.

Lemma put_unpadded (t : string) (out : ostream) :
  width out = 0 -> put t out = mkStream (written out ++ t) 0.
Proof.
  intros Hw. unfold put. rewrite Hw, right_justify_narrow by lia. reflexivity.
Qed.

Lemma row_of_entries c (xs : list T) r i :
  shape_ok r c -> Z.of_nat (length xs) = r * c -> 0 <= i < r ->
  row_of c xs i = (fun j => entry c xs i j) <$> seqZ 0 c.
Proof.
  intros Hshape Hlen Hi. pose proof Hshape as (Hr & Hc & _).
  apply list_eq. intros k. unfold row_of. rewrite list_lookup_fmap.
  destruct (decide (Z.of_nat k < c)) as [Hk|Hk].
  - destruct (index_in_shape r c i (Z.of_nat k) Hshape Hi ltac:(lia)) as [Hidx _].
    rewrite lookup_take_lt by lia. rewrite lookup_drop.
    rewrite lookup_seqZ_lt by exact Hk. cbn. unfold entry.
    assert (0 <= i * c) by (apply Z.mul_nonneg_nonneg; lia).
    replace (Z.to_nat (i * c + (0 + Z.of_nat k))) with (Z.to_nat (i * c) + k)%nat by lia.
    apply list_lookup_lookup_total_lt. lia.
  - rewrite lookup_take_ge by lia. rewrite lookup_seqZ_ge by lia. reflexivity.
Qed.

(** The inner loop of [operator<<] writes the elements of row [i]. *)
Lemma print_row (s : @state T) m xs i (out : ostream) :
  holds s m xs -> 0 <= i < rows m -> width out = 0 ->
  for_loop (cols m) (fun j out =>
      do w <- get_output_width;
      let out := setw w out in
      do x <- call m i j;
      let out := put (show x) out in
      ret (put " " out)) out s
  = Ret (mkStream (written out ++
                   join (element_text (output_width s) <$> row_of (cols m) xs i)) 0) s.
Proof.
  intros Hm Hi Hw. pose proof Hm as (Hshape & Hlen & _). rewrite length_fmap in Hlen.
  pose proof Hshape as (Hr & Hc & _).
  rewrite (row_of_entries _ _ _ _ Hshape Hlen Hi).
  set (cellt := fun j => element_text (output_width s) (entry (cols m) xs i j)).
  destruct (for_loop_inv
    (fun j o st => st = s /\
       o = mkStream (written out ++ join (cellt <$> seqZ 0 j)) 0)
    (fun j out =>
      do w <- get_output_width;
      let out := setw w out in
      do x <- call m i j;
      let out := put (show x) out in
      ret (put " " out)) (cols m) out s) as (o' & s' & Hrun & -> & ->).
  - lia.
  - split; [reflexivity|]. cbn. rewrite append_empty_r.
    destruct out as [wr wd]. cbn in *. subst. reflexivity.
  - intros j o st Hj [-> ->].
    exists (mkStream (written out ++ join (cellt <$> seqZ 0 (j + 1))) 0), s.
    split; [|split; reflexivity].
    unfold get_output_width at 1. unfold bind at 1.
    rewrite (bind_ret _ _ _ _ _ (call_holds s s m xs i j Hm (fun _ _ => eq_refl) Hi Hj)).
    unfold ret. f_equal.
    rewrite put_unpadded by reflexivity. f_equal.
    unfold put, setw. cbn [written width].
    rewrite seqZ_snoc by lia. rewrite fmap_app.
    change (cellt <$> [j]) with [cellt j]. rewrite join_snoc.
    unfold cellt at 2, element_text. rewrite !append_assoc. reflexivity.
  - rewrite Hrun. rewrite <- list_fmap_compose. reflexivity.
Qed.

Lemma print_live (s : @state T) m xs (out : ostream) :
  holds s m xs -> width out = 0 ->
  print out m s
  = Ret (mkStream (written out ++
                   matrix_text (output_width s) (rows m) (cols m) xs) 0) s.
Proof.
  intros Hm Hw. pose proof Hm as ((Hr & Hc & _) & _).
  unfold print. rewrite (proj2 (Z.eqb_neq (rows m) 0)) by lia. cbn [andb].
  set (rowt := fun i => row_text (output_width s) (row_of (cols m) xs i)).
  destruct (for_loop_inv
    (fun i o st => st = s /\
       o = mkStream (written out ++ join (rowt <$> seqZ 0 i)) 0)
    (fun i out =>
      let out := put "( " out in
      do out <- for_loop (cols m) (fun j out =>
        do w <- get_output_width;
        let out := setw w out in
        do x <- call m i j;
        let out := put (show x) out in
        ret (put " " out)) out;
      ret (put (")" ++ newline) out)) (rows m) out s) as (o' & s' & Hrun & -> & ->).
  - lia.
  - split; [reflexivity|]. cbn. rewrite append_empty_r.
    destruct out as [wr wd]. cbn in *. subst. reflexivity.
  - intros i o st Hi [-> ->].
    exists (mkStream (written out ++ join (rowt <$> seqZ 0 (i + 1))) 0), s.
    split; [|split; reflexivity].
    cbv zeta. rewrite put_unpadded by reflexivity. cbn [written].
    rewrite (bind_ret _ _ _ _ _ (print_row s m xs i (mkStream _ 0) Hm Hi eq_refl)).
    unfold ret. f_equal. rewrite put_unpadded by reflexivity. f_equal.
    cbn [written].
    rewrite seqZ_snoc by lia. rewrite fmap_app.
    change (rowt <$> [i]) with [rowt i]. rewrite join_snoc.
    unfold rowt at 2, row_text. rewrite !append_assoc. reflexivity.
  - rewrite (bind_ret _ _ _ _ _ Hrun). unfold ret. f_equal.
    rewrite put_unpadded by reflexivity. cbn [written]. f_equal.
    unfold matrix_text. rewrite append_assoc. reflexivity.
Qed.

Lemma print_empty (s : @state T) m (out : ostream) :
  rows m = 0 -> cols m = 0 -> width out = 0 ->
  print out m s = Ret (mkStream (written out ++ empty_text) 0) s.
Proof.
  intros Hr Hc Hw. unfold print. rewrite Hr, Hc. cbn [Z.eqb andb].
  unfold ret. f_equal. apply put_unpadded. exact Hw.
Qed.

End Formatting.

(** C8. Written to a stream whose field width is 0, a live matrix with all
    elements written comes out as its rows in order, each as ["( "], the
    elements right-justified to the current [output_width] and each followed
    by a space, then [")"] and a newline; one more newline, a blank line,
    follows the last row. The matrix and the program state are unchanged.
    [output_width] is one variable of the program state, not of a matrix:
    it starts as 5, [set_output_width] changes it and nothing else, and every
    matrix is printed with its current value. A matrix with [rows = 0] and
    [cols = 0] comes out as ["()"] and a newline. *)
Theorem C8_formatting :
  (forall (W : SizeT) (T : Type) (ST : Scalar T) (s : @state T) m xs out,
      holds s m xs -> width out = 0 ->
      print out m s
      = Ret (mkStream (written out ++
                       matrix_text (output_width s) (rows m) (cols m) xs) 0) s)
  /\ (forall (W : SizeT) (T : Type) (ST : Scalar T) (s : @state T) m out,
        rows m = 0 -> cols m = 0 -> width out = 0 ->
        print out m s = Ret (mkStream (written out ++ empty_text) 0) s)
  /\ (forall T : Type, output_width (@initial_state T) = 5)
  /\ (forall (T : Type) (s : @state T) w,
        set_output_width w s
        = Ret tt (mkState (store s) (next s) (freed s) w))
  /\ (forall (T : Type) (ST : Scalar T) w (t : string),
        right_justify w t
        = (spaces (Z.to_nat (w - Z.of_nat (String.length t))) ++ t)%string)
  /\ (exists s, print_2x3 (W := size64) None initial_state
        = Ret (mkStream ("(     1     2     3 )" ++ newline ++
                         "(     4    50     6 )" ++ newline ++ newline) 0) s)
  /\ (exists s, print_2x3 (W := size64) (Some 3) initial_state
        = Ret (mkStream ("(   1   2   3 )" ++ newline ++
                         "(   4  50   6 )" ++ newline ++ newline) 0) s).
Proof.
  split; [|split; [|split; [|split; [|split; [|split]]]]].
  - intros W T ST s m xs out Hm Hw. apply print_live; assumption.
  - intros W T ST s m out Hr Hc Hw. apply print_empty; assumption.
  - reflexivity.
  - reflexivity.
  - reflexivity.
  - eexists. vm_compute. reflexivity.
  - eexists. vm_compute. reflexivity.
Qed.

Lemma C8_formatting_witness :
  holds (W := size64) scenario_state (two_by_two 0) [1; 2; 3; 4] /\
  print (W := size64) (mkStream "" 0) (two_by_two 0) scenario_state
  = Ret (mkStream ("(     1     2 )" ++ newline ++
                   "(     3     4 )" ++ newline ++ newline) 0) scenario_state.
Proof.
  assert (holds (W := size64) scenario_state (two_by_two 0) [1; 2; 3; 4]) as Ha
    by holds_at 0%nat.
  split; [exact Ha|].
  exact (proj1 C8_formatting size64 Z Z_scalar scenario_state (two_by_two 0)
           [1; 2; 3; 4] (mkStream "" 0) Ha eq_refl).
Defined.

(** ** Further properties of the class *)

(** The two operands of the concrete scenario are live in [scenario_state]. *)
Ltac scenario_operands Ha Hb :=
  assert (holds (W := size64) scenario_state (two_by_two 0) [1; 2; 3; 4]) as Ha
    by holds_at 0%nat;
  assert (holds (W := size64) scenario_state (two_by_two 1) [5; 6; 7; 8]) as Hb
    by holds_at 1%nat.

(** *** What the constructors store *)

Section Results.
Context {W : SizeT} {T : Type} {ST : Scalar T}.

(** The matrix an operator or constructor returns, read back with [at]. *)
Lemma result_entries (s : @state T) r k (f : Z -> T) :
  shape_ok r k ->
  let c := mkMatrix r k (Some (next s)) (Some (next s)) in
  let s' := alloc_with s (Some <$> tabulate (r * k) f) in
  holds s' c (tabulate (r * k) f) /\
  forall i j, 0 <= i < r -> 0 <= j < k -> at_ c i j s' = Ret (f (i * k + j)) s'.
Proof.
  intros Hshape c s'.
  assert (holds s' c (tabulate (r * k) f)) as Hc.
  { apply holds_result; [exact Hshape|]. apply length_tabulate, shape_nonneg, Hshape. }
  split; [exact Hc|]. intros i j Hi Hj.
  rewrite (at_holds s' c _ i j Hc) by assumption. f_equal.
  unfold entry. cbn [cols c].
  destruct (index_in_shape _ _ i j Hshape Hi Hj) as [Hidx _].
  apply lookup_total_tabulate. exact Hidx.
Qed.

Lemma tabulate_const n (v : T) : 0 <= n -> tabulate n (fun _ => v) = replicate (Z.to_nat n) v.
Proof.
  intros Hn. apply list_eq. intros i.
  destruct (decide (Z.of_nat i < n)) as [Hi|Hi].
  - pose proof (lookup_tabulate n (fun _ => v) (Z.of_nat i) ltac:(lia)) as Ht.
    rewrite Nat2Z.id in Ht. rewrite Ht. symmetry. apply lookup_replicate_2. lia.
  - pose proof (length_tabulate n (fun _ => v) Hn).
    rewrite !lookup_ge_None_2; [reflexivity | rewrite length_replicate; lia | lia].
Qed.

End Results.

(** X1. For sizes [r], [c] greater than 0 whose product fits [size_t], the
    filling constructor [matrix(r, c, v)] returns a live [r] by [c] matrix
    whose buffer holds [r * c] copies of [v]: [at(i, j)] returns [v] at
    every position of the matrix. *)
Theorem fill_reads_back :
  forall (W : SizeT) (T : Type) (ST : Scalar T) (s : @state T) r c v,
    shape_ok r c ->
    exists m s',
      matrix_fill r c v s = Ret m s' /\
      rows m = r /\ cols m = c /\
      holds s' m (replicate (Z.to_nat (r * c)) v) /\
      forall i j, 0 <= i < r -> 0 <= j < c -> at_ m i j s' = Ret v s'.
Proof.
  intros W T ST s r c v Hshape. pose proof Hshape as (Hr & Hc & Hfit).
  pose proof (shape_nonneg _ _ Hshape) as Hn.
  eexists _, _. split.
  { rewrite matrix_fill_run by lia. rewrite size_mul_small by lia.
    rewrite <- fmap_replicate. rewrite <- (tabulate_const (r * c) v Hn). reflexivity. }
  destruct (result_entries s r c (fun _ => v) Hshape) as [Hm Hat].
  split; [reflexivity|]. split; [reflexivity|]. split.
  - rewrite <- (tabulate_const (r * c) v Hn). exact Hm.
  - exact Hat.
Qed.

Lemma fill_reads_back_witness :
  shape_ok (W := size64) 2 3 /\
  exists m s',
    matrix_fill (W := size64) 2 3 7 initial_state = Ret m s' /\
    holds (W := size64) s' m [7; 7; 7; 7; 7; 7] /\
    at_ (W := size64) m 1 2 s' = Ret 7 s'.
Proof.
  assert (shape_ok (W := size64) 2 3) as Hshape
    by (repeat split; vm_compute; congruence).
  split; [exact Hshape|].
  destruct (fill_reads_back size64 Z Z_scalar initial_state 2 3 7 Hshape)
    as (m & s' & Hrun & _ & _ & Hm & Hat).
  exists m, s'. split; [exact Hrun|]. split; [exact Hm|].
  apply Hat; lia.
Defined.

(** X2. For sizes [r], [c] greater than 0 whose product fits [size_t] and
    a sequence [v] of [r * c] elements, the flattened constructor, from a
    [vector] or from an [initializer_list] alike, returns a live [r] by [c]
    matrix whose buffer holds [v] in order, so that [at(i, j)] is
    [v[i * c + j]]: the sequence is stored row by row. *)
Theorem flat_reads_back :
  forall (W : SizeT) (T : Type) (ST : Scalar T) (s : @state T) r c (v : list T),
    shape_ok r c -> vec_size v = r * c ->
    exists m s',
      matrix_flat r c v s = Ret m s' /\
      matrix_flat_il r c v s = Ret m s' /\
      rows m = r /\ cols m = c /\ holds s' m v /\
      forall i j, 0 <= i < r -> 0 <= j < c ->
        at_ m i j s' = Ret (v !!! Z.to_nat (i * c + j)) s'.
Proof.
  intros W T ST s r c v Hshape Hv. pose proof Hshape as (Hr & Hc & Hfit).
  pose proof (shape_nonneg _ _ Hshape) as Hn.
  assert (matrix_flat r c v s
          = Ret (mkMatrix r c (Some (next s)) (Some (next s))) (alloc_with s (Some <$> v)))
    as Hrun.
  { apply matrix_flat_run; [lia | lia |]. rewrite size_mul_small by lia. exact Hv. }
  eexists _, _. split; [exact Hrun|]. split; [exact Hrun|].
  assert (holds (alloc_with s (Some <$> v)) (mkMatrix r c (Some (next s)) (Some (next s))) v)
    as Hm by (apply holds_result; assumption).
  split; [reflexivity|]. split; [reflexivity|]. split; [exact Hm|].
  intros i j Hi Hj. rewrite (at_holds _ _ _ i j Hm) by assumption. reflexivity.
Qed.

Lemma flat_reads_back_witness :
  shape_ok (W := size64) 2 2 /\ vec_size [1; 2; 3; 4] = 2 * 2 /\
  exists m s',
    matrix_flat_il (W := size64) 2 2 [1; 2; 3; 4] initial_state = Ret m s' /\
    at_ (W := size64) m 1 0 s' = Ret 3 s'.
Proof.
  assert (shape_ok (W := size64) 2 2) as Hshape
    by (repeat split; vm_compute; congruence).
  split; [exact Hshape|]. split; [reflexivity|].
  destruct (flat_reads_back size64 Z Z_scalar initial_state 2 2 [1; 2; 3; 4]
              Hshape eq_refl)
    as (m & s' & _ & Hrun & _ & _ & _ & Hat).
  exists m, s'. split; [exact Hrun|].
  apply (Hat 1 0); lia.
Defined.

(** *** Elementwise operators *)

Section Pointwise.
Context {W : SizeT} {T : Type} {ST : Scalar T}.

(** What the elementwise operators have in common, given the run lemma of
    the operator. *)
Lemma pointwise_result (s : @state T) (a : matrix) (xs : list T) (f : Z -> T)
    (run : outcome matrix) :
  holds s a xs ->
  run = Ret (mkMatrix (rows a) (cols a) (Some (next s)) (Some (next s)))
            (alloc_with s (Some <$> tabulate (rows a * cols a) f)) ->
  exists c zs,
    run = Ret c (alloc_with s (Some <$> zs)) /\
    rows c = rows a /\ cols c = cols a /\ smart c = Some (next s) /\
    holds (alloc_with s (Some <$> zs)) c zs /\
    holds (alloc_with s (Some <$> zs)) a xs /\
    forall i j, 0 <= i < rows a -> 0 <= j < cols a ->
      at_ c i j (alloc_with s (Some <$> zs))
      = Ret (f (i * cols a + j)) (alloc_with s (Some <$> zs)).
Proof.
  intros Ha Hrun. pose proof Ha as (Hshape & _).
  destruct (result_entries s (rows a) (cols a) f Hshape) as [Hc Hat].
  eexists _, _. split; [exact Hrun|].
  do 3 (split; [reflexivity|]).
  split; [exact Hc|]. split; [apply holds_alloc, Ha|]. exact Hat.
Qed.

End Pointwise.

(** X3. For live matrices [a] and [b] of the same shape, [a + b] returns a
    matrix of that shape in a freshly allocated buffer whose entry [(i, j)],
    read with [at], is [a(i,j) + b(i,j)]; nothing is deleted and both
    operands keep their elements. *)
Theorem sum_entries :
  forall (W : SizeT) (T : Type) (ST : Scalar T) (s : @state T) a b xs ys,
    holds s a xs -> holds s b ys -> rows a = rows b -> cols a = cols b ->
    exists c s',
      op_add a b s = Ret c s' /\
      rows c = rows a /\ cols c = cols a /\ smart c = Some (next s) /\
      freed s' = freed s /\
      holds s' a xs /\ holds s' b ys /\
      forall i j, 0 <= i < rows a -> 0 <= j < cols a ->
        at_ c i j s' = Ret (add (entry (cols a) xs i j) (entry (cols b) ys i j)) s'.
Proof.
  intros W T ST s a b xs ys Ha Hb Hr Hc.
  destruct (pointwise_result s a xs _ _ Ha (op_add_run s a b xs ys Ha Hb Hr Hc))
    as (c & zs & Hrun & Hrc & Hcc & Hsm & _ & Ha' & Hat).
  exists c, (alloc_with s (Some <$> zs)). split; [exact Hrun|].
  do 3 (split; [assumption|]). split; [reflexivity|].
  split; [exact Ha'|]. split; [apply holds_alloc, Hb|].
  intros i j Hi Hj. rewrite Hat by assumption. unfold entry. rewrite Hc. reflexivity.
Qed.

Lemma sum_entries_witness :
  holds (W := size64) scenario_state (two_by_two 0) [1; 2; 3; 4] /\
  holds (W := size64) scenario_state (two_by_two 1) [5; 6; 7; 8] /\
  exists c s',
    op_add (W := size64) (two_by_two 0) (two_by_two 1) scenario_state = Ret c s' /\
    at_ (W := size64) c 1 0 s' = Ret 10 s'.
Proof.
  scenario_operands Ha Hb.
  split; [exact Ha|]. split; [exact Hb|].
  destruct (sum_entries size64 Z Z_scalar scenario_state (two_by_two 0) (two_by_two 1)
              _ _ Ha Hb eq_refl eq_refl)
    as (c & s' & Hrun & _ & _ & _ & _ & _ & _ & Hat).
  exists c, s'. split; [exact Hrun|].
  apply (Hat 1 0); vm_compute; split; congruence.
Defined.

(** X4. For live matrices [a] and [b] of the same shape, [a - b] returns a
    matrix of that shape in a freshly allocated buffer whose entry [(i, j)],
    read with [at], is [a(i,j) - b(i,j)]; nothing is deleted and both
    operands keep their elements. *)
Theorem difference_entries :
  forall (W : SizeT) (T : Type) (ST : Scalar T) (s : @state T) a b xs ys,
    holds s a xs -> holds s b ys -> rows a = rows b -> cols a = cols b ->
    exists c s',
      op_sub a b s = Ret c s' /\
      rows c = rows a /\ cols c = cols a /\ smart c = Some (next s) /\
      freed s' = freed s /\
      holds s' a xs /\ holds s' b ys /\
      forall i j, 0 <= i < rows a -> 0 <= j < cols a ->
        at_ c i j s' = Ret (sub (entry (cols a) xs i j) (entry (cols b) ys i j)) s'.
Proof.
  intros W T ST s a b xs ys Ha Hb Hr Hc.
  destruct (pointwise_result s a xs _ _ Ha (op_sub_run s a b xs ys Ha Hb Hr Hc))
    as (c & zs & Hrun & Hrc & Hcc & Hsm & _ & Ha' & Hat).
  exists c, (alloc_with s (Some <$> zs)). split; [exact Hrun|].
  do 3 (split; [assumption|]). split; [reflexivity|].
  split; [exact Ha'|]. split; [apply holds_alloc, Hb|].
  intros i j Hi Hj. rewrite Hat by assumption. unfold entry. rewrite Hc. reflexivity.
Qed.

Lemma difference_entries_witness :
  holds (W := size64) scenario_state (two_by_two 0) [1; 2; 3; 4] /\
  holds (W := size64) scenario_state (two_by_two 1) [5; 6; 7; 8] /\
  exists c s',
    op_sub (W := size64) (two_by_two 1) (two_by_two 0) scenario_state = Ret c s' /\
    at_ (W := size64) c 0 1 s' = Ret 4 s'.
Proof.
  scenario_operands Ha Hb.
  split; [exact Ha|]. split; [exact Hb|].
  destruct (difference_entries size64 Z Z_scalar scenario_state
              (two_by_two 1) (two_by_two 0) _ _ Hb Ha eq_refl eq_refl)
    as (c & s' & Hrun & _ & _ & _ & _ & _ & _ & Hat).
  exists c, s'. split; [exact Hrun|].
  apply (Hat 0 1); vm_compute; split; congruence.
Defined.

(** X5. For a live matrix [m], [-m] returns a matrix of the shape of [m]
    in a freshly allocated buffer whose entry [(i, j)], read with [at], is
    [-m(i,j)]; nothing is deleted and [m] keeps its elements. *)
Theorem negation_entries :
  forall (W : SizeT) (T : Type) (ST : Scalar T) (s : @state T) m xs,
    holds s m xs ->
    exists c s',
      op_neg m s = Ret c s' /\
      rows c = rows m /\ cols c = cols m /\ smart c = Some (next s) /\
      freed s' = freed s /\
      holds s' m xs /\
      forall i j, 0 <= i < rows m -> 0 <= j < cols m ->
        at_ c i j s' = Ret (neg (entry (cols m) xs i j)) s'.
Proof.
  intros W T ST s m xs Hm.
  destruct (pointwise_result s m xs _ _ Hm (op_neg_run s m xs Hm))
    as (c & zs & Hrun & Hrc & Hcc & Hsm & _ & Hm' & Hat).
  exists c, (alloc_with s (Some <$> zs)). split; [exact Hrun|].
  do 3 (split; [assumption|]). split; [reflexivity|].
  split; [exact Hm'|]. exact Hat.
Qed.

Lemma negation_entries_witness :
  holds (W := size64) scenario_state (two_by_two 0) [1; 2; 3; 4] /\
  exists c s',
    op_neg (W := size64) (two_by_two 0) scenario_state = Ret c s' /\
    at_ (W := size64) c 1 1 s' = Ret (-4) s'.
Proof.
  scenario_operands Ha Hb.
  split; [exact Ha|].
  destruct (negation_entries size64 Z Z_scalar scenario_state (two_by_two 0) _ Ha)
    as (c & s' & Hrun & _ & _ & _ & _ & _ & Hat).
  exists c, s'. split; [exact Hrun|].
  apply (Hat 1 1); vm_compute; split; congruence.
Defined.

(** X6. For a live matrix [m] and a scalar [k], [k * m] and [m * k] are
    the same computation: both return a matrix of the shape of [m] in a
    freshly allocated buffer whose entry [(i, j)], read with [at], is
    [k * m(i,j)], the scalar on the left in both forms; nothing is deleted
    and [m] keeps its elements. *)
Theorem scaling_entries :
  forall (W : SizeT) (T : Type) (ST : Scalar T) (s : @state T) k m xs,
    holds s m xs ->
    exists c s',
      op_scale k m s = Ret c s' /\
      op_scale_r m k s = Ret c s' /\
      rows c = rows m /\ cols c = cols m /\ smart c = Some (next s) /\
      freed s' = freed s /\
      holds s' m xs /\
      forall i j, 0 <= i < rows m -> 0 <= j < cols m ->
        at_ c i j s' = Ret (mul k (entry (cols m) xs i j)) s'.
Proof.
  intros W T ST s k m xs Hm.
  destruct (pointwise_result s m xs _ _ Hm (op_scale_run s k m xs Hm))
    as (c & zs & Hrun & Hrc & Hcc & Hsm & _ & Hm' & Hat).
  exists c, (alloc_with s (Some <$> zs)). split; [exact Hrun|]. split; [exact Hrun|].
  do 3 (split; [assumption|]). split; [reflexivity|].
  split; [exact Hm'|]. exact Hat.
Qed.

Lemma scaling_entries_witness :
  holds (W := size64) scenario_state (two_by_two 1) [5; 6; 7; 8] /\
  exists c s',
    op_scale (W := size64) 3 (two_by_two 1) scenario_state = Ret c s' /\
    op_scale_r (W := size64) (two_by_two 1) 3 scenario_state = Ret c s' /\
    at_ (W := size64) c 0 1 s' = Ret 18 s'.
Proof.
  scenario_operands Ha Hb.
  split; [exact Hb|].
  destruct (scaling_entries size64 Z Z_scalar scenario_state 3 (two_by_two 1) _ Hb)
    as (c & s' & Hrun & Hrun' & _ & _ & _ & _ & _ & Hat).
  exists c, s'. split; [exact Hrun|]. split; [exact Hrun'|].
  apply (Hat 0 1); vm_compute; split; congruence.
Defined.

(** *** Access without a range check *)

Section Access.
Context {W : SizeT} {T : Type} {ST : Scalar T}.

(** Distinct in-range positions have distinct flattened offsets. *)
Lemma position_of_offset c i j i' j' :
  0 <= j < c -> 0 <= j' < c -> i * c + j = i' * c + j' -> i = i' /\ j = j'.
Proof.
  intros Hj Hj' Heq.
  destruct (unflatten c i j Hj) as [Hd Hm].
  destruct (unflatten c i' j' Hj') as [Hd' Hm'].
  rewrite Heq in Hd, Hm. split; congruence.
Qed.

Lemma assign_run (s : @state T) m l xs i j x :
  holds s m xs -> smart m = Some l -> 0 <= i < rows m -> 0 <= j < cols m ->
  assign m i j x s
  = Ret tt (set_buf s l (Some <$> <[Z.to_nat (i * cols m + j) := x]> xs)).
Proof.
  intros (Hshape & Hlen & k & Hs & He & Hl & Hlt) Hsm Hi Hj.
  assert (k = l) as -> by congruence.
  destruct (index_in_shape _ _ i j Hshape Hi Hj) as [Hidx Hmod].
  unfold assign, call_ref. rewrite He.
  rewrite offset_small by (destruct Hshape; lia).
  rewrite (store_at_some s l (Some <$> xs)) by (try exact Hl; lia).
  rewrite list_fmap_insert. reflexivity.
Qed.

Lemma holds_set_buf (s : @state T) m l (xs ys : list T) :
  holds s m xs -> smart m = Some l -> length ys = length xs ->
  holds (set_buf s l (Some <$> ys)) m ys.
Proof.
  intros (Hshape & Hlen & k & Hs & He & Hl & Hlt) Hsm Hys.
  assert (k = l) as -> by congruence.
  split; [exact Hshape|]. split.
  - rewrite length_fmap in *. lia.
  - exists l. repeat split; try assumption. apply store_set_buf_eq.
Qed.

Lemma holds_set_buf_other (s : @state T) m l (xs : list T) buf :
  holds s m xs -> smart m <> Some l -> holds (set_buf s l buf) m xs.
Proof.
  intros (Hshape & Hlen & k & Hs & He & Hl & Hlt) Hne.
  split; [exact Hshape|]. split; [exact Hlen|].
  exists k. repeat split; try assumption.
  rewrite store_set_buf_ne by congruence. exact Hl.
Qed.

Lemma call_holds_here (s : @state T) m xs i j :
  holds s m xs -> 0 <= i < rows m -> 0 <= j < cols m ->
  call m i j s = Ret (entry (cols m) xs i j) s.
Proof. intros Hm Hi Hj. apply (call_holds s s m xs i j Hm); auto. Qed.

(** Unchecked access depends on the flattened offset alone. *)
Lemma call_by_offset (s : @state T) m xs row col :
  holds s m xs -> 0 <= row -> 0 <= col -> row * cols m + col < size_modulus ->
  call m row col s =
    if decide (row * cols m + col < rows m * cols m)
    then Ret (xs !!! Z.to_nat (row * cols m + col)) s
    else Undef.
Proof.
  intros (Hshape & Hlen & l & Hs & He & Hl & Hlt) Hr Hc Hfit.
  rewrite length_fmap in Hlen.
  unfold call. rewrite He. rewrite offset_small by (destruct Hshape; lia).
  assert (0 <= row * cols m) by (apply Z.mul_nonneg_nonneg; destruct Hshape; lia).
  unfold load. rewrite Hl, list_lookup_fmap.
  destruct (decide _) as [Hin | Hout].
  - rewrite (list_lookup_lookup_total_lt xs) by lia. reflexivity.
  - rewrite lookup_ge_None_2 by lia. reflexivity.
Qed.

Lemma assign_by_offset_out (s : @state T) m xs row col x :
  holds s m xs -> 0 <= row -> 0 <= col -> row * cols m + col < size_modulus ->
  rows m * cols m <= row * cols m + col ->
  assign m row col x s = Undef.
Proof.
  intros (Hshape & Hlen & l & Hs & He & Hl & Hlt) Hr Hc Hfit Hout.
  rewrite length_fmap in Hlen.
  unfold assign, call_ref. rewrite He. rewrite offset_small by (destruct Hshape; lia).
  assert (0 <= row * cols m) by (apply Z.mul_nonneg_nonneg; destruct Hshape; lia).
  unfold store_at. rewrite Hl.
  destruct (decide _) as [Hin|_]; [|reflexivity].
  rewrite length_fmap in Hin. lia.
Qed.

End Access.

(** X7. On a live matrix and a position [(i, j)] inside it, the
    assignment [m(i, j) = x] through the reference that [operator()]
    returns, which is the reference [at(i, j)] returns, writes slot
    [i * cols + j] of the buffer and nothing else: no array is allocated or
    deleted, the matrix stays live, [m(i, j)] and [at(i, j)] then read [x],
    and every other position reads as before. *)
Theorem write_then_read :
  forall (W : SizeT) (T : Type) (ST : Scalar T) (s : @state T) m xs i j x,
    holds s m xs -> 0 <= i < rows m -> 0 <= j < cols m ->
    exists s',
      assign m i j x s = Ret tt s' /\
      at_ref m i j s = Ret (call_ref m i j) s /\
      holds s' m (<[Z.to_nat (i * cols m + j) := x]> xs) /\
      next s' = next s /\ freed s' = freed s /\
      call m i j s' = Ret x s' /\ at_ m i j s' = Ret x s' /\
      forall i' j', 0 <= i' < rows m -> 0 <= j' < cols m -> (i', j') <> (i, j) ->
        call m i' j' s' = Ret (entry (cols m) xs i' j') s' /\
        at_ m i' j' s' = Ret (entry (cols m) xs i' j') s'.
Proof.
  intros W T ST s m xs i j x Hm Hi Hj.
  pose proof Hm as (Hshape & Hlen & l & Hs & He & Hl & Hlt).
  rewrite length_fmap in Hlen.
  destruct (index_in_shape _ _ i j Hshape Hi Hj) as [Hidx _].
  set (k := Z.to_nat (i * cols m + j)).
  assert (holds (set_buf s l (Some <$> <[k := x]> xs)) m (<[k := x]> xs)) as Hm'.
  { apply (holds_set_buf s m l xs); [exact Hm | exact Hs |]. apply length_insert. }
  exists (set_buf s l (Some <$> <[k := x]> xs)).
  split; [apply assign_run; assumption|].
  split; [apply at_ref_in_range; lia|].
  split; [exact Hm'|]. split; [reflexivity|]. split; [reflexivity|].
  assert (entry (cols m) (<[k := x]> xs) i j = x) as Hhere.
  { unfold entry. fold k. apply list_lookup_total_insert_eq. lia. }
  split; [rewrite (call_holds_here _ _ _ i j Hm') by assumption; rewrite Hhere; reflexivity|].
  split; [rewrite (at_holds _ _ _ i j Hm') by assumption; rewrite Hhere; reflexivity|].
  intros i' j' Hi' Hj' Hne.
  assert (entry (cols m) (<[k := x]> xs) i' j' = entry (cols m) xs i' j') as Hthere.
  { unfold entry. apply list_lookup_total_insert_ne. unfold k. intros Heq.
    destruct (index_in_shape _ _ i' j' Hshape Hi' Hj') as [Hidx' _].
    apply Hne. destruct (position_of_offset (cols m) i j i' j' Hj Hj' ltac:(lia)).
    congruence. }
  split.
  - rewrite (call_holds_here _ _ _ i' j' Hm') by assumption. rewrite Hthere. reflexivity.
  - rewrite (at_holds _ _ _ i' j' Hm') by assumption. rewrite Hthere. reflexivity.
Qed.

Lemma write_then_read_witness :
  holds (W := size64) scenario_state (two_by_two 0) [1; 2; 3; 4] /\
  exists s',
    assign (W := size64) (two_by_two 0) 1 0 9 scenario_state = Ret tt s' /\
    holds (W := size64) s' (two_by_two 0) [1; 2; 9; 4] /\
    at_ (W := size64) (two_by_two 0) 1 0 s' = Ret 9 s' /\
    at_ (W := size64) (two_by_two 0) 1 1 s' = Ret 4 s'.
Proof.
  scenario_operands Ha Hb.
  split; [exact Ha|].
  destruct (write_then_read size64 Z Z_scalar scenario_state (two_by_two 0) _ 1 0 9 Ha)
    as (s' & Hrun & _ & Hm & _ & _ & _ & Hat & Hother);
    [vm_compute; split; congruence .. |].
  exists s'. split; [exact Hrun|]. split; [exact Hm|]. split; [exact Hat|].
  apply (Hother 1 1); [vm_compute; split; congruence .. |].
  intros [= Heq].
Defined.

(** X8. [operator()] checks nothing and reads the slot
    [cols * row + col]. On a live matrix, [m(i, cols)] with [i + 1 < rows]
    is therefore the first element of the next row, the very slot of
    [m(i + 1, 0)], where [at(i, cols)] throws [index_out_of_range]; and any
    position whose offset is [rows * cols] or more (and fits [size_t]),
    such as [(rows, 0)], is an access outside the buffer, which is undefined
    behaviour for the read and for the write, where [at] throws. *)
Theorem unchecked_access_by_offset :
  forall (W : SizeT) (T : Type) (ST : Scalar T) (s : @state T) m xs,
    holds s m xs ->
    (forall i, 0 <= i -> i + 1 < rows m ->
       call m i (cols m) s = Ret (entry (cols m) xs (i + 1) 0) s /\
       call m i (cols m) s = call m (i + 1) 0 s /\
       call_ref m i (cols m) = call_ref m (i + 1) 0 /\
       at_ m i (cols m) s = Throw index_out_of_range s) /\
    (forall row col x, 0 <= row -> 0 <= col ->
       row * cols m + col < size_modulus ->
       rows m * cols m <= row * cols m + col ->
       call m row col s = Undef /\ assign m row col x s = Undef) /\
    call m (rows m) 0 s = Undef /\
    at_ m (rows m) 0 s = Throw index_out_of_range s.
Proof.
  intros W T ST s m xs Hm. pose proof Hm as (Hshape & Hlen & _).
  pose proof Hshape as (Hr & Hc & Hfit).
  assert (forall row col, 0 <= row -> 0 <= col ->
            row * cols m + col < size_modulus ->
            rows m * cols m <= row * cols m + col ->
            call m row col s = Undef) as Hout.
  { intros row col Hrow Hcol Hsz Hbeyond.
    rewrite (call_by_offset s m xs row col Hm Hrow Hcol Hsz).
    destruct (decide _); [lia | reflexivity]. }
  split; [|split; [|split]].
  - intros i Hi Hnext.
    assert (i * cols m + cols m = (i + 1) * cols m + 0) as Hsame by lia.
    assert ((i + 1) * cols m + 0 < rows m * cols m) as Hin.
    { destruct (index_in_shape _ _ (i + 1) 0 Hshape ltac:(lia) ltac:(lia)). lia. }
    assert (call m i (cols m) s = Ret (entry (cols m) xs (i + 1) 0) s) as Hcall.
    { rewrite (call_by_offset s m xs i (cols m) Hm) by lia.
      destruct (decide _); [|lia]. unfold entry. rewrite Hsame. reflexivity. }
    split; [exact Hcall|]. split.
    + rewrite Hcall. symmetry. apply call_holds_here; [exact Hm | lia | lia].
    + split; [|apply at_out_of_range; right; lia].
      unfold call_ref. f_equal.
      rewrite !offset_small by lia. lia.
  - intros row col x Hrow Hcol Hsz Hbeyond. split; [apply Hout; assumption|].
    apply (assign_by_offset_out s m xs); assumption.
  - apply Hout; lia.
  - apply at_out_of_range. left. lia.
Qed.

Lemma unchecked_access_by_offset_witness :
  holds (W := size64) scenario_state (two_by_two 0) [1; 2; 3; 4] /\
  call (W := size64) (two_by_two 0) 0 2 scenario_state = Ret 3 scenario_state /\
  at_ (W := size64) (two_by_two 0) 0 2 scenario_state
    = Throw index_out_of_range scenario_state /\
  call (W := size64) (two_by_two 0) 2 0 scenario_state = Undef.
Proof.
  scenario_operands Ha Hb.
  split; [exact Ha|].
  destruct (unchecked_access_by_offset size64 Z Z_scalar scenario_state
              (two_by_two 0) _ Ha) as (Hrow & _ & Hend & _).
  destruct (Hrow 0) as (Hcall & _ & _ & Hat); [lia | vm_compute; congruence |].
  split; [exact Hcall|]. split; [exact Hat|]. exact Hend.
Defined.

(** X9. The copy constructor, given a live matrix, returns a matrix of
    the same shape holding the same elements in a freshly allocated buffer,
    not the buffer of the source; nothing is deleted and the source is left
    as it is. Writing an element of the copy afterwards leaves the source
    unchanged, and writing an element of the source leaves the copy
    unchanged. *)
Theorem copy_is_independent :
  forall (W : SizeT) (T : Type) (ST : Scalar T) (s : @state T) m xs i j x,
    holds s m xs -> 0 <= i < rows m -> 0 <= j < cols m ->
    exists c s1,
      matrix_copy m s = Ret c s1 /\
      rows c = rows m /\ cols c = cols m /\
      smart c = Some (next s) /\ smart c <> smart m /\
      freed s1 = freed s /\
      holds s1 c xs /\ holds s1 m xs /\
      (exists s2, assign c i j x s1 = Ret tt s2 /\
         holds s2 c (<[Z.to_nat (i * cols m + j) := x]> xs) /\ holds s2 m xs) /\
      (exists s2, assign m i j x s1 = Ret tt s2 /\
         holds s2 m (<[Z.to_nat (i * cols m + j) := x]> xs) /\ holds s2 c xs).
Proof.
  intros W T ST s m xs i j x Hm Hi Hj.
  pose proof Hm as (Hshape & Hlen & l & Hs & He & Hl & Hlt).
  rewrite length_fmap in Hlen.
  set (c := mkMatrix (rows m) (cols m) (Some (next s)) (Some (next s))).
  set (s1 := alloc_with s (Some <$> xs)).
  assert (holds s1 c xs) as Hc by (apply holds_result; assumption).
  assert (holds s1 m xs) as Hm1 by (apply holds_alloc, Hm).
  exists c, s1. split; [apply matrix_copy_run, Hm|].
  do 3 (split; [reflexivity|]).
  split; [rewrite Hs; cbn; intros [= Heq]; lia|].
  split; [reflexivity|]. split; [exact Hc|]. split; [exact Hm1|].
  split.
  - eexists. split; [apply (assign_run s1 c (next s) xs i j x Hc eq_refl Hi Hj)|].
    cbn [cols c]. split.
    + apply (holds_set_buf s1 c (next s) xs); [exact Hc | reflexivity | apply length_insert].
    + apply holds_set_buf_other; [exact Hm1|]. rewrite Hs. intros [= Heq]. lia.
  - eexists. split; [apply (assign_run s1 m l xs i j x Hm1 Hs Hi Hj)|]. split.
    + apply (holds_set_buf s1 m l xs); [exact Hm1 | exact Hs | apply length_insert].
    + apply holds_set_buf_other; [exact Hc|]. cbn. intros [= Heq]. lia.
Qed.

Lemma copy_is_independent_witness :
  holds (W := size64) scenario_state (two_by_two 0) [1; 2; 3; 4] /\
  exists c s1,
    matrix_copy (W := size64) (two_by_two 0) scenario_state = Ret c s1 /\
    smart c = Some 2%nat /\
    exists s2,
      assign (W := size64) c 0 1 9 s1 = Ret tt s2 /\
      holds (W := size64) s2 c [1; 9; 3; 4] /\
      holds (W := size64) s2 (two_by_two 0) [1; 2; 3; 4].
Proof.
  scenario_operands Ha Hb.
  split; [exact Ha|].
  destruct (copy_is_independent size64 Z Z_scalar scenario_state (two_by_two 0) _
              0 1 9 Ha)
    as (c & s1 & Hrun & _ & _ & Hsm & _ & _ & _ & _ & Hwrite & _);
    [vm_compute; split; congruence .. |].
  exists c, s1. split; [exact Hrun|]. split; [exact Hsm|]. exact Hwrite.
Defined.

(** *** Copies of an empty matrix *)

Section EmptyCopies.
Context {W : SizeT} {T : Type} {ST : Scalar T}.

Lemma size_mul_zero_l c : size_mul 0 c = 0.
Proof.
  unfold size_mul, wrap. rewrite Z.mul_0_l. apply Z.mod_0_l.
  pose proof size_modulus_pos. lia.
Qed.

End EmptyCopies.

(** X10. The copy constructor has no zero-size check: copying a matrix
    with [rows = 0] and [cols = 0], such as a moved-from one, does not throw
    but returns a 0 by 0 matrix that owns a freshly allocated array of no
    elements. [at] throws [index_out_of_range] on it for every position, and
    its destructor deletes that array. *)
Theorem copy_of_empty :
  forall (W : SizeT) (T : Type) (ST : Scalar T) (s : @state T) m,
    rows m = 0 -> cols m = 0 ->
    exists c s',
      matrix_copy m s = Ret c s' /\
      rows c = 0 /\ cols c = 0 /\
      owns s' c (next s) [] /\
      s' = alloc_with s [] /\
      (forall i j, 0 <= i -> at_ c i j s' = Throw index_out_of_range s') /\
      destroy c s' = Ret tt (dealloc s' (next s)).
Proof.
  intros W T ST s m Hr Hc.
  exists (mkMatrix 0 0 (Some (next s)) (Some (next s))), (alloc_with s []).
  split.
  { unfold matrix_copy. rewrite Hr, Hc, size_mul_zero_l.
    rewrite (bind_ret _ _ _ _ _ (new_array_run 0 s)). reflexivity. }
  do 2 (split; [reflexivity|]).
  assert (owns (alloc_with s []) (mkMatrix 0 0 (Some (next s)) (Some (next s))) (next s) [])
    as Hown by (repeat split; cbn; [apply lookup_insert_eq | lia]).
  split; [exact Hown|]. split; [reflexivity|]. split.
  - intros i j Hi. apply at_out_of_range. left. cbn. lia.
  - apply (destroy_owner _ _ (next s) []); [reflexivity | apply Hown].
Qed.

Lemma copy_of_empty_witness :
  rows moved_from = 0 /\ cols moved_from = 0 /\
  exists c s',
    matrix_copy (W := size64) moved_from scenario_state = Ret c s' /\
    rows c = 0 /\ cols c = 0 /\ smart c = Some 2%nat /\
    store s' !! 2%nat = Some [].
Proof.
  split; [reflexivity|]. split; [reflexivity|].
  destruct (copy_of_empty size64 Z Z_scalar scenario_state moved_from eq_refl eq_refl)
    as (c & s' & Hrun & Hr & Hc & (Hsm & _ & Hbuf & _) & _).
  exists c, s'. split; [exact Hrun|].
  split; [exact Hr|]. split; [exact Hc|]. split; [exact Hsm|]. exact Hbuf.
Defined.

(** *** Copy assignment *)

Section Assignment.
Context {W : SizeT} {T : Type} {ST : Scalar T}.

Lemma field_run {A} (os : gmap obj matrix) o m (f : matrix -> A) (s : @state T) :
  os !! o = Some m -> field o f os s = Ret (f m) s.
Proof. intros Ho. unfold field. rewrite Ho. reflexivity. Qed.

Lemma update_run (os : gmap obj matrix) o m f (s : @state T) :
  os !! o = Some m -> update o f os s = Ret (<[o := f m]> os) s.
Proof. intros Ho. unfold update. rewrite Ho. reflexivity. Qed.

End Assignment.

(** One step of a member function on the table of objects. *)
Ltac lookup_obj :=
  repeat first [ rewrite lookup_insert_eq | rewrite lookup_insert_ne by congruence
               | rewrite lookup_delete_ne by congruence ];
  first [ reflexivity | eassumption ].

Ltac step_obj :=
  first [ erewrite bind_ret by (apply field_run; lookup_obj)
        | erewrite bind_ret by (apply update_run; lookup_obj) ].

Section CopyAssign.
Context {W : SizeT} {T : Type} {ST : Scalar T}.

Lemma copy_assign_distinct_run (os : gmap obj matrix) this src tgt m xs (s s1 : @state T) :
  this <> src -> os !! this = Some tgt -> os !! src = Some m ->
  holds s m xs ->
  unique_reset (smart tgt) (Some (next s))
    (alloc_with s (replicate (Z.to_nat (rows m * cols m)) None))
    = Ret (Some (next s)) s1 ->
  store s1 !! next s = Some (replicate (Z.to_nat (rows m * cols m)) None) ->
  (forall l, smart m = Some l -> store s1 !! l = store s !! l) ->
  copy_assign this src os s
  = Ret (<[this := mkMatrix (rows m) (cols m) (Some (next s)) (Some (next s))]> os)
        (set_buf s1 (next s) (Some <$> xs)).
Proof.
  intros Hne Ht Hsrc Hm Hreset Hnew Hkeep.
  pose proof Hm as (Hshape & Hlen & l & Hs & He & Hl & Hlt).
  rewrite length_fmap in Hlen.
  pose proof (shape_nonneg _ _ Hshape) as Hn.
  unfold copy_assign.
  do 6 step_obj. cbn [rows cols set_rows set_cols].
  rewrite size_mul_small by (destruct Hshape; lia).
  rewrite (bind_ret _ _ _ _ _ (new_array_run _ s)).
  step_obj. cbn [smart set_rows set_cols].
  rewrite (bind_ret _ _ _ _ _ Hreset).
  do 5 step_obj. cbn [rows cols set_rows set_cols set_smart set_elements smart].
  rewrite size_mul_small by (destruct Hshape; lia).
  destruct (for_each_inv
    (fun k st => filled s1 (next s) (rows m * cols m) (fun z => xs !!! Z.to_nat z) k st)
    (fun i =>
       do src0 <- field src elements
         (<[this:=set_elements (Some (next s))
              (set_smart (Some (next s)) (set_cols (cols m) (set_rows (rows m) tgt)))]>
            (<[this:=set_smart (Some (next s)) (set_cols (cols m) (set_rows (rows m) tgt))]>
               (<[this:=set_cols (cols m) (set_rows (rows m) tgt)]>
                  (<[this:=set_rows (rows m) tgt]> os))));
       do x <- load src0 i;
       do dst <- field this elements
         (<[this:=set_elements (Some (next s))
              (set_smart (Some (next s)) (set_cols (cols m) (set_rows (rows m) tgt)))]>
            (<[this:=set_smart (Some (next s)) (set_cols (cols m) (set_rows (rows m) tgt))]>
               (<[this:=set_cols (cols m) (set_rows (rows m) tgt)]>
                  (<[this:=set_rows (rows m) tgt]> os))));
       store_at dst i x)
    (rows m * cols m) s1 Hn) as (s2 & Hloop & Hend).
  - apply (filled_start s1 (next s) _ _ (replicate (Z.to_nat (rows m * cols m)) None));
      [exact Hnew | rewrite length_replicate; lia].
  - intros k st Hk Hfill.
    step_obj. rewrite He.
    rewrite (bind_ret _ _ _ (xs !!! Z.to_nat k) st).
    2:{ apply (load_some st l (Some <$> xs)).
        - rewrite (filled_other _ _ _ _ _ _ l Hfill) by lia.
          rewrite (Hkeep l Hs). exact Hl.
        - rewrite list_lookup_fmap.
          rewrite (list_lookup_lookup_total_lt xs) by lia. reflexivity. }
    step_obj. cbn [elements set_elements].
    apply (filled_write _ _ _ _ _ _ _ Hfill Hk). reflexivity.
  - rewrite (bind_ret _ _ _ _ _ Hloop). unfold ret. f_equal.
    + apply map_eq. intros o.
      destruct (decide (o = this)) as [->|Hot]; simplify_map_eq; reflexivity.
    + rewrite (filled_tabulate _ _ _ _ _ Hn Hend).
      rewrite tabulate_id by exact Hlen. reflexivity.
Qed.

End CopyAssign.

(** X11. Copy assignment [t = m] between two distinct objects, where [m]
    is live and [t] holds either no buffer or a buffer that is not the one
    of [m]: [t] becomes a live matrix of the shape of [m] holding the
    elements of [m] in a freshly allocated buffer, [m] keeps its elements,
    and the buffer [t] held before, and only that one, is deleted. *)
Theorem copy_assign_replaces :
  forall (W : SizeT) (T : Type) (ST : Scalar T) (s : @state T)
         (os : gmap obj matrix) this src tgt m xs,
    this <> src -> os !! this = Some tgt -> os !! src = Some m ->
    holds s m xs ->
    (smart tgt = None \/
     exists lt buft, smart tgt = Some lt /\ store s !! lt = Some buft /\
                     (lt < next s)%nat /\ smart m <> Some lt) ->
    exists d s',
      copy_assign this src os s = Ret (<[this := d]> os) s' /\
      rows d = rows m /\ cols d = cols m /\ smart d = Some (next s) /\
      holds s' d xs /\ holds s' m xs /\
      next s' = S (next s) /\
      freed s' = match smart tgt with Some lt => lt :: freed s | None => freed s end /\
      forall lt, smart tgt = Some lt -> store s' !! lt = None.
Proof.
  intros W T ST s os this src tgt m xs Hne Ht Hsrc Hm Htgt.
  pose proof Hm as (Hshape & Hlen & l & Hs & He & Hl & Hlt).
  rewrite length_fmap in Hlen.
  set (n := rows m * cols m) in *.
  set (d := mkMatrix (rows m) (cols m) (Some (next s)) (Some (next s))).
  exists d.
  destruct Htgt as [Hnone | (lt & buft & Hsome & Hbuf & Hltlt & Hdiff)].
  - exists (alloc_with s (Some <$> xs)).
    split.
    { rewrite (copy_assign_distinct_run os this src tgt m xs s
                 (alloc_with s (replicate (Z.to_nat n) None)) Hne Ht Hsrc Hm).
      - rewrite set_buf_alloc. reflexivity.
      - rewrite Hnone. reflexivity.
      - apply lookup_insert_eq.
      - intros k Hk. cbn. apply lookup_insert_ne. rewrite Hs in Hk.
        injection Hk as <-. lia. }
    do 3 (split; [reflexivity|]).
    split; [apply holds_result; assumption|].
    split; [apply holds_alloc, Hm|].
    split; [reflexivity|]. rewrite Hnone. split; [reflexivity|]. intros ? [=].
  - set (s1 := dealloc (alloc_with s (replicate (Z.to_nat n) None)) lt).
    exists (set_buf s1 (next s) (Some <$> xs)).
    assert (lt <> l) as Hll by (intros ->; apply Hdiff; exact Hs).
    split.
    { apply (copy_assign_distinct_run os this src tgt m xs s s1 Hne Ht Hsrc Hm).
      - rewrite Hsome. apply (unique_reset_held lt buft).
        cbn. rewrite lookup_insert_ne by lia. exact Hbuf.
      - cbn. rewrite lookup_delete_ne by lia. apply lookup_insert_eq.
      - intros k Hk. rewrite Hs in Hk. injection Hk as <-. cbn.
        rewrite lookup_delete_ne by congruence. apply lookup_insert_ne. lia. }
    do 3 (split; [reflexivity|]).
    split.
    { split; [exact Hshape|]. split; [rewrite length_fmap; exact Hlen|].
      exists (next s). repeat split; cbn; [apply lookup_insert_eq | lia]. }
    split.
    { split; [exact Hshape|]. split; [rewrite length_fmap; exact Hlen|].
      exists l. repeat split; try assumption; cbn; [|lia].
      rewrite lookup_insert_ne by lia. rewrite lookup_delete_ne by congruence.
      rewrite lookup_insert_ne by lia. exact Hl. }
    split; [reflexivity|]. rewrite Hsome. split; [reflexivity|].
    intros k [= <-]. cbn. rewrite lookup_insert_ne by lia. apply lookup_delete_eq.
Qed.

Lemma copy_assign_replaces_witness :
  holds (W := size64) scenario_state (two_by_two 1) [5; 6; 7; 8] /\
  exists d s',
    copy_assign (W := size64) 0%nat 1%nat scenario_objects scenario_state
      = Ret (<[0%nat := d]> scenario_objects) s' /\
    holds (W := size64) s' d [5; 6; 7; 8] /\
    holds (W := size64) s' (two_by_two 1) [5; 6; 7; 8] /\
    freed s' = [0%nat].
Proof.
  scenario_operands Ha Hb.
  split; [exact Hb|].
  destruct (copy_assign_replaces size64 Z Z_scalar scenario_state scenario_objects
              0%nat 1%nat (two_by_two 0) (two_by_two 1) _
              ltac:(lia) eq_refl eq_refl Hb)
    as (d & s' & Hrun & _ & _ & _ & Hd & Hsrc & _ & Hfreed & _).
  { right. exists 0%nat, (Some <$> [1; 2; 3; 4]).
    split; [reflexivity|]. split; [reflexivity|].
    split; [vm_compute; lia|]. intros [= Heq]. }
  exists d, s'. split; [exact Hrun|]. split; [exact Hd|]. split; [exact Hsrc|].
  exact Hfreed.
Defined.

(** X12. Copy assignment has no guard against self-assignment: for a
    live matrix [a], [a = a] replaces the buffer of [a] by a freshly
    allocated one and then copies from that new buffer into itself, reading
    elements that were never written, which is undefined behaviour. *)
Theorem copy_assign_self_undefined :
  forall (W : SizeT) (T : Type) (ST : Scalar T) (s : @state T)
         (os : gmap obj matrix) this m xs,
    os !! this = Some m -> holds s m xs ->
    copy_assign this this os s = Undef.
Proof.
  intros W T ST s os this m xs Ht Hm.
  pose proof Hm as (Hshape & Hlen & l & Hs & He & Hl & Hlt).
  pose proof Hshape as (Hr & Hc & Hfit).
  assert (0 < rows m * cols m) as Hn by (apply Z.mul_pos_pos; assumption).
  unfold copy_assign.
  do 6 step_obj. cbn [rows cols set_rows set_cols].
  rewrite size_mul_small by lia.
  rewrite (bind_ret _ _ _ _ _ (new_array_run _ s)).
  step_obj. cbn [smart set_rows set_cols]. rewrite Hs.
  assert (store (alloc_with s (replicate (Z.to_nat (rows m * cols m)) None)) !! l
          = Some (Some <$> xs)) as Hl1
    by (cbn; rewrite lookup_insert_ne by lia; exact Hl).
  rewrite (bind_ret _ _ _ _ _ (unique_reset_held l (Some <$> xs) (Some (next s)) _ Hl1)).
  do 5 step_obj. cbn [rows cols set_rows set_cols set_smart set_elements smart].
  rewrite size_mul_small by lia.
  apply bind_undef. apply for_each_undef_first; [exact Hn|].
  step_obj. cbn [elements set_elements].
  apply bind_undef. unfold load. cbn [store dealloc alloc_with].
  rewrite lookup_delete_ne by lia. rewrite lookup_insert_eq.
  rewrite lookup_replicate_2 by lia. reflexivity.
Qed.

Lemma copy_assign_self_undefined_witness :
  scenario_objects !! 0%nat = Some (two_by_two 0) /\
  holds (W := size64) scenario_state (two_by_two 0) [1; 2; 3; 4] /\
  copy_assign (W := size64) 0%nat 0%nat scenario_objects scenario_state = Undef.
Proof.
  scenario_operands Ha Hb.
  split; [reflexivity|]. split; [exact Ha|].
  exact (copy_assign_self_undefined size64 Z Z_scalar scenario_state scenario_objects
           0%nat (two_by_two 0) _ eq_refl Ha).
Defined.

(** *** The compound operators *)

Section Compound.
Context {W : SizeT} {T : Type} {ST : Scalar T}.

(** [a = t; return a;] for a live temporary [t] and a live target. *)
Lemma assign_and_return_run (os : gmap obj matrix) tmp a va la bufa t zs (s : @state T) :
  os !! a = Some va -> os !! tmp = None ->
  smart va = Some la -> store s !! la = Some bufa ->
  holds s t zs -> smart t <> Some la -> elements t = smart t ->
  let d := mkMatrix (rows t) (cols t) (smart t) (smart t) in
  let s1 := dealloc s la in
  assign_and_return tmp a t os s
  = Ret (<[a := d]> os,
         mkMatrix (rows t) (cols t) (Some (next s)) (Some (next s)))
        (alloc_with s1 (Some <$> zs)).
Proof.
  intros Ha Htmp Hsa Hla Ht Hne Hel d s1.
  assert (a <> tmp) as Hat by (intros ->; congruence).
  unfold assign_and_return.
  rewrite (bind_ret _ _ _ _ _
             (move_assign_distinct (<[tmp := t]> os) a tmp va t s s1 Hat
                ltac:(lookup_obj) ltac:(lookup_obj)
                ltac:(rewrite Hsa; apply (unique_reset_held la bufa); exact Hla))).
  step_obj. cbn [destroy moved_from smart].
  unfold bind at 1, ret at 1.
  step_obj.
  assert (holds s1 d zs) as Hd.
  { destruct t as [r c e p]. cbn in *. subst e. unfold d. cbn.
    apply live_dealloc; assumption. }
  rewrite (bind_ret _ _ _ _ _ (matrix_copy_run s1 d zs Hd)).
  unfold ret. f_equal. f_equal.
  apply map_eq. intros o.
  destruct (decide (o = tmp)) as [->|Hot]; [|destruct (decide (o = a)) as [->|Hoa]];
    simplify_map_eq; try reflexivity; congruence.
Qed.

(** The common part of [a += b] and [a -= b], given what the operator
    returns. *)
Lemma compound_run (os : gmap obj matrix) tmp a va la xs zs (s : @state T) :
  os !! a = Some va -> os !! tmp = None ->
  holds s va xs -> smart va = Some la ->
  Z.of_nat (length zs) = rows va * cols va ->
  let t := mkMatrix (rows va) (cols va) (Some (next s)) (Some (next s)) in
  let d := t in
  let r := mkMatrix (rows va) (cols va) (Some (S (next s))) (Some (S (next s))) in
  exists s',
    assign_and_return tmp a t os (alloc_with s (Some <$> zs)) = Ret (<[a := d]> os, r) s' /\
    holds s' d zs /\ holds s' r zs /\
    next s' = S (S (next s)) /\ freed s' = la :: freed s /\
    store s' !! la = None /\
    forall m ys, holds s m ys -> smart m <> Some la -> holds s' m ys.
Proof.
  intros Ha Htmp Hva Hsa Hlen t d r.
  pose proof Hva as (Hshape & _ & l & Hs & _ & Hl & Hlt).
  assert (l = la) as -> by congruence.
  set (s1 := alloc_with s (Some <$> zs)).
  assert (holds s1 t zs) as Ht by (apply holds_result; assumption).
  exists (alloc_with (dealloc s1 la) (Some <$> zs)).
  split.
  { apply (assign_and_return_run os tmp a va la (Some <$> xs) t zs s1 Ha Htmp Hsa).
    - cbn. rewrite lookup_insert_ne by lia. exact Hl.
    - exact Ht.
    - cbn. intros [= Heq]. lia.
    - reflexivity. }
  assert (holds (dealloc s1 la) d zs) as Hd.
  { apply live_dealloc; [exact Ht|]. cbn. intros [= Heq]. lia. }
  split; [apply holds_alloc, Hd|].
  split; [apply (holds_result (dealloc s1 la)); assumption|].
  split; [reflexivity|]. split; [reflexivity|].
  split.
  { cbn. rewrite lookup_insert_ne by lia. apply lookup_delete_eq. }
  intros m ys Hm Hne. apply holds_alloc. apply live_dealloc; [|exact Hne].
  apply holds_alloc, Hm.
Qed.

End Compound.

(** X13. [a += b] for live [a] and [b] of the same shape: the object [a]
    takes over the buffer that [a + b] allocated, so it holds the sums
    [a(i,j) + b(i,j)] in the shape it had, and the buffer [a] held before is
    deleted. The operator returns by value: its result is a copy of [a] in a
    second fresh buffer, distinct from the one [a] now holds. [b] keeps its
    elements when it does not share the old buffer of [a]. *)
Theorem add_assign_replaces :
  forall (W : SizeT) (T : Type) (ST : Scalar T) (s : @state T)
         (os : gmap obj matrix) tmp a b va vb xs ys,
    os !! a = Some va -> os !! b = Some vb -> os !! tmp = None ->
    holds s va xs -> holds s vb ys ->
    rows va = rows vb -> cols va = cols vb ->
    exists d r s' zs,
      op_add_assign tmp a b os s = Ret (<[a := d]> os, r) s' /\
      rows d = rows va /\ cols d = cols va /\
      rows r = rows va /\ cols r = cols va /\
      holds s' d zs /\ holds s' r zs /\ smart d <> smart r /\
      (forall i j, 0 <= i < rows va -> 0 <= j < cols va ->
         entry (cols va) zs i j = add (entry (cols va) xs i j) (entry (cols vb) ys i j)) /\
      next s' = S (S (next s)) /\
      (forall la, smart va = Some la ->
         freed s' = la :: freed s /\ store s' !! la = None) /\
      (smart vb <> smart va -> holds s' vb ys).
Proof.
  intros W T ST s os tmp a b va vb xs ys Ha Hb Htmp Hva Hvb Hr Hc.
  pose proof Hva as (Hshape & Hlen & la & Hsa & _ & Hla & Hlt).
  rewrite length_fmap in Hlen.
  pose proof (shape_nonneg _ _ Hshape) as Hn.
  set (zs := tabulate (rows va * cols va)
               (fun z => add (xs !!! Z.to_nat z) (ys !!! Z.to_nat z))).
  destruct (compound_run os tmp a va la xs zs s Ha Htmp Hva Hsa
              (length_tabulate _ _ Hn))
    as (s' & Hrun & Hd & Hres & Hnext & Hfreed & Hgone & Hkeep).
  eexists _, _, s', zs. split.
  { unfold op_add_assign. do 2 step_obj.
    rewrite (bind_ret _ _ _ _ _ (op_add_run s va vb xs ys Hva Hvb Hr Hc)).
    exact Hrun. }
  do 4 (split; [reflexivity|]).
  split; [exact Hd|]. split; [exact Hres|].
  split; [cbn; intros [= Heq]; lia|].
  split.
  { intros i j Hi Hj. unfold entry at 1, zs.
    destruct (index_in_shape _ _ i j Hshape Hi Hj) as [Hidx _].
    rewrite lookup_total_tabulate by exact Hidx. unfold entry. rewrite Hc. reflexivity. }
  split; [exact Hnext|].
  split.
  { intros k Hk. assert (k = la) as -> by congruence. split; assumption. }
  intros Hne. apply Hkeep; [exact Hvb|]. rewrite <- Hsa. exact Hne.
Qed.

Lemma add_assign_replaces_witness :
  holds (W := size64) scenario_state (two_by_two 0) [1; 2; 3; 4] /\
  holds (W := size64) scenario_state (two_by_two 1) [5; 6; 7; 8] /\
  exists d r s' zs,
    op_add_assign (W := size64) 2%nat 0%nat 1%nat scenario_objects scenario_state
      = Ret (<[0%nat := d]> scenario_objects, r) s' /\
    holds (W := size64) s' d zs /\ holds (W := size64) s' r zs /\
    smart d <> smart r /\
    entry 2 zs 1 0 = 10 /\
    freed s' = [0%nat].
Proof.
  scenario_operands Ha Hb.
  split; [exact Ha|]. split; [exact Hb|].
  destruct (add_assign_replaces size64 Z Z_scalar scenario_state scenario_objects
              2%nat 0%nat 1%nat (two_by_two 0) (two_by_two 1) _ _
              eq_refl eq_refl eq_refl Ha Hb eq_refl eq_refl)
    as (d & r & s' & zs & Hrun & _ & _ & _ & _ & Hd & Hr & Hne & Hent & _ & Hold & _).
  exists d, r, s', zs. split; [exact Hrun|].
  split; [exact Hd|]. split; [exact Hr|]. split; [exact Hne|].
  split; [apply (Hent 1 0); vm_compute; split; congruence|].
  apply (Hold 0%nat eq_refl).
Defined.

(** X14. [a -= b] for live [a] and [b] of the same shape: the object [a]
    takes over the buffer that [a - b] allocated, so it holds the
    differences [a(i,j) - b(i,j)] in the shape it had, and the buffer [a]
    held before is deleted. The operator returns by value: its result is a
    copy of [a] in a second fresh buffer, distinct from the one [a] now
    holds. [b] keeps its elements when it does not share the old buffer of
    [a]. *)
Theorem sub_assign_replaces :
  forall (W : SizeT) (T : Type) (ST : Scalar T) (s : @state T)
         (os : gmap obj matrix) tmp a b va vb xs ys,
    os !! a = Some va -> os !! b = Some vb -> os !! tmp = None ->
    holds s va xs -> holds s vb ys ->
    rows va = rows vb -> cols va = cols vb ->
    exists d r s' zs,
      op_sub_assign tmp a b os s = Ret (<[a := d]> os, r) s' /\
      rows d = rows va /\ cols d = cols va /\
      rows r = rows va /\ cols r = cols va /\
      holds s' d zs /\ holds s' r zs /\ smart d <> smart r /\
      (forall i j, 0 <= i < rows va -> 0 <= j < cols va ->
         entry (cols va) zs i j = sub (entry (cols va) xs i j) (entry (cols vb) ys i j)) /\
      next s' = S (S (next s)) /\
      (forall la, smart va = Some la ->
         freed s' = la :: freed s /\ store s' !! la = None) /\
      (smart vb <> smart va -> holds s' vb ys).
Proof.
  intros W T ST s os tmp a b va vb xs ys Ha Hb Htmp Hva Hvb Hr Hc.
  pose proof Hva as (Hshape & Hlen & la & Hsa & _ & Hla & Hlt).
  rewrite length_fmap in Hlen.
  pose proof (shape_nonneg _ _ Hshape) as Hn.
  set (zs := tabulate (rows va * cols va)
               (fun z => sub (xs !!! Z.to_nat z) (ys !!! Z.to_nat z))).
  destruct (compound_run os tmp a va la xs zs s Ha Htmp Hva Hsa
              (length_tabulate _ _ Hn))
    as (s' & Hrun & Hd & Hres & Hnext & Hfreed & Hgone & Hkeep).
  eexists _, _, s', zs. split.
  { unfold op_sub_assign. do 2 step_obj.
    rewrite (bind_ret _ _ _ _ _ (op_sub_run s va vb xs ys Hva Hvb Hr Hc)).
    exact Hrun. }
  do 4 (split; [reflexivity|]).
  split; [exact Hd|]. split; [exact Hres|].
  split; [cbn; intros [= Heq]; lia|].
  split.
  { intros i j Hi Hj. unfold entry at 1, zs.
    destruct (index_in_shape _ _ i j Hshape Hi Hj) as [Hidx _].
    rewrite lookup_total_tabulate by exact Hidx. unfold entry. rewrite Hc. reflexivity. }
  split; [exact Hnext|].
  split.
  { intros k Hk. assert (k = la) as -> by congruence. split; assumption. }
  intros Hne. apply Hkeep; [exact Hvb|]. rewrite <- Hsa. exact Hne.
Qed.

Lemma sub_assign_replaces_witness :
  holds (W := size64) scenario_state (two_by_two 0) [1; 2; 3; 4] /\
  holds (W := size64) scenario_state (two_by_two 1) [5; 6; 7; 8] /\
  exists d r s' zs,
    op_sub_assign (W := size64) 2%nat 1%nat 0%nat scenario_objects scenario_state
      = Ret (<[1%nat := d]> scenario_objects, r) s' /\
    holds (W := size64) s' d zs /\ holds (W := size64) s' r zs /\
    entry 2 zs 1 1 = 4 /\
    freed s' = [1%nat].
Proof.
  scenario_operands Ha Hb.
  split; [exact Ha|]. split; [exact Hb|].
  destruct (sub_assign_replaces size64 Z Z_scalar scenario_state scenario_objects
              2%nat 1%nat 0%nat (two_by_two 1) (two_by_two 0) _ _
              eq_refl eq_refl eq_refl Hb Ha eq_refl eq_refl)
    as (d & r & s' & zs & Hrun & _ & _ & _ & _ & Hd & Hr & _ & Hent & _ & Hold & _).
  exists d, r, s', zs. split; [exact Hrun|].
  split; [exact Hd|]. split; [exact Hr|].
  split; [apply (Hent 1 1); vm_compute; split; congruence|].
  apply (Hold 1%nat eq_refl).
Defined.

(** X15. When the shapes of [a] and [b] differ, [a += b] and [a -= b]
    both throw [incompatible_sizes_add], the subtraction too, before
    anything is allocated, deleted or assigned: the program state is
    unchanged. *)
Theorem compound_shape_error :
  forall (W : SizeT) (T : Type) (ST : Scalar T) (s : @state T)
         (os : gmap obj matrix) tmp a b va vb,
    os !! a = Some va -> os !! b = Some vb ->
    rows va <> rows vb \/ cols va <> cols vb ->
    op_add_assign tmp a b os s = Throw incompatible_sizes_add s /\
    op_sub_assign tmp a b os s = Throw incompatible_sizes_add s.
Proof.
  intros W T ST s os tmp a b va vb Ha Hb Hne.
  unfold op_add_assign, op_sub_assign. split.
  - do 2 step_obj. apply bind_throw. unfold op_add.
    rewrite neqb_shape by exact Hne. reflexivity.
  - do 2 step_obj. apply bind_throw. unfold op_sub.
    rewrite neqb_shape by exact Hne. reflexivity.
Qed.

Lemma compound_shape_error_witness :
  rows (two_by_two 0) <> rows (mkMatrix 3 3 (Some 1%nat) (Some 1%nat)) /\
  op_add_assign (W := size64) 2%nat 0%nat 1%nat
    (<[1%nat := mkMatrix 3 3 (Some 1%nat) (Some 1%nat)]> scenario_objects)
    scenario_state
  = Throw incompatible_sizes_add scenario_state.
Proof.
  assert (rows (two_by_two 0) <> rows (mkMatrix 3 3 (Some 1%nat) (Some 1%nat))) as Hne
    by (vm_compute; congruence).
  split; [exact Hne|].
  exact (proj1 (compound_shape_error size64 Z Z_scalar scenario_state
                  (<[1%nat := mkMatrix 3 3 (Some 1%nat) (Some 1%nat)]> scenario_objects)
                  2%nat 0%nat 1%nat (two_by_two 0) (mkMatrix 3 3 (Some 1%nat) (Some 1%nat))
                  eq_refl eq_refl (or_introl Hne))).
Defined.

(** *** Associativity of the product *)

Section Sums.
Context {T : Type} {ST : Scalar T}.
Hypothesis laws : semiring_laws T.

Lemma sum_over_total n (x y : Z -> T) :
  sum_over n x y = total n (fun k => mul (x k) (y k)).
Proof. induction n as [|n IH]; cbn; [reflexivity | rewrite IH; reflexivity]. Qed.

Lemma total_ext n (f g : Z -> T) :
  (forall k, 0 <= k < Z.of_nat n -> f k = g k) -> total n f = total n g.
Proof.
  induction n as [|n IH]; intros Hfg; cbn; [reflexivity|].
  rewrite IH by (intros k Hk; apply Hfg; lia).
  rewrite Hfg by lia. reflexivity.
Qed.

Lemma add_zero_r_law (x : T) : add x (from_int 0) = x.
Proof. rewrite (add_comm_law laws). apply (add_zero_law laws). Qed.

Lemma total_add n (f g : Z -> T) :
  total n (fun k => add (f k) (g k)) = add (total n f) (total n g).
Proof.
  induction n as [|n IH]; cbn.
  - symmetry. apply (add_zero_law laws).
  - rewrite IH.
    set (F := total n f). set (G := total n g).
    set (u := f (Z.of_nat n)). set (v := g (Z.of_nat n)).
    rewrite <- (add_assoc_law laws F G (add u v)).
    rewrite (add_assoc_law laws G u v).
    rewrite (add_comm_law laws G u).
    rewrite <- (add_assoc_law laws u G v).
    rewrite (add_assoc_law laws F u (add G v)).
    reflexivity.
Qed.

Lemma total_zero n : total n (fun _ => from_int 0 : T) = from_int 0.
Proof.
  induction n as [|n IH]; cbn; [reflexivity|].
  rewrite IH. apply (add_zero_law laws).
Qed.

Lemma total_mul_r n (f : Z -> T) z :
  mul (total n f) z = total n (fun k => mul (f k) z).
Proof.
  induction n as [|n IH]; cbn.
  - apply (mul_zero_l_law laws).
  - rewrite (mul_add_r_law laws), IH. reflexivity.
Qed.

Lemma total_mul_l n (f : Z -> T) z :
  mul z (total n f) = total n (fun k => mul z (f k)).
Proof.
  induction n as [|n IH]; cbn.
  - apply (mul_zero_r_law laws).
  - rewrite (mul_add_l_law laws), IH. reflexivity.
Qed.

Lemma total_exchange n m (h : Z -> Z -> T) :
  total n (fun k => total m (fun l => h k l))
  = total m (fun l => total n (fun k => h k l)).
Proof.
  induction n as [|n IH]; cbn.
  - symmetry. apply total_zero.
  - rewrite IH. symmetry. apply total_add.
Qed.

(** The two ways of bracketing a triple product give the same entry. *)
Lemma triple_product n m (A : Z -> T) (B : Z -> Z -> T) (C : Z -> T) :
  sum_over m (fun k => sum_over n A (fun l => B l k)) C
  = sum_over n A (fun l => sum_over m (fun k => B l k) C).
Proof.
  rewrite !sum_over_total.
  rewrite (total_ext m _ (fun k => total n (fun l => mul (mul (A l) (B l k)) (C k)))).
  2:{ intros k _. rewrite sum_over_total. apply total_mul_r. }
  rewrite total_exchange.
  apply total_ext. intros l _.
  rewrite sum_over_total, total_mul_l.
  apply total_ext. intros k _. symmetry. apply (mul_assoc_law laws).
Qed.

End Sums.

Section Associativity.
Context {W : SizeT} {T : Type} {ST : Scalar T}.

Lemma sum_over_ext n (x x' y y' : Z -> T) :
  (forall k, 0 <= k < Z.of_nat n -> x k = x' k /\ y k = y' k) ->
  sum_over n x y = sum_over n x' y'.
Proof.
  induction n as [|n IH]; intros Hext; cbn; [reflexivity|].
  rewrite IH by (intros k Hk; apply Hext; lia).
  destruct (Hext (Z.of_nat n) ltac:(lia)) as [-> ->]. reflexivity.
Qed.

(** Row and column of a flattened offset inside a shape. *)
Lemma offset_position r c z :
  0 < c -> 0 <= z < r * c -> 0 <= z / c < r /\ 0 <= z mod c < c.
Proof.
  intros Hc Hz. split; [|apply Z.mod_pos_bound; lia].
  split; [apply Z.div_pos; lia|].
  apply Z.div_lt_upper_bound; lia.
Qed.

Lemma product_of_products (a b c ab bc : matrix) (xs ys zs : list T) z :
  semiring_laws T ->
  cols a = rows b -> cols b = rows c ->
  cols ab = cols b -> cols bc = cols c ->
  shape_ok (rows a) (cols b) -> shape_ok (rows b) (cols c) ->
  0 <= z < rows a * cols c ->
  product_entry ab c (tabulate (rows a * cols b) (product_entry a b xs ys)) zs z
  = product_entry a bc xs (tabulate (rows b * cols c) (product_entry b c ys zs)) z.
Proof.
  intros laws Hab Hbc Hcab Hcbc Hs1 Hs2 Hz.
  pose proof Hs1 as (Hra & Hcb & _). pose proof Hs2 as (Hrb & Hcc & _).
  destruct (offset_position (rows a) (cols c) z Hcc Hz) as [Hi Hj].
  unfold product_entry at 1 3. rewrite Hcab, Hcbc.
  set (i := z / cols c) in *. set (j := z mod cols c) in *.
  rewrite (sum_over_ext (Z.to_nat (cols b)) _
             (fun k => sum_over (Z.to_nat (cols a))
                         (fun l => entry (cols a) xs i l)
                         (fun l => entry (cols b) ys l k))
             _ (fun k => entry (cols c) zs k j)).
  2:{ intros k Hk. split; [|reflexivity]. unfold entry at 1.
      destruct (index_in_shape _ _ i k Hs1 Hi ltac:(lia)) as [Hidx _].
      rewrite lookup_total_tabulate by exact Hidx.
      apply product_entry_at. lia. }
  rewrite (sum_over_ext (Z.to_nat (cols a))
             (fun k => entry (cols a) xs i k) (fun l => entry (cols a) xs i l)
             _ (fun l => sum_over (Z.to_nat (cols b))
                           (fun k => entry (cols b) ys l k)
                           (fun k => entry (cols c) zs k j))).
  2:{ intros l Hl. split; [reflexivity|]. unfold entry at 1.
      destruct (index_in_shape _ _ l j Hs2 ltac:(lia) Hj) as [Hidx _].
      rewrite lookup_total_tabulate by exact Hidx.
      apply product_entry_at. lia. }
  apply (triple_product laws).
Qed.

Lemma mul_left_first_run (s : @state T) a b c xs ys zs :
  holds s a xs -> holds s b ys -> holds s c zs ->
  cols a = rows b -> cols b = rows c ->
  shape_ok (rows a) (cols b) -> shape_ok (rows a) (cols c) ->
  let ab := mkMatrix (rows a) (cols b) (Some (next s)) (Some (next s)) in
  let r := mkMatrix (rows a) (cols c) (Some (S (next s))) (Some (S (next s))) in
  let ws := tabulate (rows a * cols c)
              (product_entry ab c (tabulate (rows a * cols b) (product_entry a b xs ys)) zs) in
  exists s', mul_left_first a b c s = Ret r s' /\ holds s' r ws /\
             freed s' = next s :: freed s.
Proof.
  intros Ha Hb Hc Hab Hbc Hs1 Hs3 ab r ws.
  set (AB := tabulate (rows a * cols b) (product_entry a b xs ys)).
  set (s1 := alloc_with s (Some <$> AB)).
  assert (holds s1 ab AB) as Hab1
    by (apply holds_result; [exact Hs1 | apply length_tabulate, shape_nonneg, Hs1]).
  set (s2 := alloc_with s1 (Some <$> ws)).
  assert (holds s2 r ws) as Hr
    by (apply (holds_result s1); [exact Hs3 | apply length_tabulate, shape_nonneg, Hs3]).
  exists (dealloc s2 (next s)). split.
  - unfold mul_left_first.
    rewrite (bind_ret _ _ _ _ _ (op_mul_run s a b xs ys Ha Hb Hab Hs1)).
    fold AB s1 ab.
    rewrite (bind_ret _ _ _ _ _
               (op_mul_run s1 ab c AB zs Hab1 (holds_alloc _ _ _ _ Hc) Hbc Hs3)).
    rewrite (bind_ret _ _ _ tt (dealloc s2 (next s))); [reflexivity|].
    apply (destroy_owner _ ab (next s) (Some <$> AB)); [reflexivity|].
    cbn. rewrite lookup_insert_ne by lia. apply lookup_insert_eq.
  - split; [|reflexivity].
    apply live_dealloc; [exact Hr|]. cbn. intros [= Heq]. lia.
Qed.

Lemma mul_right_first_run (s : @state T) a b c xs ys zs :
  holds s a xs -> holds s b ys -> holds s c zs ->
  cols a = rows b -> cols b = rows c ->
  shape_ok (rows b) (cols c) -> shape_ok (rows a) (cols c) ->
  let bc := mkMatrix (rows b) (cols c) (Some (next s)) (Some (next s)) in
  let r := mkMatrix (rows a) (cols c) (Some (S (next s))) (Some (S (next s))) in
  let ws := tabulate (rows a * cols c)
              (product_entry a bc xs (tabulate (rows b * cols c) (product_entry b c ys zs))) in
  exists s', mul_right_first a b c s = Ret r s' /\ holds s' r ws /\
             freed s' = next s :: freed s.
Proof.
  intros Ha Hb Hc Hab Hbc Hs2 Hs3 bc r ws.
  set (BC := tabulate (rows b * cols c) (product_entry b c ys zs)).
  set (s1 := alloc_with s (Some <$> BC)).
  assert (holds s1 bc BC) as Hbc1
    by (apply holds_result; [exact Hs2 | apply length_tabulate, shape_nonneg, Hs2]).
  set (s2 := alloc_with s1 (Some <$> ws)).
  assert (holds s2 r ws) as Hr
    by (apply (holds_result s1); [exact Hs3 | apply length_tabulate, shape_nonneg, Hs3]).
  exists (dealloc s2 (next s)). split.
  - unfold mul_right_first.
    rewrite (bind_ret _ _ _ _ _ (op_mul_run s b c ys zs Hb Hc Hbc Hs2)).
    fold BC s1 bc.
    rewrite (bind_ret _ _ _ _ _
               (op_mul_run s1 a bc xs BC (holds_alloc _ _ _ _ Ha) Hbc1 Hab Hs3)).
    rewrite (bind_ret _ _ _ tt (dealloc s2 (next s))); [reflexivity|].
    apply (destroy_owner _ bc (next s) (Some <$> BC)); [reflexivity|].
    cbn. rewrite lookup_insert_ne by lia. apply lookup_insert_eq.
  - split; [|reflexivity].
    apply live_dealloc; [exact Hr|]. cbn. intros [= Heq]. lia.
Qed.

End Associativity.

(** X16. Over an element type whose [+] and [*] obey the semiring laws
    (with the integer 0 converted to [T] as zero), multiplication is
    associative: for live [a], [b], [c] with [cols a = rows b],
    [cols b = rows c] and result shapes that fit [size_t], [(a * b) * c] and
    [a * (b * c)] both return a live [rows a] by [cols c] matrix, and the
    two hold the same elements, so [at] reads the same value from both at
    every position. *)
Theorem product_associative :
  forall (W : SizeT) (T : Type) (ST : Scalar T),
    semiring_laws T ->
    forall (s : @state T) a b c xs ys zs,
      holds s a xs -> holds s b ys -> holds s c zs ->
      cols a = rows b -> cols b = rows c ->
      shape_ok (rows a) (cols b) -> shape_ok (rows b) (cols c) ->
      shape_ok (rows a) (cols c) ->
      exists r1 s1 r2 s2 ws,
        mul_left_first a b c s = Ret r1 s1 /\
        mul_right_first a b c s = Ret r2 s2 /\
        rows r1 = rows a /\ cols r1 = cols c /\
        rows r2 = rows a /\ cols r2 = cols c /\
        holds s1 r1 ws /\ holds s2 r2 ws /\
        forall i j, 0 <= i < rows a -> 0 <= j < cols c ->
          at_ r1 i j s1 = Ret (entry (cols c) ws i j) s1 /\
          at_ r2 i j s2 = Ret (entry (cols c) ws i j) s2.
Proof.
  intros W T ST laws s a b c xs ys zs Ha Hb Hc Hab Hbc Hs1 Hs2 Hs3.
  destruct (mul_left_first_run s a b c xs ys zs Ha Hb Hc Hab Hbc Hs1 Hs3)
    as (s1 & Hrun1 & Hr1 & _).
  destruct (mul_right_first_run s a b c xs ys zs Ha Hb Hc Hab Hbc Hs2 Hs3)
    as (s2 & Hrun2 & Hr2 & _).
  rewrite (tabulate_ext (rows a * cols c) _
             (product_entry (mkMatrix (rows a) (cols b) (Some (next s)) (Some (next s))) c
                (tabulate (rows a * cols b) (product_entry a b xs ys)) zs)) in Hr2.
  2:{ intros z Hz. symmetry.
      apply (product_of_products a b c); try assumption; reflexivity. }
  eexists _, s1, _, s2, _.
  split; [exact Hrun1|]. split; [exact Hrun2|].
  do 4 (split; [reflexivity|]).
  split; [exact Hr1|]. split; [exact Hr2|].
  intros i j Hi Hj. split.
  - apply (at_holds s1 _ _ i j Hr1); assumption.
  - apply (at_holds s2 _ _ i j Hr2); assumption.
Qed.

Lemma product_associative_witness :
  semiring_laws Z /\
  holds (W := size64) scenario_state (two_by_two 0) [1; 2; 3; 4] /\
  holds (W := size64) scenario_state (two_by_two 1) [5; 6; 7; 8] /\
  exists r1 s1 r2 s2 ws,
    mul_left_first (W := size64) (two_by_two 0) (two_by_two 1) (two_by_two 0)
      scenario_state = Ret r1 s1 /\
    mul_right_first (W := size64) (two_by_two 0) (two_by_two 1) (two_by_two 0)
      scenario_state = Ret r2 s2 /\
    holds (W := size64) s1 r1 ws /\ holds (W := size64) s2 r2 ws.
Proof.
  assert (semiring_laws Z) as laws by (split; intros; cbn; lia).
  scenario_operands Ha Hb.
  assert (shape_ok (W := size64) 2 2) as Hshape
    by (repeat split; vm_compute; congruence).
  split; [exact laws|]. split; [exact Ha|]. split; [exact Hb|].
  destruct (product_associative size64 Z Z_scalar laws scenario_state
              (two_by_two 0) (two_by_two 1) (two_by_two 0) _ _ _ Ha Hb Ha
              eq_refl eq_refl Hshape Hshape Hshape)
    as (r1 & s1 & r2 & s2 & ws & Hrun1 & Hrun2 & _ & _ & _ & _ & Hr1 & Hr2 & _).
  exists r1, s1, r2, s2, ws.
  split; [exact Hrun1|]. split; [exact Hrun2|]. split; [exact Hr1 | exact Hr2].
Defined.

(** X17. Move assignment of an object to itself never fails and changes
    nothing in the heap, but empties the object: [rows] and [cols] become 0
    and [elements] null while [smart] still holds the buffer. From then on
    [at] throws [index_out_of_range] for every position, unchecked access
    dereferences a null pointer, the object prints as "()", and its
    destructor still runs [delete[]] on the buffer. *)
Theorem self_move_assign_empties :
  forall (W : SizeT) (T : Type) (ST : Scalar T) (s : @state T)
         (os : gmap obj matrix) this m l buf,
    os !! this = Some m -> owns s m l buf ->
    exists d,
      move_assign this this os s = Ret (<[this := d]> os) s /\
      rows d = 0 /\ cols d = 0 /\ elements d = None /\ smart d = Some l /\
      (forall i j, 0 <= i -> at_ d i j s = Throw index_out_of_range s) /\
      (forall i j, call d i j s = Undef) /\
      (forall i j x, assign d i j x s = Undef) /\
      (forall out, print out d s = Ret (put ("()" ++ newline) out) s) /\
      destroy d s = Ret tt (dealloc s l).
Proof.
  intros W T ST s os this m l buf Ht (Hs & He & Hl & Hlt).
  exists (mkMatrix 0 0 None (Some l)).
  split; [rewrite (move_assign_self os this m s Ht), Hs; reflexivity|].
  do 4 (split; [reflexivity|]).
  split; [intros i j Hi; apply at_out_of_range; left; cbn; lia|].
  split; [reflexivity|]. split; [reflexivity|]. split; [reflexivity|].
  apply (destroy_owner _ _ l buf); [reflexivity | exact Hl].
Qed.

Lemma self_move_assign_empties_witness :
  owns scenario_state (two_by_two 0) 0%nat (Some <$> [1; 2; 3; 4]) /\
  exists d,
    move_assign 0%nat 0%nat scenario_objects scenario_state
      = Ret (<[0%nat := d]> scenario_objects) scenario_state /\
    rows d = 0 /\ cols d = 0 /\ elements d = None /\ smart d = Some 0%nat /\
    destroy d scenario_state = Ret tt (dealloc scenario_state 0%nat).
Proof.
  assert (owns scenario_state (two_by_two 0) 0%nat (Some <$> [1; 2; 3; 4])) as Hown
    by (repeat split; vm_compute; lia).
  split; [exact Hown|].
  destruct (self_move_assign_empties size64 Z Z_scalar scenario_state scenario_objects
              0%nat (two_by_two 0) 0%nat _ eq_refl Hown)
    as (d & Hrun & Hr & Hc & He & Hs & _ & _ & _ & _ & Hdestroy).
  exists d. split; [exact Hrun|].
  split; [exact Hr|]. split; [exact Hc|]. split; [exact He|]. split; [exact Hs|].
  exact Hdestroy.
Defined.

(** *** The constructor that does not initialize *)

Section Uninitialized.
Context {W : SizeT} {T : Type} {ST : Scalar T}.

(** A read of a slot of a buffer that holds only indeterminate elements. *)
Lemma load_indeterminate (s : @state T) l n i :
  store s !! l = Some (replicate n None) -> load (Some l) i s = Undef.
Proof.
  intros Hl. unfold load. rewrite Hl.
  destruct (replicate n None !! Z.to_nat i) as [[x|]|] eqn:Hx; try reflexivity.
  apply lookup_replicate in Hx as [Hx _]. discriminate.
Qed.

End Uninitialized.

(** X18. The constructor [matrix(rows, cols)] allocates the buffer and
    writes nothing to it: for sizes greater than 0 whose product fits
    [size_t] it returns a matrix of that shape owning a fresh array of
    [rows * cols] indeterminate elements. Reading an element with
    [operator()] or [at], or printing the matrix, before the element is
    written is undefined behaviour; an element that has been assigned
    through [operator()] reads back with [at] as the value assigned. *)
Theorem plain_constructor_uninitialized :
  forall (W : SizeT) (T : Type) (ST : Scalar T) (s : @state T) r c,
    shape_ok r c ->
    exists m s',
      matrix_rc r c s = Ret m s' /\
      rows m = r /\ cols m = c /\
      owns s' m (next s) (replicate (Z.to_nat (r * c)) None) /\
      freed s' = freed s /\
      (forall i j, 0 <= i < r -> 0 <= j < c ->
         call m i j s' = Undef /\ at_ m i j s' = Undef) /\
      (forall out, print out m s' = Undef) /\
      (forall i j x, 0 <= i < r -> 0 <= j < c ->
         exists s'', assign m i j x s' = Ret tt s'' /\
                     call m i j s'' = Ret x s'' /\ at_ m i j s'' = Ret x s'').
Proof.
  intros W T ST s r c Hshape. pose proof Hshape as (Hr & Hc & Hfit).
  set (n := Z.to_nat (r * c)).
  set (m := mkMatrix r c (Some (next s)) (Some (next s))).
  set (s' := alloc_with s (replicate n None)).
  assert (store s' !! next s = Some (replicate n None)) as Hbuf
    by apply lookup_insert_eq.
  assert (forall i j, call m i j s' = Undef) as Hcall.
  { intros i j. unfold call. cbn [elements m]. apply (load_indeterminate s' _ n), Hbuf. }
  exists m, s'. split.
  { rewrite matrix_rc_run by lia. rewrite size_mul_small by lia. reflexivity. }
  do 2 (split; [reflexivity|]).
  split; [repeat split; [exact Hbuf | cbn; lia]|].
  split; [reflexivity|]. split; [|split].
  - intros i j Hi Hj. split; [apply Hcall|].
    rewrite at_in_range by (cbn; lia). apply Hcall.
  - intros out. unfold print. cbn [rows cols m].
    replace (r =? 0) with false by (symmetry; apply Z.eqb_neq; lia).
    cbn [andb]. apply bind_undef.
    apply for_loop_undef_first; [exact Hr|].
    apply bind_undef. apply for_loop_undef_first; [exact Hc|].
    unfold bind at 1, get_output_width at 1.
    apply bind_undef. apply Hcall.
  - intros i j x Hi Hj.
    destruct (index_in_shape _ _ i j Hshape Hi Hj) as [Hidx _].
    assert (offset m i j = i * c + j) as Hoff
      by (apply offset_small; cbn [cols m]; lia).
    exists (set_buf s' (next s) (<[Z.to_nat (i * c + j) := Some x]> (replicate n None))).
    assert (call m i j
              (set_buf s' (next s) (<[Z.to_nat (i * c + j) := Some x]> (replicate n None)))
            = Ret x (set_buf s' (next s)
                       (<[Z.to_nat (i * c + j) := Some x]> (replicate n None)))) as Hread.
    { unfold call. rewrite Hoff. cbn [elements m].
      apply (load_some _ _ (<[Z.to_nat (i * c + j) := Some x]> (replicate n None)));
        [apply store_set_buf_eq|].
      apply list_lookup_insert_eq. rewrite length_replicate. unfold n. lia. }
    split; [|split; [exact Hread|]].
    + unfold assign, call_ref. rewrite Hoff. cbn [elements m].
      apply store_at_some; [exact Hbuf|]. rewrite length_replicate. unfold n. lia.
    + rewrite at_in_range by (cbn; lia). exact Hread.
Qed.

Lemma plain_constructor_uninitialized_witness :
  shape_ok (W := size64) 3 4 /\
  exists m s',
    matrix_rc (W := size64) 3 4 (initial_state (T := Z)) = Ret m s' /\
    at_ (W := size64) m 1 2 s' = Undef /\
    print (W := size64) (mkStream "" 0) m s' = Undef.
Proof.
  assert (shape_ok (W := size64) 3 4) as Hshape
    by (repeat split; vm_compute; congruence).
  split; [exact Hshape|].
  destruct (plain_constructor_uninitialized size64 Z Z_scalar initial_state 3 4 Hshape)
    as (m & s' & Hrun & _ & _ & _ & _ & Hread & Hprint & _).
  exists m, s'. split; [exact Hrun|].
  split; [apply (Hread 1 2); lia | apply Hprint].
Defined.
